(** * Verification of the chat widget controller (frontend/app.js)

    A shallow embedding of the controller of the conversational widget:
    the response formatter ([formatResponse], [linkify]) with the regular
    expressions it uses, the turn dispatcher ([chiedi]) and the voice
    capture activation ([attivaVoce]), followed by the properties proved
    about them.

    JavaScript strings are sequences of UTF-16 code units; they are modelled
    as lists of [N].  Regular expressions are values of a small syntax tree
    and are run by a backtracking matcher written after the matcher of the
    ECMAScript specification (continuation passing, greedy quantifiers). *)

From Stdlib Require Import String Ascii.
From Stdlib Require Import List NArith ZArith Bool Arith Lia.
Import ListNotations.

(* ================================================================= *)
(** ** JavaScript strings *)

Module JsString.

(** A UTF-16 code unit. *)
Abbreviation char16 := N (only parsing).

(** A JavaScript string. *)
Abbreviation jsstring := (list N) (only parsing).

(** The code units of an ASCII literal. *)
Definition js (s : string) : jsstring :=
  List.map N_of_ascii (list_ascii_of_string s).

(** The double quote, which the literals of this file cannot contain. *)
Definition dq : char16 := 34%N.

(** [\d] *)
Definition is_digit (c : char16) : bool :=
  (48 <=? c)%N && (c <=? 57)%N.

(** [\s], which is also what [String.prototype.trim] strips: the
    WhiteSpace and LineTerminator code points of ECMAScript. *)
Definition is_white_space (c : char16) : bool :=
  ((9 <=? c)%N && (c <=? 13)%N)
  || (c =? 32)%N || (c =? 160)%N || (c =? 5760)%N
  || ((8192 <=? c)%N && (c <=? 8202)%N)
  || (c =? 8232)%N || (c =? 8233)%N || (c =? 8239)%N
  || (c =? 8287)%N || (c =? 12288)%N || (c =? 65279)%N.

(** Canonicalisation of a code unit under the [i] flag (without [u]).
    ASCII letters are mapped to upper case.  A code unit above 127 is
    never canonicalised to an ASCII one by ECMAScript, and the patterns of
    this program are ASCII, so that leaving those code units unchanged
    decides the same matches. *)
Definition canonicalize (c : char16) : char16 :=
  if (97 <=? c)%N && (c <=? 122)%N then (c - 32)%N else c.

Fixpoint dropWhile (p : char16 -> bool) (s : jsstring) : jsstring :=
  match s with
  | [] => []
  | c :: s' => if p c then dropWhile p s' else s
  end.

(** [String.prototype.trim] *)
Definition trim (s : jsstring) : jsstring :=
  rev (dropWhile is_white_space (rev (dropWhile is_white_space s))).

(** [a] occurs in [s] as a contiguous substring. *)
Definition Infix (a s : jsstring) : Prop :=
  exists pre post, s = pre ++ a ++ post.

Fixpoint starts_with (a s : jsstring) : bool :=
  match a, s with
  | [], _ => true
  | x :: a', y :: s' => (x =? y)%N && starts_with a' s'
  | _ :: _, [] => false
  end.

(** [String.prototype.includes] *)
Fixpoint includes (s a : jsstring) : bool :=
  starts_with a s ||
  match s with
  | [] => false
  | _ :: s' => includes s' a
  end.

(** A string that [trim] has nothing to take from: it neither starts nor
    ends with white space. *)
Definition is_trimmed (s : jsstring) : bool :=
  match s with
  | [] => true
  | c :: _ => negb (is_white_space c) && negb (is_white_space (last s c))
  end.

(** A line break, which a single-line text field drops from a string that
    is written to it. *)
Definition is_line_break (c : char16) : bool := (c =? 10)%N || (c =? 13)%N.

End JsString.
Import JsString.

(* ================================================================= *)
(** ** Regular expressions *)

Module RegExp.

(** The fragment of the pattern syntax that app.js uses.  Every
    quantifier of the program is applied to a single character class. *)
Inductive regex : Type :=
| REps                                   (* the empty pattern *)
| RChar (p : char16 -> bool)             (* one code unit of a class *)
| RSeq (r1 r2 : regex)                   (* concatenation *)
| RRep (p : char16 -> bool) (lo : nat) (hi : option nat)
                                         (* greedy class{lo,hi}; [None] is no bound *)
| REnd.                                  (* $ *)

Definition exhausted (hi : option nat) : bool :=
  match hi with Some O => true | _ => false end.

(** The greedy quantifier: one more iteration is tried first, and the
    continuation is called on what is left only when that fails and the
    lower bound is reached. *)
Fixpoint m_rep (p : char16 -> bool) (lo : nat) (hi : option nat)
         (s : jsstring) (k : jsstring -> option jsstring) {struct s}
  : option jsstring :=
  let stop := match lo with O => k s | S _ => None end in
  match s with
  | [] => stop
  | c :: s' =>
      if p c && negb (exhausted hi) then
        match m_rep p (pred lo) (option_map pred hi) s' k with
        | Some r => Some r
        | None => stop
        end
      else stop
  end.

(** The matcher: [m r s k] matches [r] at the head of [s] and calls [k] on
    the rest of the input; a failure of [k] makes the matcher backtrack. *)
Fixpoint m (r : regex) (s : jsstring) (k : jsstring -> option jsstring)
  : option jsstring :=
  match r with
  | REps => k s
  | RChar p =>
      match s with
      | c :: s' => if p c then k s' else None
      | [] => None
      end
  | RSeq r1 r2 => m r1 s (fun s1 => m r2 s1 k)
  | RRep p lo hi => m_rep p lo hi s k
  | REnd => match s with [] => k s | _ :: _ => None end
  end.

(** A match attempt at the head of [s]: the matched text and the rest. *)
Definition exec (r : regex) (s : jsstring) : option (jsstring * jsstring) :=
  match m r s Some with
  | Some rest => Some (firstn (length s - length rest) s, rest)
  | None => None
  end.

(** [s.replace(r, f)] for a regular expression with the [g] flag.  The
    input is scanned from left to right; [skip] counts the code units that
    the last match still covers (the positions below [lastIndex]).  After
    an empty match the scan moves on by one code unit. *)
Fixpoint replace_scan (r : regex) (f : jsstring -> jsstring)
         (skip : nat) (s : jsstring) : jsstring :=
  match s with
  | [] =>
      match skip with
      | O => match exec r [] with Some (w, _) => f w | None => [] end
      | S _ => []
      end
  | c :: s' =>
      match skip with
      | S n => replace_scan r f n s'
      | O =>
          match exec r s with
          | Some ([], _) => f [] ++ c :: replace_scan r f 0 s'
          | Some ((_ :: w') as w, _) => f w ++ replace_scan r f (length w') s'
          | None => c :: replace_scan r f 0 s'
          end
      end
  end.

Definition replace_global (r : regex) (f : jsstring -> jsstring)
           (s : jsstring) : jsstring :=
  replace_scan r f 0 s.

(** [s.replace(r, f)] for a regular expression without the [g] flag: only
    the leftmost match is replaced. *)
Fixpoint replace_first (r : regex) (f : jsstring -> jsstring)
         (s : jsstring) : jsstring :=
  match exec r s with
  | Some (w, rest) => f w ++ rest
  | None =>
      match s with
      | [] => []
      | c :: s' => c :: replace_first r f s'
      end
  end.

(** A literal, case sensitive. *)
Definition lit (s : jsstring) : regex :=
  fold_right (fun c r => RSeq (RChar (N.eqb c)) r) REps s.

(** A literal under the [i] flag. *)
Definition lit_ci (s : jsstring) : regex :=
  fold_right
    (fun c r => RSeq (RChar (fun x => (canonicalize x =? canonicalize c)%N)) r)
    REps s.

(** The positions of [s] (as suffixes) where [r] matches. *)
Fixpoint matches_somewhere (r : regex) (s : jsstring) : bool :=
  match exec r s with
  | Some _ => true
  | None =>
      match s with
      | [] => false
      | _ :: s' => matches_somewhere r s'
      end
  end.

(** The matched texts of a scan with the [g] flag, in the order in which
    [replace_scan] meets them. *)
Fixpoint scan_matches (r : regex) (skip : nat) (s : jsstring)
  : list jsstring :=
  match s with
  | [] =>
      match skip with
      | O => match exec r [] with Some (w, _) => [w] | None => [] end
      | S _ => []
      end
  | c :: s' =>
      match skip with
      | S n => scan_matches r n s'
      | O =>
          match exec r s with
          | Some ([], _) => [] :: scan_matches r 0 s'
          | Some ((_ :: w') as w, _) => w :: scan_matches r (length w') s'
          | None => scan_matches r 0 s'
          end
      end
  end.

(** The scan seen as a list of pieces: the code units that it copies and
    the texts that it replaces. *)
Inductive piece : Type :=
| Copied (c : char16)
| Matched (w : jsstring).

Fixpoint scan_pieces (r : regex) (skip : nat) (s : jsstring) : list piece :=
  match s with
  | [] =>
      match skip with
      | O => match exec r [] with Some (w, _) => [Matched w] | None => [] end
      | S _ => []
      end
  | c :: s' =>
      match skip with
      | S n => scan_pieces r n s'
      | O =>
          match exec r s with
          | Some ([], _) => Matched [] :: Copied c :: scan_pieces r 0 s'
          | Some ((_ :: w') as w, _) =>
              Matched w :: scan_pieces r (length w') s'
          | None => Copied c :: scan_pieces r 0 s'
          end
      end
  end.

(** What a piece was in the input, and what it is in the output. *)
Definition piece_source (p : piece) : jsstring :=
  match p with
  | Copied c => [c]
  | Matched w => w
  end.

Definition piece_output (f : jsstring -> jsstring) (p : piece) : jsstring :=
  match p with
  | Copied c => [c]
  | Matched w => f w
  end.

(** *** What a pattern matches

    [matches r w rest]: the pattern [r] matches the text [w] when [rest]
    is what follows [w] in the input.  This is the meaning of the pattern
    without the order in which the matcher tries the alternatives. *)
Definition within (hi : option nat) (n : nat) : Prop :=
  match hi with
  | Some h => n <= h
  | None => True
  end.

Fixpoint matches (r : regex) (w rest : jsstring) : Prop :=
  match r with
  | REps => w = []
  | RChar p => exists c, w = [c] /\ p c = true
  | RSeq r1 r2 =>
      exists w1 w2,
        w = w1 ++ w2 /\ matches r1 w1 (w2 ++ rest) /\ matches r2 w2 rest
  | RRep p lo hi =>
      forallb p w = true /\ lo <= length w /\ within hi (length w)
  | REnd => w = [] /\ rest = []
  end.

(** No class of the pattern accepts the code unit [x]. *)
Fixpoint rejects (r : regex) (x : char16) : bool :=
  match r with
  | REps => true
  | RChar p => negb (p x)
  | RSeq r1 r2 => rejects r1 x && rejects r2 x
  | RRep p _ _ => negb (p x)
  | REnd => true
  end.

(** The pattern has no [$]. *)
Fixpoint end_free (r : regex) : bool :=
  match r with
  | REps => true
  | RChar _ => true
  | RSeq r1 r2 => end_free r1 && end_free r2
  | RRep _ _ _ => true
  | REnd => false
  end.

(** The pattern can match the empty text. *)
Fixpoint nullable (r : regex) : bool :=
  match r with
  | REps => true
  | RChar _ => false
  | RSeq r1 r2 => nullable r1 && nullable r2
  | RRep _ lo _ => Nat.eqb lo 0
  | REnd => true
  end.

(** Every class of the pattern gives one answer on two code units that
    [R] relates. *)
Fixpoint respects (R : char16 -> char16 -> Prop) (r : regex) : Prop :=
  match r with
  | REps => True
  | RChar p => forall c c', R c c' -> p c = p c'
  | RSeq r1 r2 => respects R r1 /\ respects R r2
  | RRep p _ _ => forall c c', R c c' -> p c = p c'
  | REnd => True
  end.

(** Two results of the matcher that stop at the same position. *)
Definition same_length (o o' : option jsstring) : Prop :=
  match o, o' with
  | Some x, Some x' => length x = length x'
  | None, None => True
  | _, _ => False
  end.

(** A result of the matcher, and a match, with [X] put after the rest. *)
Definition extend (X : jsstring) (o : option jsstring) : option jsstring :=
  option_map (fun y => y ++ X) o.

Definition extend_match (X : jsstring) (o : option (jsstring * jsstring))
  : option (jsstring * jsstring) :=
  option_map (fun wr => (fst wr, snd wr ++ X)) o.

(** The most code units that a match of the pattern can hold, for a pattern
    without [$] and without an unbounded quantifier. *)
Fixpoint max_length (r : regex) : option nat :=
  match r with
  | REps => Some 0
  | RChar _ => Some 1
  | RSeq r1 r2 =>
      match max_length r1, max_length r2 with
      | Some a, Some b => Some (a + b)
      | _, _ => None
      end
  | RRep _ _ hi => hi
  | REnd => None
  end.

End RegExp.
Import RegExp.

(* ================================================================= *)
(** ** The response formatter *)

Module Formatter.

(** [[^\s<>]] *)
Definition is_url_char (c : char16) : bool :=
  negb (is_white_space c || (c =? 60)%N || (c =? 62)%N).

(** [[.,!?)]] *)
Definition is_trailing_punct (c : char16) : bool :=
  (c =? 46)%N || (c =? 44)%N || (c =? 33)%N || (c =? 63)%N || (c =? 41)%N.

(** [/(https?:\/\/[^\s<>]+)/g] *)
Definition urlRegex : regex :=
  RSeq (lit (js "http"))
    (RSeq (RRep (N.eqb 115) 0 (Some 1))
       (RSeq (lit (js "://")) (RRep is_url_char 1 None))).

(** [/[.,!?)]*$/] *)
Definition trailingPunctRegex : regex :=
  RSeq (RRep is_trailing_punct 0 None) REnd.

Definition cleanUrl (url : jsstring) : jsstring :=
  replace_first trailingPunctRegex (fun _ => []) url.

(** The template literal of [linkify]. *)
Definition anchor (cleanUrl : jsstring) : jsstring :=
  js "<a href=" ++ [dq] ++ cleanUrl ++ [dq]
    ++ js " target=" ++ [dq] ++ js "_blank" ++ [dq]
    ++ js " class=" ++ [dq]
    ++ js "text-blue-600 underline hover:text-blue-700" ++ [dq]
    ++ js ">" ++ cleanUrl ++ js "</a>".

(** The fixed parts of the anchor, between the angle brackets and the
    double quotes that delimit them. *)
Definition anchorOpen : jsstring := js "<a href=".
Definition anchorMid : jsstring :=
  js " target=" ++ [dq] ++ js "_blank" ++ [dq]
    ++ js " class=" ++ [dq]
    ++ js "text-blue-600 underline hover:text-blue-700" ++ [dq].
Definition anchorClose : jsstring := js "/a".

Definition linkify (text : jsstring) : jsstring :=
  replace_global urlRegex (fun url => anchor (cleanUrl url)) text.

(** [/(\d{3,4}\s?\d{3,4}\s?\d{3,4})/g] *)
Definition phoneRegex : regex :=
  RSeq (RRep is_digit 3 (Some 4))
    (RSeq (RRep is_white_space 0 (Some 1))
       (RSeq (RRep is_digit 3 (Some 4))
          (RSeq (RRep is_white_space 0 (Some 1))
             (RRep is_digit 3 (Some 4))))).

(** [/(\d{1,2}:\d{2})/g] *)
Definition timeRegex : regex :=
  RSeq (RRep is_digit 1 (Some 2))
    (RSeq (RChar (N.eqb 58)) (RRep is_digit 2 (Some 2))).

(** [/pronto soccorso/gi] *)
Definition prontoSoccorsoRegex : regex := lit_ci (js "pronto soccorso").

(** [/CUP/g] *)
Definition cupRegex : regex := lit (js "CUP").

(** In both highlighting patterns the only capture group encloses the
    whole pattern, so that [$1] is the matched text. *)
Definition phoneSpan (g1 : jsstring) : jsstring :=
  js "<span class=" ++ [dq] ++ js "font-semibold text-blue-600" ++ [dq]
    ++ js ">" ++ g1 ++ js "</span>".

Definition timeSpan (g1 : jsstring) : jsstring :=
  js "<span class=" ++ [dq] ++ js "font-semibold" ++ [dq]
    ++ js ">" ++ g1 ++ js "</span>".

(** U+1F6A8 and U+1F4DE, as surrogate pairs. *)
Definition glyph_siren : jsstring := [55357; 57000]%N.
Definition glyph_phone : jsstring := [55357; 56542]%N.

Definition prontoSoccorsoText : jsstring := glyph_siren ++ js " Pronto Soccorso".
Definition cupText : jsstring := glyph_phone ++ js " CUP".

Definition highlightPhones (text : jsstring) : jsstring :=
  replace_global phoneRegex phoneSpan text.

Definition highlightTimes (text : jsstring) : jsstring :=
  replace_global timeRegex timeSpan text.

Definition annotateProntoSoccorso (text : jsstring) : jsstring :=
  replace_global prontoSoccorsoRegex (fun _ => prontoSoccorsoText) text.

Definition annotateCup (text : jsstring) : jsstring :=
  replace_global cupRegex (fun _ => cupText) text.

Definition formatResponse (text : jsstring) : jsstring :=
  let text := linkify text in
  let text := highlightPhones text in
  let text := highlightTimes text in
  let text := annotateProntoSoccorso text in
  let text := annotateCup text in
  text.

(** *** The shape of what the phone pattern highlights *)

(** Three or four digits. *)
Definition digit_group (g : jsstring) : bool :=
  forallb is_digit g && (3 <=? length g)%nat && (length g <=? 4)%nat.

(** Nothing, or one white space code unit: [\s?]. *)
Definition separator (s : jsstring) : bool :=
  match s with
  | [] => true
  | [c] => is_white_space c
  | _ :: _ :: _ => false
  end.

(** The shape read off the pattern: three groups of digits, with an
    optional white space code unit between them. *)
Definition phone_shape (w : jsstring) : Prop :=
  exists g1 s1 g2 s2 g3,
    w = g1 ++ s1 ++ g2 ++ s2 ++ g3
    /\ digit_group g1 = true /\ separator s1 = true
    /\ digit_group g2 = true /\ separator s2 = true
    /\ digit_group g3 = true.

(** The shape as the specification words it: 3-4 digits, a space,
    3-4 digits, a space, 3-4 digits. *)
Definition spec_phone_shape (w : jsstring) : Prop :=
  exists g1 g2 g3,
    w = g1 ++ [32%N] ++ g2 ++ [32%N] ++ g3
    /\ digit_group g1 = true /\ digit_group g2 = true
    /\ digit_group g3 = true.

Definition count_digits (s : jsstring) : nat :=
  length (filter is_digit s).

(** The canonical form of [pronto soccorso]: its first code unit does not
    come again. *)
Definition prontoSoccorsoCanon : jsstring :=
  [80; 82; 79; 78; 84; 79; 32; 83; 79; 67; 67; 79; 82; 83; 79]%N.

(** What a highlighted group can hold: digits, white space, a colon. *)
Definition is_group_char (c : char16) : bool :=
  is_digit c || is_white_space c || (c =? 58)%N.

(** The two keyword steps, one after the other. *)
Definition annotateKeywords (text : jsstring) : jsstring :=
  annotateCup (annotateProntoSoccorso text).

(** [w] is the keyword [kw] in some casing. *)
Definition same_casing (w kw : jsstring) : Prop :=
  List.map canonicalize w = List.map canonicalize kw.

(** A code unit of the same classes, as far as the phone pattern looks:
    [0] for a digit, a space for white space, [x] for the rest. *)
Definition classify (c : char16) : char16 :=
  if is_digit c then 48%N
  else if is_white_space c then 32%N
  else 120%N.

Definition same_phone_class (c c' : char16) : Prop :=
  is_digit c = is_digit c' /\ is_white_space c = is_white_space c'.

(** The shape read off the time pattern: one or two digits, a colon, two
    digits. *)
Definition time_shape (w : jsstring) : Prop :=
  exists h mm,
    w = h ++ [58%N] ++ mm
    /\ forallb is_digit h = true /\ 1 <= length h <= 2
    /\ forallb is_digit mm = true /\ length mm = 2.

(** An angle bracket. *)
Definition is_angle (c : char16) : bool := (c =? 60)%N || (c =? 62)%N.

(** An anchor element of the page, by the address that it opens and the
    text that it shows, with the attributes that the widget gives to its
    links.  It is written out apart from the template of [linkify], to be
    compared with what [anchor] builds. *)
Definition anchor_element (target text : jsstring) : jsstring :=
  js "<a href=" ++ [dq] ++ target ++ [dq]
    ++ js " target=" ++ [dq] ++ js "_blank" ++ [dq]
    ++ js " class=" ++ [dq]
    ++ js "text-blue-600 underline hover:text-blue-700" ++ [dq]
    ++ js ">" ++ text ++ js "</a>".

(** The steps of the formatter after [linkify], and those after the phone
    step. *)
Definition laterSteps (text : jsstring) : jsstring :=
  annotateCup (annotateProntoSoccorso (highlightTimes (highlightPhones text))).

Definition timesAndKeywords (text : jsstring) : jsstring :=
  annotateCup (annotateProntoSoccorso (highlightTimes text)).

(** None of the later patterns matches in the text: a URL of which this
    holds is written into its link as it is. *)
Definition link_safe (url : jsstring) : bool :=
  negb (matches_somewhere phoneRegex url)
  && negb (matches_somewhere timeRegex url)
  && negb (matches_somewhere prontoSoccorsoRegex url)
  && negb (matches_somewhere cupRegex url).

(** The pieces of a scan put together again: each matched text gives way to
    [wrap] of it, and each stretch of copied code units between two matches
    goes through [inner] on its own.  [run] holds the code units copied
    since the last match. *)
Fixpoint render (inner wrap : jsstring -> jsstring) (run : jsstring)
         (ps : list piece) : jsstring :=
  match ps with
  | [] => inner run
  | Copied c :: ps' => render inner wrap (run ++ [c]) ps'
  | Matched w :: ps' => inner run ++ wrap w ++ render inner wrap [] ps'
  end.

(** *** Representatives for the phone pattern

    The phone pattern tells digits, white space and the rest apart and
    nothing else, and a match holds fourteen code units at most: what it
    does on a text is what it does on the representatives of the first
    fourteen code units, and those are few enough to be run through. *)

Definition separator_repr (b : bool) : jsstring :=
  if b then [32%N] else [].

(** The representative of a text of the phone shape, by the lengths of its
    groups and by whether the separators are there. *)
Definition phone_repr (l1 : nat) (b1 : bool) (l2 : nat) (b2 : bool)
           (l3 : nat) : jsstring :=
  repeat 48%N l1 ++ separator_repr b1 ++ repeat 48%N l2
    ++ separator_repr b2 ++ repeat 48%N l3.

(** [P] holds of every text of [n] representatives at most. *)
Fixpoint all_texts (n : nat) (P : jsstring -> bool) : bool :=
  P []
  && match n with
     | O => true
     | S n' =>
         forallb (fun c => all_texts n' (fun t => P (c :: t)))
                 [48; 32; 120]%N
     end.

(** The same for the texts that do not start with a digit. *)
Definition all_followers (n : nat) (P : jsstring -> bool) : bool :=
  P []
  && match n with
     | O => true
     | S n' =>
         forallb (fun c => all_texts n' (fun t => P (c :: t))) [32; 120]%N
     end.

(** The matcher, run on [w] followed by [post], takes [w] and no more. *)
Definition phone_stops_at (w post : jsstring) : bool :=
  match m phoneRegex (w ++ post) Some with
  | Some rest => Nat.eqb (length rest) (length post)
  | None => false
  end.

Definition phone_check : bool :=
  forallb (fun l1 =>
  forallb (fun b1 =>
  forallb (fun l2 =>
  forallb (fun b2 =>
  forallb (fun l3 =>
    all_followers 5 (phone_stops_at (phone_repr l1 b1 l2 b2 l3)))
    [3; 4]) [false; true]) [3; 4]) [false; true]) [3; 4].

(** The representatives: a digit, a space, a letter. *)
Definition is_repr (c : char16) : Prop := c = 48%N \/ c = 32%N \/ c = 120%N.

End Formatter.
Import Formatter.

(* ================================================================= *)
(** ** The session: globals of app.js, the page and the platform *)

Module Session.

Inductive Severity : Type := success | error | warning | info.

(** An entry of [storicoDomande]. *)
Record Turn : Type := mkTurn {
  utente : jsstring;
  ai : jsstring;
  timestamp : jsstring
}.

(** The body of a request to [/api/ask]. *)
Record Request : Type := mkRequest {
  question : jsstring;
  history : list Turn;
  session_id : jsstring
}.

(** [data.suggerimenti], by what [chiedi] does with it: nothing when it is
    falsy or has no positive [length], [forEach] when it is an array, and a
    TypeError when it is anything else with a positive [length]. *)
Inductive Suggerimenti : Type :=
| SuggAbsent
| SuggArray (l : list jsstring)
| SuggNotArray.

(** [data.tempo_risposta]: falsy, a number, or a truthy value without
    [toFixed]. *)
Inductive TempoRisposta : Type :=
| TempoAbsent
| TempoNumber
| TempoNotNumber.

(** The parsed reply.  [risposta] is [None] when the payload holds no
    string under that key: [formatResponse] then throws a TypeError. *)
Record ReplyPayload : Type := mkReply {
  risposta : option jsstring;
  intent : option jsstring;
  suggerimenti : Suggerimenti;
  tempo_risposta : TempoRisposta;
  cached : bool
}.

(** What [response.json()] gives. *)
Inductive Body : Type :=
| BodyMalformed
| BodyJson (data : ReplyPayload).

(** What [fetch] gives: a rejection (server unreachable) or a response. *)
Inductive FetchOutcome : Type :=
| FetchRejected
| FetchResponse (status : N) (body : Body).

(** [response.ok] *)
Definition response_ok (status : N) : bool :=
  (200 <=? status)%N && (status <=? 299)%N.

(** The children of [#storico]. *)
Inductive Node : Type :=
| UserMsg (text : jsstring)
| TypingIndicator (id : nat)
| AiMsg (badge : option jsstring) (html : jsstring)
| SuggestionBox (l : list jsstring)
| MetricsBox
| ErrorMsg (html : jsstring).

Record State : Type := mkState {
  (* the globals *)
  storicoDomande : list Turn;
  voiceEnabled : bool;
  chatFontSize : Z;
  isListening : bool;
  sessionId : jsstring;
  (* the page *)
  domanda : jsstring;                          (* value of the input field *)
  storico : list Node;
  suggestedQuestionsShown : bool;
  statusBar : option jsstring;                 (* [None]: hidden *)
  voiceFeedbackShown : bool;
  notifications : list (jsstring * Severity);  (* shown so far *)
  fontSizeStyle : option Z;          (* [style.fontSize] of [#storico] and of
                                        [#domanda], in px; [None]: not set *)
  (* the platform *)
  requests : list Request;                     (* [fetch] calls so far *)
  utterances : list jsstring;                  (* [speechSynthesis.speak] calls *)
  recognitions : nat                           (* [recognition.start] calls *)
}.

Definition set_storicoDomande (v : list Turn) (st : State) : State :=
  mkState v (voiceEnabled st) (chatFontSize st) (isListening st)
    (sessionId st) (domanda st) (storico st) (suggestedQuestionsShown st)
    (statusBar st) (voiceFeedbackShown st) (notifications st)
    (fontSizeStyle st) (requests st)
    (utterances st) (recognitions st).

Definition set_voiceEnabled (v : bool) (st : State) : State :=
  mkState (storicoDomande st) v (chatFontSize st) (isListening st)
    (sessionId st) (domanda st) (storico st) (suggestedQuestionsShown st)
    (statusBar st) (voiceFeedbackShown st) (notifications st)
    (fontSizeStyle st) (requests st)
    (utterances st) (recognitions st).

Definition set_chatFontSize (v : Z) (st : State) : State :=
  mkState (storicoDomande st) (voiceEnabled st) v (isListening st)
    (sessionId st) (domanda st) (storico st) (suggestedQuestionsShown st)
    (statusBar st) (voiceFeedbackShown st) (notifications st)
    (fontSizeStyle st) (requests st)
    (utterances st) (recognitions st).

Definition set_isListening (v : bool) (st : State) : State :=
  mkState (storicoDomande st) (voiceEnabled st) (chatFontSize st) v
    (sessionId st) (domanda st) (storico st) (suggestedQuestionsShown st)
    (statusBar st) (voiceFeedbackShown st) (notifications st)
    (fontSizeStyle st) (requests st)
    (utterances st) (recognitions st).

Definition set_domanda (v : jsstring) (st : State) : State :=
  mkState (storicoDomande st) (voiceEnabled st) (chatFontSize st)
    (isListening st) (sessionId st) v (storico st)
    (suggestedQuestionsShown st) (statusBar st) (voiceFeedbackShown st)
    (notifications st)
    (fontSizeStyle st) (requests st) (utterances st) (recognitions st).

Definition set_storico (v : list Node) (st : State) : State :=
  mkState (storicoDomande st) (voiceEnabled st) (chatFontSize st)
    (isListening st) (sessionId st) (domanda st) v
    (suggestedQuestionsShown st) (statusBar st) (voiceFeedbackShown st)
    (notifications st)
    (fontSizeStyle st) (requests st) (utterances st) (recognitions st).

Definition set_suggestedQuestionsShown (v : bool) (st : State) : State :=
  mkState (storicoDomande st) (voiceEnabled st) (chatFontSize st)
    (isListening st) (sessionId st) (domanda st) (storico st) v
    (statusBar st) (voiceFeedbackShown st) (notifications st)
    (fontSizeStyle st) (requests st)
    (utterances st) (recognitions st).

Definition set_statusBar (v : option jsstring) (st : State) : State :=
  mkState (storicoDomande st) (voiceEnabled st) (chatFontSize st)
    (isListening st) (sessionId st) (domanda st) (storico st)
    (suggestedQuestionsShown st) v (voiceFeedbackShown st)
    (notifications st)
    (fontSizeStyle st) (requests st) (utterances st) (recognitions st).

Definition set_voiceFeedbackShown (v : bool) (st : State) : State :=
  mkState (storicoDomande st) (voiceEnabled st) (chatFontSize st)
    (isListening st) (sessionId st) (domanda st) (storico st)
    (suggestedQuestionsShown st) (statusBar st) v (notifications st)
    (fontSizeStyle st) (requests st) (utterances st) (recognitions st).

Definition set_notifications (v : list (jsstring * Severity)) (st : State)
  : State :=
  mkState (storicoDomande st) (voiceEnabled st) (chatFontSize st)
    (isListening st) (sessionId st) (domanda st) (storico st)
    (suggestedQuestionsShown st) (statusBar st) (voiceFeedbackShown st) v
    (fontSizeStyle st) (requests st) (utterances st) (recognitions st).

Definition set_fontSizeStyle (v : option Z) (st : State) : State :=
  mkState (storicoDomande st) (voiceEnabled st) (chatFontSize st)
    (isListening st) (sessionId st) (domanda st) (storico st)
    (suggestedQuestionsShown st) (statusBar st) (voiceFeedbackShown st)
    (notifications st) v (requests st) (utterances st) (recognitions st).

Definition set_requests (v : list Request) (st : State) : State :=
  mkState (storicoDomande st) (voiceEnabled st) (chatFontSize st)
    (isListening st) (sessionId st) (domanda st) (storico st)
    (suggestedQuestionsShown st) (statusBar st) (voiceFeedbackShown st)
    (notifications st) (fontSizeStyle st) v
    (utterances st) (recognitions st).

Definition set_utterances (v : list jsstring) (st : State) : State :=
  mkState (storicoDomande st) (voiceEnabled st) (chatFontSize st)
    (isListening st) (sessionId st) (domanda st) (storico st)
    (suggestedQuestionsShown st) (statusBar st) (voiceFeedbackShown st)
    (notifications st) (fontSizeStyle st) (requests st) v (recognitions st).

Definition set_recognitions (v : nat) (st : State) : State :=
  mkState (storicoDomande st) (voiceEnabled st) (chatFontSize st)
    (isListening st) (sessionId st) (domanda st) (storico st)
    (suggestedQuestionsShown st) (statusBar st) (voiceFeedbackShown st)
    (notifications st) (fontSizeStyle st) (requests st) (utterances st) v.

(** The state when the script has been loaded; the session id is drawn
    from the clock and the random generator. *)
Definition initial (sid : jsstring) : State :=
  mkState [] false 14%Z false sid [] [] true None false [] None [] [] 0.

(* --------------------------------------------------------------- *)
(** *** Statements that may throw *)

Inductive completion (A : Type) : Type :=
| Normal (a : A)
| Thrown.
Arguments Normal {A} a.
Arguments Thrown {A}.

Definition Js (A : Type) : Type := State -> completion A * State.

Definition ret {A} (a : A) : Js A := fun st => (Normal a, st).

Definition bind {A B} (c : Js A) (k : A -> Js B) : Js B :=
  fun st =>
    match c st with
    | (Normal a, st') => k a st'
    | (Thrown, st') => (Thrown, st')
    end.

Definition throw {A} : Js A := fun st => (Thrown, st).

Definition modify (f : State -> State) : Js unit :=
  fun st => (Normal tt, f st).

Definition get : Js State := fun st => (Normal st, st).

(** [try { body } catch (err) { handler }] *)
Definition try_catch (body : Js unit) (handler : Js unit) : Js unit :=
  fun st =>
    match body st with
    | (Normal tt, st') => (Normal tt, st')
    | (Thrown, st') => handler st'
    end.

Definition when (b : bool) (c : Js unit) : Js unit :=
  if b then c else ret tt.

Declare Scope js_scope.
Delimit Scope js_scope with js.
Notation "x <- c1 ;; c2" := (bind c1 (fun x => c2))
  (at level 61, c1 at next level, right associativity) : js_scope.
Notation "c1 ;; c2" := (bind c1 (fun _ => c2))
  (at level 61, right associativity) : js_scope.
Local Open Scope js_scope.

(** What the input field holds when the script has written [v] to its
    value.  [#domanda], which [chiedi] calls [domandaInput], is the
    single-line text field of the page, and such a field drops the line
    breaks of a string that is written to it. *)
Definition field_value (v : jsstring) : jsstring :=
  filter (fun c => negb (is_line_break c)) v.

(* --------------------------------------------------------------- *)
(** *** Notifications, status bar, voice output *)

Definition showNotification (message : jsstring) (type : Severity)
           (st : State) : State :=
  set_notifications (notifications st ++ [(message, type)]) st.

Definition showStatus (message : jsstring) (st : State) : State :=
  set_statusBar (Some message) st.

Definition hideStatus (st : State) : State :=
  set_statusBar None st.

(** Playback is recorded as the list of the texts spoken; the cancelling
    of the utterance in progress is not modelled. *)
Definition leggiVoce (testo : jsstring) (st : State) : State :=
  if negb (voiceEnabled st) then st
  else set_utterances (utterances st ++ [testo]) st.

Definition toggleVoiceOutput (st : State) : State :=
  let st := set_voiceEnabled (negb (voiceEnabled st)) st in
  if voiceEnabled st
  then showNotification (js "Lettura vocale attivata") success st
  else showNotification (js "Lettura vocale disattivata") info st.

(** The two font buttons.  Each writes the new size to the style of
    [#storico] and of [#domanda]. *)
Definition aumentaFontChat (st : State) : State :=
  if (chatFontSize st <? 20)%Z
  then
    let st := set_chatFontSize (chatFontSize st + 2)%Z st in
    set_fontSizeStyle (Some (chatFontSize st)) st
  else st.

Definition diminuisciFontChat (st : State) : State :=
  if (chatFontSize st >? 10)%Z
  then
    let st := set_chatFontSize (chatFontSize st - 2)%Z st in
    set_fontSizeStyle (Some (chatFontSize st)) st
  else st.

(* --------------------------------------------------------------- *)
(** *** The turn dispatcher *)

Definition appendChild (n : Node) (st : State) : State :=
  set_storico (storico st ++ [n]) st.

Definition is_typing (id : nat) (n : Node) : bool :=
  match n with
  | TypingIndicator j => Nat.eqb id j
  | _ => false
  end.

(** [typingDiv.remove()] *)
Definition removeTyping (id : nat) (st : State) : State :=
  set_storico (filter (fun n => negb (is_typing id n)) (storico st)) st.

(** [createAIMessage]: the reply is formatted, and prefixed with a badge
    when the intent is present and is not ['generale'] (the badge keeps the
    intent; the label table of [getIntentLabel] is not modelled). *)
Definition createAIMessage (data : ReplyPayload) : Js Node :=
  match risposta data with
  | None => throw
  | Some text =>
      let formattedResponse := formatResponse text in
      let badge :=
        match intent data with
        | Some ((_ :: _) as i) =>
            if list_eq_dec N.eq_dec i (js "generale") then None else Some i
        | _ => None
        end in
      ret (AiMsg badge formattedResponse)
  end.

(** [data.suggerimenti && data.suggerimenti.length > 0] *)
Definition has_suggerimenti (s : Suggerimenti) : bool :=
  match s with
  | SuggAbsent => false
  | SuggArray l => negb (Nat.eqb (length l) 0)
  | SuggNotArray => true
  end.

(** [showSuggestions]: [forEach] exists on arrays only. *)
Definition showSuggestions (s : Suggerimenti) : Js unit :=
  match s with
  | SuggArray l => modify (appendChild (SuggestionBox l))
  | SuggAbsent | SuggNotArray => throw
  end.

(** The truth value of [data.tempo_risposta]. *)
Definition has_tempo_risposta (t : TempoRisposta) : bool :=
  match t with
  | TempoAbsent => false
  | TempoNumber | TempoNotNumber => true
  end.

(** [showMetrics]: [toFixed] exists on numbers only. *)
Definition showMetrics (t : TempoRisposta) : Js unit :=
  match t with
  | TempoAbsent => ret tt
  | TempoNumber => modify (appendChild MetricsBox)
  | TempoNotNumber => throw
  end.

(** [storicoDomande.push(turn)] followed by the cap of ten entries. *)
Definition salvaNellaStoria (t : Turn) (st : State) : State :=
  let st := set_storicoDomande (storicoDomande st ++ [t]) st in
  if (10 <? length (storicoDomande st))%nat
  then set_storicoDomande (tl (storicoDomande st)) st
  else st.

(** The markup of the error message of the [catch] block. *)
Definition errorHtml : jsstring :=
  [10%N] ++ js "      <p class=" ++ [dq] ++ js "font-semibold" ++ [dq]
    ++ js ">" ++ [9888%N; 65039%N] ++ js " Errore di connessione</p>"
    ++ [10%N] ++ js "      <p class=" ++ [dq] ++ js "text-sm mt-1" ++ [dq]
    ++ js ">Non riesco a contattare il server. Riprova tra poco o chiama il centralino: 045 807 1111</p>"
    ++ [10%N] ++ js "    ".

(** A turn waiting for its reply: the question and the typing indicator
    that [chiedi] holds across the [await]. *)
Record Pending : Type := mkPending {
  pendingDomanda : jsstring;
  pendingTyping : nat
}.

(** [chiedi], up to the [await] of [fetch]. *)
Definition chiedi_start (st : State) : State * option Pending :=
  let domanda := trim (domanda st) in
  match domanda with
  | [] =>
      (showNotification (js "Per favore, scrivi una domanda") warning st,
       None)
  | _ :: _ =>
      let st := set_suggestedQuestionsShown false st in
      let st := appendChild (UserMsg domanda) st in
      (* the typing indicator is told apart by the number of the request *)
      let typingDiv := length (requests st) in
      let st := appendChild (TypingIndicator typingDiv) st in
      let st := showStatus (js "Sto elaborando la tua richiesta...") st in
      let st :=
        set_requests
          (requests st
             ++ [mkRequest domanda (storicoDomande st) (sessionId st)])
          st in
      (st, Some (mkPending domanda typingDiv))
  end.

(** The rest of the [try] block, run when [fetch] has settled.  The two
    [await]s of the source are taken together: nothing is read or written
    between them. *)
Definition chiedi_try (p : Pending) (o : FetchOutcome) (now : jsstring)
  : Js unit :=
  match o with
  | FetchRejected => throw
  | FetchResponse status body =>
      if negb (response_ok status) then throw
      else
        match body with
        | BodyMalformed => throw
        | BodyJson data =>
            modify (removeTyping (pendingTyping p)) ;;
            modify hideStatus ;;
            aiMsg <- createAIMessage data ;;
            modify (appendChild aiMsg) ;;
            when (has_suggerimenti (suggerimenti data))
                 (showSuggestions (suggerimenti data)) ;;
            when (has_tempo_risposta (tempo_risposta data))
                 (showMetrics (tempo_risposta data)) ;;
            match risposta data with
            | None => throw   (* not reached: [createAIMessage] has thrown *)
            | Some r =>
                modify (salvaNellaStoria (mkTurn (pendingDomanda p) r now)) ;;
                st <- get ;;
                when (voiceEnabled st) (modify (leggiVoce r)) ;;
                modify (set_domanda [])
            end
        end
  end.

(** The [catch] block. *)
Definition chiedi_catch (p : Pending) : Js unit :=
  modify (removeTyping (pendingTyping p)) ;;
  modify hideStatus ;;
  modify (appendChild (ErrorMsg errorHtml)).

(** [chiedi], from the [await] on. *)
Definition chiedi_resume (p : Pending) (o : FetchOutcome) (now : jsstring)
           (st : State) : State :=
  snd (try_catch (chiedi_try p o now) (chiedi_catch p) st).

(* --------------------------------------------------------------- *)
(** *** Voice capture *)

(** [attivaVoce]; [supported] tells whether the browser has
    [SpeechRecognition] or [webkitSpeechRecognition]. *)
Definition attivaVoce (supported : bool) (st : State) : State :=
  if negb supported then
    showNotification
      (js "Il tuo browser non supporta il riconoscimento vocale") error st
  else if isListening st then st
  else
    let st := set_voiceFeedbackShown true st in
    let st := set_isListening true st in
    set_recognitions (S (recognitions st)) st.

Definition onresult (transcript : jsstring) (isFinal : bool) (st : State)
  : State :=
  let st := set_domanda (field_value transcript) st in
  if isFinal
  then set_isListening false (set_voiceFeedbackShown false st)
  else st.

Definition onerror (err : jsstring) (st : State) : State :=
  let st := set_voiceFeedbackShown false st in
  let st := set_isListening false st in
  showNotification (js "Errore nel riconoscimento vocale: " ++ err) error st.

Definition onend (st : State) : State :=
  set_isListening false (set_voiceFeedbackShown false st).

(* --------------------------------------------------------------- *)
(** *** The event loop *)

(** What can happen to the widget.  A reply or a recognition event is not
    tied to the call that asked for it: the runs of the browser are among
    the event lists, and a property of all event lists holds of them. *)
Inductive Event : Type :=
| EvInput (text : jsstring)            (* the user edits the input field,
                                          which then holds [text] *)
| EvChiedi                             (* [chiedi()] *)
| EvQuickAsk (question : jsstring)     (* [quickAsk(question)] *)
| EvFetchDone (p : Pending) (o : FetchOutcome) (now : jsstring)
| EvAttivaVoce
| EvResult (transcript : jsstring) (isFinal : bool)
| EvError (err : jsstring)
| EvEnd
| EvToggleVoiceOutput
| EvAumentaFont
| EvDiminuisciFont.

Definition step (supported : bool) (st : State) (ev : Event) : State :=
  match ev with
  | EvInput text => set_domanda text st
  | EvChiedi => fst (chiedi_start st)
  | EvQuickAsk q => fst (chiedi_start (set_domanda (field_value q) st))
  | EvFetchDone p o now => chiedi_resume p o now st
  | EvAttivaVoce => attivaVoce supported st
  | EvResult t f => onresult t f st
  | EvError e => onerror e st
  | EvEnd => onend st
  | EvToggleVoiceOutput => toggleVoiceOutput st
  | EvAumentaFont => aumentaFontChat st
  | EvDiminuisciFont => diminuisciFontChat st
  end.

Definition run (supported : bool) (evs : list Event) (st : State) : State :=
  fold_left (step supported) evs st.

(** The reply lets the [try] block of [chiedi] run to its end. *)
Definition succeeds (o : FetchOutcome) : bool :=
  match o with
  | FetchRejected => false
  | FetchResponse status body =>
      response_ok status &&
      match body with
      | BodyMalformed => false
      | BodyJson data =>
          match risposta data, suggerimenti data, tempo_risposta data with
          | None, _, _ => false
          | _, SuggNotArray, _ => false
          | _, _, TempoNotNumber => false
          | Some _, _, _ => true
          end
      end
  end.

(** The turn that a reply adds to the history, if it adds one. *)
Definition turn_of (ev : Event) : option Turn :=
  match ev with
  | EvFetchDone p (FetchResponse _ (BodyJson data) as o) now =>
      if succeeds o
      then option_map (fun r => mkTurn (pendingDomanda p) r now)
                      (risposta data)
      else None
  | _ => None
  end.

Fixpoint turns_of (evs : list Event) : list Turn :=
  match evs with
  | [] => []
  | ev :: evs' =>
      match turn_of ev with
      | Some t => t :: turns_of evs'
      | None => turns_of evs'
      end
  end.

(** The last [n] elements of a list. *)
Definition lastn {A} (n : nat) (l : list A) : list A :=
  skipn (length l - n) l.

(** The cap of ten entries, on its own. *)
Definition cap10 (l : list Turn) : list Turn :=
  if (10 <? length l)%nat then tl l else l.

(** The number of replies of an event list that complete their turn. *)
Fixpoint successful_replies (evs : list Event) : nat :=
  match evs with
  | [] => 0
  | EvFetchDone _ o _ :: evs' =>
      (if succeeds o then 1 else 0) + successful_replies evs'
  | _ :: evs' => successful_replies evs'
  end.

Definition is_error (n : Node) : bool :=
  match n with
  | ErrorMsg _ => true
  | _ => false
  end.

(** The number of error messages in the chat. *)
Definition count_errors (l : list Node) : nat :=
  length (filter is_error l).

(** A turn from the question to the reply, with nothing in between: the
    text typed, what [fetch] gives, and the clock when the reply comes. *)
Record Submission : Type := mkSubmission {
  rawInput : jsstring;
  outcome : FetchOutcome;
  clock : jsstring
}.

Definition submitTurn (st : State) (s : Submission) : State :=
  match chiedi_start (set_domanda (rawInput s) st) with
  | (st1, Some p) => chiedi_resume p (outcome s) (clock s) st1
  | (st1, None) => st1
  end.

(** The turn that a submission adds to the history, if it adds one. *)
Definition submission_turn (s : Submission) : option Turn :=
  match trim (rawInput s) with
  | [] => None
  | _ :: _ =>
      turn_of (EvFetchDone (mkPending (trim (rawInput s)) 0) (outcome s)
                 (clock s))
  end.

Definition successful (s : Submission) : bool :=
  match submission_turn s with
  | Some _ => true
  | None => false
  end.

Fixpoint submission_turns (l : list Submission) : list Turn :=
  match l with
  | [] => []
  | s :: l' =>
      match submission_turn s with
      | Some t => t :: submission_turns l'
      | None => submission_turns l'
      end
  end.

(** The recognition events that end a capture session: a final result, an
    error, the end. *)
Definition is_terminal (ev : Event) : bool :=
  match ev with
  | EvResult _ true | EvError _ | EvEnd => true
  | _ => false
  end.

Definition terminal_events (evs : list Event) : nat :=
  length (filter is_terminal evs).

Definition is_toggle (ev : Event) : bool :=
  match ev with
  | EvToggleVoiceOutput => true
  | _ => false
  end.

(** What every request of a session is expected to carry. *)
Definition request_ok (sid : jsstring) (rq : Request) : Prop :=
  question rq <> []
  /\ is_trimmed (question rq) = true
  /\ session_id rq = sid
  /\ length (history rq) <= 10.

(** The typing indicators of the chat, by their numbers. *)
Fixpoint typing_ids (l : list Node) : list nat :=
  match l with
  | [] => []
  | TypingIndicator j :: l' => j :: typing_ids l'
  | _ :: l' => typing_ids l'
  end.

Definition is_typing_node (n : Node) : bool :=
  match n with
  | TypingIndicator _ => true
  | _ => false
  end.

(** What a successful reply adds to the chat after the message of the
    assistant: the suggestions when there are some, the metrics when the
    reply has a response time. *)
Definition reply_boxes (data : ReplyPayload) : list Node :=
  (match suggerimenti data with
   | SuggArray ((_ :: _) as l) => [SuggestionBox l]
   | _ => []
   end)
  ++ (match tempo_risposta data with
      | TempoNumber => [MetricsBox]
      | _ => []
      end).

(** The badge of [createAIMessage]. *)
Definition badge_of (data : ReplyPayload) : option jsstring :=
  match intent data with
  | Some ((_ :: _) as i) =>
      if list_eq_dec N.eq_dec i (js "generale") then None else Some i
  | _ => None
  end.

(** One when the widget is listening. *)
Definition listening_bit (st : State) : nat :=
  if isListening st then 1 else 0.

(** What the session keeps true of its requests: the session id is the one
    of the start, the history has at most ten turns, and every request sent
    is as expected. *)
Definition session_ok (sid : jsstring) (st : State) : Prop :=
  sessionId st = sid
  /\ length (storicoDomande st) <= 10
  /\ Forall (request_ok sid) (requests st).

(** The typing indicators are told apart by their numbers, which are
    numbers of requests sent. *)
Definition typing_ok (st : State) : Prop :=
  NoDup (typing_ids (storico st))
  /\ Forall (fun j => j < length (requests st)) (typing_ids (storico st)).

(** What is expected of a turn of the history: its question is not empty,
    is trimmed, and is the question of a request sent. *)
Definition stored_ok (st : State) (t : Turn) : Prop :=
  utente t <> []
  /\ is_trimmed (utente t) = true
  /\ In (utente t) (List.map question (requests st)).

(** No request has been sent. *)
Definition no_request_yet (st : State) : bool :=
  match requests st with
  | [] => true
  | _ :: _ => false
  end.

(** The events that the speech recognition raises. *)
Definition is_recognition (ev : Event) : bool :=
  match ev with
  | EvResult _ _ | EvError _ | EvEnd => true
  | _ => false
  end.

(** An event with the capture session that raises it, when it is an event
    of the speech recognition.  Each call of [attivaVoce] that gets as far as
    [recognition.start()] makes a recognition object of its own, with its own
    three handlers; the capture sessions are numbered from 0 in the order of
    those calls. *)
Inductive SessionEvent : Type :=
| ByUser (ev : Event)
| ByCapture (session : nat) (ev : Event).

Definition untag (e : SessionEvent) : Event :=
  match e with
  | ByUser ev => ev
  | ByCapture _ ev => ev
  end.

(** The widget together with the capture sessions: [open] holds the sessions
    that have been started and have raised no terminal event (a final
    result, an error, the end), [ended] those whose [end] event has come. *)
Record Captures : Type := mkCaptures {
  widget : State;
  open : list nat;
  ended : list nat
}.

Definition is_end (ev : Event) : bool :=
  match ev with
  | EvEnd => true
  | _ => false
  end.

Definition capture_step (supported : bool) (c : Captures) (e : SessionEvent)
  : Captures :=
  let st' := step supported (widget c) (untag e) in
  match e with
  | ByUser _ =>
      (* a call of [recognition.start()] opens the next session *)
      mkCaptures st'
        (if recognitions (widget c) <? recognitions st'
         then open c ++ [recognitions (widget c)]
         else open c)
        (ended c)
  | ByCapture k ev =>
      mkCaptures st'
        (if is_terminal ev
         then filter (fun j => negb (Nat.eqb k j)) (open c)
         else open c)
        (if is_end ev then k :: ended c else ended c)
  end.

Definition captures (supported : bool) (evs : list SessionEvent)
           (c : Captures) : Captures :=
  fold_left (capture_step supported) evs c.

Definition no_captures (sid : jsstring) : Captures :=
  mkCaptures (initial sid) [] [].

(** What the platform can do: the events of the recognition come from
    capture sessions that have been started and have not ended, and from
    nowhere else. *)
Fixpoint platform_ok (supported : bool) (evs : list SessionEvent)
         (c : Captures) : bool :=
  match evs with
  | [] => true
  | e :: evs' =>
      match e with
      | ByUser ev => negb (is_recognition ev)
      | ByCapture k ev =>
          is_recognition ev
          && (k <? recognitions (widget c))
          && negb (existsb (Nat.eqb k) (ended c))
      end
      && platform_ok supported evs' (capture_step supported c e)
  end.

(** No capture session raises a second terminal event while another
    session is open. *)
Fixpoint no_stale_terminal (supported : bool) (evs : list SessionEvent)
         (c : Captures) : bool :=
  match evs with
  | [] => true
  | e :: evs' =>
      match e with
      | ByUser _ => true
      | ByCapture k ev =>
          negb (is_terminal ev)
          || existsb (Nat.eqb k) (open c)
          || match open c with [] => true | _ :: _ => false end
      end
      && no_stale_terminal supported evs' (capture_step supported c e)
  end.

(** At most the last capture session is open, and it is open exactly while
    the flag is set. *)
Definition one_capture (c : Captures) : Prop :=
  open c = (if isListening (widget c)
            then [pred (recognitions (widget c))]
            else [])
  /\ (isListening (widget c) = true -> 0 < recognitions (widget c)).

(** Sample values, for the examples. *)
Definition sample_session : State := initial (js "session_1_a").
Definition sample_typed : State := set_domanda (js "orari") sample_session.
Definition sample_blank : State := set_domanda [32; 9; 160]%N sample_session.
Definition sample_pending : Pending := mkPending (js "orari") 0.
Definition sample_reply : FetchOutcome :=
  FetchResponse 200
    (BodyJson (mkReply (Some (js "8:00")) None SuggAbsent TempoAbsent false)).
Definition sample_unavailable : FetchOutcome := FetchResponse 503 BodyMalformed.
Definition sample_submission (n : N) : Submission :=
  mkSubmission (js " domanda " ++ [48 + n]%N)
    (FetchResponse 200
       (BodyJson (mkReply (Some (js "risposta " ++ [48 + n]%N)) None
                          SuggAbsent TempoAbsent false)))
    (js "2024-01-01T00:00:0" ++ [48 + n]%N).
Definition sample_eleven : list Submission :=
  List.map sample_submission [0; 1; 2; 3; 4; 5; 6; 7; 8; 9; 0]%N.

(** The first session gives its final result, the microphone is pressed
    again, the first session ends, the microphone is pressed once more. *)
Definition sample_stale_end : list SessionEvent :=
  [ByUser EvAttivaVoce; ByCapture 0 (EvResult (js "orari") true);
   ByUser EvAttivaVoce; ByCapture 0 EvEnd; ByUser EvAttivaVoce].

End Session.
Import Session.

(* ================================================================= *)
(** * Properties *)

(* ================================================================= *)
(** ** The turn dispatcher *)

Section Dispatcher.

Arguments formatResponse : simpl never.

(** Case analysis on a reply, by what [chiedi] looks at. *)
Ltac reply_cases o st :=
  let status := fresh "status" in
  let body := fresh "body" in
  let ok := fresh "Hok" in
  destruct o as [|status body];
  [| destruct (response_ok status) eqn:ok;
     [ destruct body as [|[[r|] i [|[|s0 l]|] [| |] c]] | ] ];
  destruct st as [h ve fs li sid inp nodes sq sb vf ns fz rq ut rc];
  unfold chiedi_resume, try_catch, chiedi_try, chiedi_catch, bind, modify,
    get, when, throw, ret, createAIMessage, showSuggestions, showMetrics,
    succeeds, salvaNellaStoria, leggiVoce, cap10;
  simpl; rewrite ?ok; simpl;
  repeat match goal with
         | |- context [if ?b then _ else _] => destruct b eqn:?; simpl
         end.

Lemma storicoDomande_resume p o now st :
  storicoDomande (chiedi_resume p o now st)
  = match turn_of (EvFetchDone p o now) with
    | Some t => cap10 (storicoDomande st ++ [t])
    | None => storicoDomande st
    end.
Proof.
  reply_cases o st; reflexivity.
Qed.

Lemma storicoDomande_chiedi_start st :
  storicoDomande (fst (chiedi_start st)) = storicoDomande st.
Proof.
  unfold chiedi_start. destruct (trim (domanda st)); reflexivity.
Qed.

Lemma storicoDomande_step supported st ev :
  storicoDomande (step supported st ev)
  = match turn_of ev with
    | Some t => cap10 (storicoDomande st ++ [t])
    | None => storicoDomande st
    end.
Proof.
  destruct ev; try reflexivity.
  - apply storicoDomande_chiedi_start.
  - simpl. rewrite storicoDomande_chiedi_start. reflexivity.
  - apply storicoDomande_resume.
  - simpl. unfold attivaVoce.
    destruct supported; simpl; [destruct (isListening st)|]; reflexivity.
  - simpl. unfold onresult. destruct isFinal; reflexivity.
  - simpl. unfold toggleVoiceOutput. simpl.
    destruct (negb (voiceEnabled st)); reflexivity.
  - simpl. unfold aumentaFontChat.
    destruct (chatFontSize st <? 20)%Z; reflexivity.
  - simpl. unfold diminuisciFontChat.
    destruct (chatFontSize st >? 10)%Z; reflexivity.
Qed.

Lemma lastn_short {A} n (l : list A) : length l <= n -> lastn n l = l.
Proof.
  intros H. unfold lastn.
  replace (length l - n) with 0 by lia. reflexivity.
Qed.

Lemma length_lastn {A} n (l : list A) :
  length (lastn n l) = Nat.min (length l) n.
Proof. unfold lastn. rewrite length_skipn. lia. Qed.

Lemma tl_skipn {A} : forall n (l : list A), tl (skipn n l) = skipn (S n) l.
Proof.
  induction n as [|n IH]; intros [|x l]; try reflexivity.
  simpl. rewrite IH. destruct l; reflexivity.
Qed.

(** Pushing onto the last ten turns and cutting at ten gives the last ten
    turns of the longer list. *)
Lemma cap10_lastn (H : list Turn) (t : Turn) :
  cap10 (lastn 10 H ++ [t]) = lastn 10 (H ++ [t]).
Proof.
  unfold cap10.
  rewrite length_app, length_lastn. simpl.
  destruct (Nat.le_gt_cases 10 (length H)) as [Hge|Hlt].
  - replace (10 <? Nat.min (length H) 10 + 1) with true
      by (symmetry; apply Nat.ltb_lt; lia).
    unfold lastn. rewrite length_app. simpl.
    replace (length H + 1 - 10) with (S (length H - 10)) by lia.
    rewrite <- tl_skipn.
    rewrite (skipn_app (length H - 10) H [t]).
    replace (length H - 10 - length H) with 0 by lia. reflexivity.
  - replace (10 <? Nat.min (length H) 10 + 1) with false
      by (symmetry; apply Nat.ltb_ge; lia).
    rewrite (lastn_short 10 H) by lia.
    rewrite lastn_short; [reflexivity|].
    rewrite length_app. simpl. lia.
Qed.

Lemma run_history supported evs : forall st H,
  storicoDomande st = lastn 10 H ->
  storicoDomande (run supported evs st) = lastn 10 (H ++ turns_of evs).
Proof.
  induction evs as [|ev evs IH]; intros st H Hst; simpl.
  - rewrite app_nil_r. exact Hst.
  - rewrite (IH (step supported st ev)
               (H ++ match turn_of ev with Some t => [t] | None => [] end)).
    + destruct (turn_of ev); rewrite <- app_assoc; reflexivity.
    + rewrite storicoDomande_step.
      destruct (turn_of ev) as [t|].
      * rewrite Hst. apply cap10_lastn.
      * rewrite app_nil_r. exact Hst.
Qed.

Lemma length_turns_of evs : length (turns_of evs) = successful_replies evs.
Proof.
  induction evs as [|ev evs IH]; [reflexivity|].
  destruct ev; simpl; try exact IH.
  destruct o as [|status [|data]]; simpl; try exact IH.
  - rewrite andb_false_r. exact IH.
  - destruct (response_ok status); simpl; [|exact IH].
    destruct data as [[r|] i sg t c]; simpl; [|exact IH].
    destruct sg; destruct t; simpl; rewrite ?IH; reflexivity.
Qed.

Lemma storicoDomande_submitTurn st s :
  storicoDomande (submitTurn st s)
  = match submission_turn s with
    | Some t => cap10 (storicoDomande st ++ [t])
    | None => storicoDomande st
    end.
Proof.
  unfold submitTurn, submission_turn, chiedi_start.
  cbn [domanda set_domanda].
  destruct (trim (rawInput s)) as [|c d]; [reflexivity|].
  rewrite storicoDomande_resume. reflexivity.
Qed.

Lemma submissions_history subs : forall st H,
  storicoDomande st = lastn 10 H ->
  storicoDomande (fold_left submitTurn subs st)
  = lastn 10 (H ++ submission_turns subs).
Proof.
  induction subs as [|s subs IH]; intros st H Hst; simpl.
  - rewrite app_nil_r. exact Hst.
  - rewrite (IH (submitTurn st s)
               (H ++ match submission_turn s with
                     | Some t => [t]
                     | None => []
                     end)).
    + destruct (submission_turn s); rewrite <- app_assoc; reflexivity.
    + rewrite storicoDomande_submitTurn.
      destruct (submission_turn s) as [t|].
      * rewrite Hst. apply cap10_lastn.
      * rewrite app_nil_r. exact Hst.
Qed.

Lemma length_submission_turns subs :
  forallb successful subs = true ->
  length (submission_turns subs) = length subs.
Proof.
  induction subs as [|s subs IH]; [reflexivity|].
  simpl. unfold successful at 1.
  destruct (submission_turn s); [|discriminate].
  simpl. intros H. rewrite (IH H). reflexivity.
Qed.

(** C1.  After any events (submissions and replies in any interleaving),
    the history holds the last ten of the turns whose replies succeeded, in
    the order of their replies: its length is the least of ten and the
    number of successful turns, never above ten, and the oldest turn is the
    one dropped.  In particular, after a sequence of successful submissions
    the length of the history is the least of ten and their number. *)
Theorem history_holds_last_ten_turns :
  (forall (supported : bool) (sid : jsstring) (evs : list Event),
     let st := run supported evs (initial sid) in
     storicoDomande st = lastn 10 (turns_of evs)
     /\ length (storicoDomande st) = Nat.min (successful_replies evs) 10
     /\ length (storicoDomande st) <= 10)
  /\ (forall (sid : jsstring) (subs : list Submission),
        forallb successful subs = true ->
        let st := fold_left submitTurn subs (initial sid) in
        storicoDomande st = lastn 10 (submission_turns subs)
        /\ length (storicoDomande st) = Nat.min (length subs) 10).
Proof.
  split.
  - intros supported sid evs st.
    assert (Hst : storicoDomande st = lastn 10 (turns_of evs)).
    { unfold st. rewrite (run_history supported evs (initial sid) []);
        reflexivity. }
    split; [exact Hst|].
    rewrite Hst, length_lastn, length_turns_of. split; lia.
  - intros sid subs Hall st.
    assert (Hst : storicoDomande st = lastn 10 (submission_turns subs)).
    { unfold st. rewrite (submissions_history subs (initial sid) []);
        reflexivity. }
    split; [exact Hst|].
    rewrite Hst, length_lastn, (length_submission_turns subs Hall).
    reflexivity.
Qed.

(** C1, witness: eleven successful submissions leave ten turns, and the
    first one is the one dropped. *)
Lemma history_holds_last_ten_turns_witness :
  forallb successful sample_eleven = true
  /\ length (storicoDomande
               (fold_left submitTurn sample_eleven sample_session)) = 10
  /\ List.map utente
       (storicoDomande (fold_left submitTurn sample_eleven sample_session))
     = List.map (fun n => js "domanda " ++ [48 + n]%N)
         [1; 2; 3; 4; 5; 6; 7; 8; 9; 0]%N.
Proof.
  split; [vm_compute; reflexivity|].
  destruct (proj2 history_holds_last_ten_turns (js "session_1_a")
              sample_eleven eq_refl) as [Hst Hlen].
  split.
  - exact Hlen.
  - unfold sample_session. rewrite Hst. vm_compute. reflexivity.
Defined.

Lemma count_errors_app l l' :
  count_errors (l ++ l') = count_errors l + count_errors l'.
Proof. unfold count_errors. rewrite filter_app, length_app. reflexivity. Qed.

Lemma count_errors_removeTyping id l :
  count_errors (filter (fun n => negb (is_typing id n)) l) = count_errors l.
Proof.
  unfold count_errors.
  induction l as [|n l IH]; [reflexivity|].
  destruct n; simpl; try destruct (Nat.eqb id id0); simpl;
    rewrite ?IH; reflexivity.
Qed.

Lemma count_errors_one n :
  count_errors [n] = if is_error n then 1 else 0.
Proof. unfold count_errors. simpl. destruct (is_error n); reflexivity. Qed.

(** What a failed turn does to the state. *)
Lemma resume_failure p o now st :
  succeeds o = false ->
  let st' := chiedi_resume p o now st in
  storicoDomande st' = storicoDomande st
  /\ requests st' = requests st
  /\ notifications st' = notifications st
  /\ domanda st' = domanda st
  /\ sessionId st' = sessionId st
  /\ count_errors (storico st') = S (count_errors (storico st))
  /\ exists before, storico st' = before ++ [ErrorMsg errorHtml].
Proof.
  revert st. reply_cases o st; intros Hs; try discriminate Hs;
    repeat (split; [reflexivity|]);
    (split; [| eexists; reflexivity]);
    repeat (rewrite ?count_errors_app, ?count_errors_removeTyping,
                    ?count_errors_one; simpl);
    lia.
Qed.

Lemma resume_success p o now st :
  succeeds o = true ->
  domanda (chiedi_resume p o now st) = []
  /\ requests (chiedi_resume p o now st) = requests st
  /\ exists t, turn_of (EvFetchDone p o now) = Some t
               /\ utente t = pendingDomanda p.
Proof.
  revert st. reply_cases o st; intros Hs; try discriminate Hs;
    repeat (split; [reflexivity|]); eexists; split; reflexivity.
Qed.

(** C2 (as amended).  [chiedi] does not touch the input field before the
    reply has arrived; it empties the field when the turn succeeds, and
    leaves it as it is when the turn fails. *)
Theorem input_cleared_after_success_only :
  forall (st : State) (p : Pending) (o : FetchOutcome) (now : jsstring),
    domanda (fst (chiedi_start st)) = domanda st
    /\ (succeeds o = true -> domanda (chiedi_resume p o now st) = [])
    /\ (succeeds o = false ->
        domanda (chiedi_resume p o now st) = domanda st).
Proof.
  intros st p o now. split; [|split].
  - unfold chiedi_start. destruct (trim (domanda st)); reflexivity.
  - intros Hs. apply (resume_success p o now st Hs).
  - intros Hs. apply (resume_failure p o now st Hs).
Qed.

(** C2, witness: a successful reply empties the field, a rejected request
    keeps what the user has typed. *)
Lemma input_cleared_after_success_only_witness :
  succeeds sample_reply = true
  /\ succeeds FetchRejected = false
  /\ domanda (chiedi_resume sample_pending sample_reply (js "t") sample_typed)
     = []
  /\ domanda (chiedi_resume sample_pending FetchRejected (js "t") sample_typed)
     = domanda sample_typed.
Proof.
  split; [reflexivity|]. split; [reflexivity|]. split.
  - apply (proj1 (proj2 (input_cleared_after_success_only
                           sample_typed sample_pending sample_reply
                           (js "t")))).
    reflexivity.
  - apply (proj2 (proj2 (input_cleared_after_success_only
                           sample_typed sample_pending FetchRejected
                           (js "t")))).
    reflexivity.
Defined.

(** C2, counterexample: the request is rejected and the input field still
    holds the question, so that the field is not emptied on both paths. *)
Lemma input_not_cleared_on_failure :
  domanda (chiedi_resume sample_pending FetchRejected (js "t") sample_typed)
  = js "orari"
  /\ ~ (forall st p o now, domanda (chiedi_resume p o now st) = []).
Proof.
  split; [reflexivity|].
  intros H.
  specialize (H sample_typed sample_pending FetchRejected (js "t")).
  discriminate H.
Qed.

Lemma chiedi_start_nonblank st st2 p2 :
  chiedi_start st = (st2, Some p2) ->
  pendingDomanda p2 = trim (domanda st)
  /\ storicoDomande st2 = storicoDomande st
  /\ requests st2
     = requests st
         ++ [mkRequest (trim (domanda st)) (storicoDomande st) (sessionId st)].
Proof.
  unfold chiedi_start. destruct (trim (domanda st)) as [|c d] eqn:Ht.
  - discriminate.
  - intros H. injection H as H1 H2. subst st2 p2. simpl.
    repeat split; reflexivity.
Qed.

(** When the turn is over, the status bar is hidden. *)
Lemma statusBar_resume p o now st :
  statusBar (chiedi_resume p o now st) = None.
Proof. reply_cases o st; reflexivity. Qed.

(** C4.  When the turn fails (the request is rejected, the status is not
    2xx, the body is not JSON or the payload makes the rendering throw),
    the history is as it was, no request is issued again, the one thing
    shown is the error message, which tells the user to call the
    switchboard, and the status bar is hidden.  The widget then takes the
    next question: whatever is typed, unless it is blank, is sent with the
    unchanged history, and when its reply succeeds it is added to the
    history and the input field is emptied. *)
Theorem failed_turn_leaves_history :
  forall (p : Pending) (o : FetchOutcome) (now : jsstring) (st : State),
    succeeds o = false ->
    let st' := chiedi_resume p o now st in
    storicoDomande st' = storicoDomande st
    /\ requests st' = requests st
    /\ notifications st' = notifications st
    /\ count_errors (storico st') = S (count_errors (storico st))
    /\ (exists before, storico st' = before ++ [ErrorMsg errorHtml])
    /\ includes errorHtml (js "chiama il centralino: 045 807 1111") = true
    /\ statusBar st' = None
    /\ forall raw : jsstring,
         trim raw <> [] ->
         exists st2 p2,
           chiedi_start (set_domanda raw st') = (st2, Some p2)
           /\ pendingDomanda p2 = trim raw
           /\ requests st2
              = requests st
                  ++ [mkRequest (trim raw) (storicoDomande st) (sessionId st)]
           /\ forall o2 now2,
                succeeds o2 = true ->
                exists t,
                  turn_of (EvFetchDone p2 o2 now2) = Some t
                  /\ utente t = trim raw
                  /\ storicoDomande (chiedi_resume p2 o2 now2 st2)
                     = cap10 (storicoDomande st ++ [t])
                  /\ domanda (chiedi_resume p2 o2 now2 st2) = [].
Proof.
  intros p o now st Hs st'.
  destruct (resume_failure p o now st Hs)
    as (Hh & Hr & Hn & _ & Hsid & Hc & Hb).
  fold st' in Hh, Hr, Hn, Hsid, Hc, Hb.
  repeat (split; [assumption|]).
  split; [vm_compute; reflexivity|].
  split; [apply statusBar_resume|].
  intros raw Hraw.
  destruct (chiedi_start (set_domanda raw st')) as [st2 [p2|]] eqn:Hstart.
  - exists st2, p2.
    destruct (chiedi_start_nonblank _ _ _ Hstart) as (Hp2 & Hh2 & Hr2).
    simpl in Hp2, Hh2, Hr2.
    rewrite Hh, Hr, Hsid in *.
    split; [reflexivity|]. split; [exact Hp2|]. split; [exact Hr2|].
    intros o2 now2 Hs2.
    destruct (resume_success p2 o2 now2 st2 Hs2) as (Hd & _ & t & Ht & Hu).
    exists t. split; [exact Ht|]. split; [congruence|].
    split; [|exact Hd].
    rewrite storicoDomande_resume, Ht, Hh2. reflexivity.
  - exfalso. revert Hstart. unfold chiedi_start.
    cbn [domanda set_domanda].
    destruct (trim raw); [contradiction|discriminate].
Qed.

(** C4, witness: a reply with status 503, and the question that is asked
    after it. *)
Lemma failed_turn_leaves_history_witness :
  succeeds sample_unavailable = false
  /\ storicoDomande
       (chiedi_resume sample_pending sample_unavailable (js "t") sample_typed)
     = storicoDomande sample_typed
  /\ count_errors
       (storico
          (chiedi_resume sample_pending sample_unavailable (js "t")
             sample_typed))
     = 1
  /\ exists st2 p2,
       chiedi_start
         (set_domanda (js " cup ")
            (chiedi_resume sample_pending sample_unavailable (js "t")
               sample_typed))
       = (st2, Some p2)
       /\ pendingDomanda p2 = trim (js " cup ")
       /\ requests st2
          = requests sample_typed
              ++ [mkRequest (trim (js " cup ")) (storicoDomande sample_typed)
                            (sessionId sample_typed)]
       /\ storicoDomande (chiedi_resume p2 sample_reply (js "t2") st2)
          = [mkTurn (js "cup") (js "8:00") (js "t2")].
Proof.
  pose proof (failed_turn_leaves_history sample_pending sample_unavailable
                (js "t") sample_typed eq_refl) as H.
  cbv zeta in H.
  destruct H as (H1 & _ & _ & H4 & _ & _ & _ & H8).
  split; [reflexivity|].
  split; [exact H1|].
  split; [exact H4|].
  destruct (H8 (js " cup ")) as (st2 & p2 & Hstart & Hp & Hr & Hnext).
  { discriminate. }
  exists st2, p2.
  split; [exact Hstart|]. split; [exact Hp|]. split; [exact Hr|].
  destruct (Hnext sample_reply (js "t2") eq_refl) as (t & Ht & Hu & Hh & _).
  rewrite Hh.
  assert (Heq : t = mkTurn (js "cup") (js "8:00") (js "t2")).
  { simpl in Ht. injection Ht as <-. rewrite Hp. reflexivity. }
  rewrite Heq. reflexivity.
Defined.

Lemma dropWhile_all p s : forallb p s = true -> dropWhile p s = [].
Proof.
  induction s as [|c s IH]; simpl; [reflexivity|].
  destruct (p c); simpl; [exact IH|discriminate].
Qed.

(** A string of white space only is empty once trimmed. *)
Lemma trim_white_space s : forallb is_white_space s = true -> trim s = [].
Proof.
  intros H. unfold trim. rewrite (dropWhile_all _ s H). reflexivity.
Qed.

(** C5.  When the input field is empty or holds white space only, [chiedi]
    shows one warning and returns: nothing is left waiting for a reply, no
    request is issued and the history is not changed. *)
Theorem blank_input_is_refused :
  forall (st : State),
    forallb is_white_space (domanda st) = true ->
    chiedi_start st
    = (showNotification (js "Per favore, scrivi una domanda") warning st,
       None)
    /\ notifications (fst (chiedi_start st))
       = notifications st
           ++ [(js "Per favore, scrivi una domanda", warning)]
    /\ requests (fst (chiedi_start st)) = requests st
    /\ storicoDomande (fst (chiedi_start st)) = storicoDomande st
    /\ storico (fst (chiedi_start st)) = storico st.
Proof.
  intros st H. unfold chiedi_start.
  rewrite (trim_white_space _ H). simpl. repeat split; reflexivity.
Qed.

(** C5, witness: a space, a tab and a no-break space. *)
Lemma blank_input_is_refused_witness :
  forallb is_white_space (domanda sample_blank) = true
  /\ snd (chiedi_start sample_blank) = None
  /\ requests (fst (chiedi_start sample_blank)) = [].
Proof.
  pose proof (blank_input_is_refused sample_blank eq_refl) as H.
  split; [reflexivity|]. split.
  - rewrite (proj1 H). reflexivity.
  - rewrite (proj1 (proj2 (proj2 H))). reflexivity.
Defined.

End Dispatcher.

(* ================================================================= *)
(** ** Voice capture *)

Section VoiceCapture.

Arguments formatResponse : simpl never.

Lemma isListening_chiedi_start st :
  isListening (fst (chiedi_start st)) = isListening st.
Proof.
  unfold chiedi_start. destruct (trim (domanda st)); reflexivity.
Qed.

Ltac resume_keeps o st :=
  let status := fresh "status" in
  let body := fresh "body" in
  destruct o as [|status body]; [reflexivity|];
  unfold chiedi_resume, try_catch, chiedi_try;
  destruct (response_ok status); [|reflexivity];
  destruct body as [|[[r|] i sg t c]]; try reflexivity;
  destruct st as [h ve fs li sid inp nodes sq sb vf ns fz rq ut rc];
  unfold bind, modify, get, when, throw, ret, createAIMessage,
    showSuggestions, showMetrics, salvaNellaStoria, leggiVoce;
  destruct sg as [|[|s0 l]|]; destruct t; simpl;
  repeat match goal with
         | |- context [if ?b then _ else _] => destruct b; simpl
         end;
  reflexivity.

Lemma isListening_resume p o now st :
  isListening (chiedi_resume p o now st) = isListening st.
Proof. resume_keeps o st. Qed.

Lemma recognitions_resume p o now st :
  recognitions (chiedi_resume p o now st) = recognitions st.
Proof. resume_keeps o st. Qed.

Lemma recognitions_chiedi_start st :
  recognitions (fst (chiedi_start st)) = recognitions st.
Proof.
  unfold chiedi_start. destruct (trim (domanda st)); reflexivity.
Qed.

(** Without speech recognition no capture session is ever started. *)
Lemma recognitions_unsupported evs : forall st,
  recognitions (run false evs st) = recognitions st.
Proof.
  induction evs as [|ev evs IH]; intros st; simpl; [reflexivity|].
  rewrite IH.
  destruct ev; simpl; try reflexivity.
  - apply recognitions_chiedi_start.
  - rewrite recognitions_chiedi_start. reflexivity.
  - apply recognitions_resume.
  - unfold onresult. destruct isFinal; reflexivity.
  - unfold toggleVoiceOutput. simpl.
    destruct (negb (voiceEnabled st)); reflexivity.
  - unfold aumentaFontChat.
    destruct (chatFontSize st <? 20)%Z; reflexivity.
  - unfold diminuisciFontChat.
    destruct (chatFontSize st >? 10)%Z; reflexivity.
Qed.

(** The flag is raised by [attivaVoce] only, and only in a browser that
    has speech recognition. *)
Lemma listening_needs_support supported ev st :
  (isListening st = true -> supported = true) ->
  isListening (step supported st ev) = true -> supported = true.
Proof.
  intros Hst.
  destruct ev; simpl; try exact Hst.
  - rewrite isListening_chiedi_start. exact Hst.
  - rewrite isListening_chiedi_start. exact Hst.
  - rewrite isListening_resume. exact Hst.
  - unfold attivaVoce. destruct supported; simpl; [reflexivity|exact Hst].
  - unfold onresult. destruct isFinal; simpl; [discriminate|exact Hst].
  - discriminate.
  - discriminate.
  - unfold toggleVoiceOutput. simpl.
    destruct (negb (voiceEnabled st)); exact Hst.
  - unfold aumentaFontChat.
    destruct (chatFontSize st <? 20)%Z; exact Hst.
  - unfold diminuisciFontChat.
    destruct (chatFontSize st >? 10)%Z; exact Hst.
Qed.

Lemma run_listening_needs_support supported evs : forall st,
  (isListening st = true -> supported = true) ->
  isListening (run supported evs st) = true -> supported = true.
Proof.
  induction evs as [|ev evs IH]; intros st Hst; simpl; [exact Hst|].
  apply IH. apply listening_needs_support. exact Hst.
Qed.

(** The sessions are book-keeping: the widget goes through the same states
    with the events untagged. *)
Lemma widget_captures supported evs : forall c,
  widget (captures supported evs c)
  = run supported (List.map untag evs) (widget c).
Proof.
  induction evs as [|e evs IH]; intros c; [reflexivity|].
  simpl. rewrite IH. destruct e; reflexivity.
Qed.

(** What an event that is not of the recognition does to the flag and to
    the count of the sessions. *)
Lemma user_step supported st ev :
  is_recognition ev = false ->
  let st' := step supported st ev in
  (isListening st = true ->
   isListening st' = true /\ recognitions st' = recognitions st)
  /\ (isListening st = false ->
      (isListening st' = false /\ recognitions st' = recognitions st)
      \/ (isListening st' = true
          /\ recognitions st' = S (recognitions st))).
Proof.
  intros Hev. cbv zeta.
  destruct ev as [text| |q|p o now| |t f|e| | | |]; try discriminate Hev;
    cbn [step].
  - split; intros H; [|left]; split; (exact H || reflexivity).
  - rewrite isListening_chiedi_start, recognitions_chiedi_start.
    split; intros H; [|left]; split; (exact H || reflexivity).
  - rewrite isListening_chiedi_start, recognitions_chiedi_start.
    split; intros H; [|left]; split; (exact H || reflexivity).
  - rewrite isListening_resume, recognitions_resume.
    split; intros H; [|left]; split; (exact H || reflexivity).
  - unfold attivaVoce. destruct supported; cbn [negb].
    + destruct (isListening st) eqn:Hl.
      * split; intros H; [|discriminate H]. split; [exact Hl|reflexivity].
      * split; intros H; [discriminate H|]. right. split; reflexivity.
    + split; intros H; [|left]; split; (exact H || reflexivity).
  - unfold toggleVoiceOutput. cbn [voiceEnabled set_voiceEnabled].
    destruct (negb (voiceEnabled st));
      split; intros H; [|left| |left]; split; (exact H || reflexivity).
  - unfold aumentaFontChat. destruct (chatFontSize st <? 20)%Z;
      split; intros H; [|left| |left]; split; (exact H || reflexivity).
  - unfold diminuisciFontChat. destruct (chatFontSize st >? 10)%Z;
      split; intros H; [|left| |left]; split; (exact H || reflexivity).
Qed.

(** What an event of the recognition does to the flag and to the count. *)
Lemma recognition_step supported st ev :
  is_recognition ev = true ->
  let st' := step supported st ev in
  recognitions st' = recognitions st
  /\ isListening st' = (if is_terminal ev then false else isListening st).
Proof.
  intros Hev. cbv zeta.
  destruct ev as [text| |q|p o now| |t f|e| | | |]; try discriminate Hev;
    cbn [step].
  - unfold onresult. destruct f; split; reflexivity.
  - split; reflexivity.
  - split; reflexivity.
Qed.

(** One event keeps at most the last session open. *)
Lemma one_capture_step supported c e :
  one_capture c ->
  platform_ok supported [e] c = true ->
  no_stale_terminal supported [e] c = true ->
  one_capture (capture_step supported c e).
Proof.
  intros [Hopen Hpos] Hok Hns.
  cbn [platform_ok] in Hok. rewrite andb_true_r in Hok.
  cbn [no_stale_terminal] in Hns. rewrite andb_true_r in Hns.
  destruct e as [ev|k ev]; unfold one_capture, capture_step;
    cbn [untag widget open].
  - apply negb_true_iff in Hok.
    destruct (user_step supported (widget c) ev Hok) as [Hon Hoff].
    destruct (isListening (widget c)) eqn:Hl.
    + destruct (Hon eq_refl) as [Hl' Hr']. rewrite Hl', Hr'.
      rewrite Nat.ltb_irrefl. split; [exact Hopen|]. intros _. auto.
    + destruct (Hoff eq_refl) as [[Hl' Hr']|[Hl' Hr']]; rewrite Hl', Hr'.
      * rewrite Nat.ltb_irrefl. split; [exact Hopen|discriminate].
      * replace (recognitions (widget c) <? S (recognitions (widget c)))
          with true by (symmetry; apply Nat.ltb_lt; lia).
        rewrite Hopen. split; [reflexivity|]. intros _. lia.
  - rewrite !andb_true_iff in Hok. destruct Hok as [[Hrec _] _].
    destruct (recognition_step supported (widget c) ev Hrec) as [Hr' Hl'].
    rewrite Hr', Hl'.
    destruct (is_terminal ev) eqn:Hterm.
    + split; [|discriminate].
      cbn [negb orb] in Hns.
      rewrite Hopen in Hns |- *.
      destruct (isListening (widget c)); [|reflexivity].
      cbn [existsb filter] in Hns |- *.
      rewrite orb_false_r in Hns. rewrite orb_false_r in Hns.
      rewrite Hns. reflexivity.
    + split; [exact Hopen|exact Hpos].
Qed.

Lemma one_capture_run supported evs : forall c,
  one_capture c ->
  platform_ok supported evs c = true ->
  no_stale_terminal supported evs c = true ->
  one_capture (captures supported evs c).
Proof.
  induction evs as [|e evs IH]; intros c Hc Hok Hns; [exact Hc|].
  cbn [platform_ok] in Hok. apply andb_true_iff in Hok as [Hok1 Hok2].
  cbn [no_stale_terminal] in Hns. apply andb_true_iff in Hns as [Hns1 Hns2].
  cbn [captures fold_left]. apply IH; [|exact Hok2|exact Hns2].
  apply one_capture_step; [exact Hc| |].
  - cbn [platform_ok]. rewrite Hok1. reflexivity.
  - cbn [no_stale_terminal]. rewrite Hns1. reflexivity.
Qed.

(** C9 (as amended).  In every state that the widget can reach, a call of
    [attivaVoce] made while the listening flag is set changes nothing at
    all.  In a browser without speech recognition the call appends one error
    notification and changes nothing else, the flag is down and no capture
    session has ever been started.  At most one capture session is open (it
    has been started and has raised no terminal event), and it is open
    exactly while the flag is set, as long as no session raises a second
    terminal event while another session is open. *)
Theorem second_activation_is_noop :
  (forall (supported : bool) (sid : jsstring) (evs : list Event),
      let st := run supported evs (initial sid) in
      isListening st = true ->
      attivaVoce supported st = st)
  /\ (forall (sid : jsstring) (evs : list Event),
         let st := run false evs (initial sid) in
         attivaVoce false st
         = set_notifications
             (notifications st
                ++ [(js "Il tuo browser non supporta il riconoscimento vocale",
                     error)])
             st
         /\ isListening st = false
         /\ recognitions st = 0)
  /\ (forall (supported : bool) (sid : jsstring) (evs : list SessionEvent),
         platform_ok supported evs (no_captures sid) = true ->
         no_stale_terminal supported evs (no_captures sid) = true ->
         let c := captures supported evs (no_captures sid) in
         widget c = run supported (List.map untag evs) (initial sid)
         /\ length (open c) <= 1
         /\ open c = (if isListening (widget c)
                      then [pred (recognitions (widget c))]
                      else [])).
Proof.
  split; [|split].
  - intros supported sid evs st Hl.
    assert (Hs : supported = true).
    { apply (run_listening_needs_support supported evs (initial sid));
        [discriminate|exact Hl]. }
    subst supported. unfold attivaVoce. cbn [negb]. rewrite Hl. reflexivity.
  - intros sid evs st.
    assert (Hl : isListening st = false).
    { destruct (isListening st) eqn:Hl; [|reflexivity].
      pose proof (run_listening_needs_support false evs (initial sid)) as H.
      discriminate H; [discriminate|exact Hl]. }
    split; [reflexivity|]. split; [exact Hl|].
    unfold st. rewrite recognitions_unsupported. reflexivity.
  - intros supported sid evs Hok Hns c.
    split; [apply (widget_captures supported evs (no_captures sid))|].
    destruct (one_capture_run supported evs (no_captures sid)) as [Hopen _];
      [split; [reflexivity|discriminate]|exact Hok|exact Hns|].
    fold c in Hopen. split; [|exact Hopen].
    rewrite Hopen. destruct (isListening (widget c)); simpl; lia.
Qed.

(** C9, witness: the microphone button is pressed twice, and the second
    call finds the flag set; a session gives its final result and ends
    before the button is pressed again, twice, and one session is open. *)
Lemma second_activation_is_noop_witness :
  isListening (run true [EvAttivaVoce] sample_session) = true
  /\ attivaVoce true (run true [EvAttivaVoce] sample_session)
     = run true [EvAttivaVoce] sample_session
  /\ open (captures true
             [ByUser EvAttivaVoce; ByCapture 0 (EvResult (js "orari") true);
              ByCapture 0 EvEnd; ByUser EvAttivaVoce; ByUser EvAttivaVoce]
             (no_captures (js "session_1_a")))
     = [1].
Proof.
  split; [reflexivity|]. split.
  - apply (proj1 second_activation_is_noop true (js "session_1_a")
             [EvAttivaVoce]).
    reflexivity.
  - destruct (proj2 (proj2 second_activation_is_noop) true (js "session_1_a")
                [ByUser EvAttivaVoce;
                 ByCapture 0 (EvResult (js "orari") true);
                 ByCapture 0 EvEnd; ByUser EvAttivaVoce; ByUser EvAttivaVoce]
                eq_refl eq_refl) as (_ & _ & H).
    rewrite H. reflexivity.
Defined.

(** C9, counterexample: the first session gives its final result, which
    lowers the flag, and the button starts a second session; then the [end]
    event of the first session lowers the flag again, and the button starts
    a third session while the second is still open. *)
Lemma stale_end_lets_captures_overlap :
  platform_ok true sample_stale_end (no_captures (js "session_1_a")) = true
  /\ open (captures true sample_stale_end (no_captures (js "session_1_a")))
     = [1; 2]
  /\ recognitions
       (run true (List.map untag sample_stale_end) sample_session) = 3
  /\ ~ (forall evs : list SessionEvent,
          platform_ok true evs (no_captures (js "session_1_a")) = true ->
          length (open (captures true evs (no_captures (js "session_1_a"))))
          <= 1).
Proof.
  split; [reflexivity|]. split; [reflexivity|]. split; [reflexivity|].
  intros H. specialize (H sample_stale_end eq_refl).
  vm_compute in H. lia.
Qed.

End VoiceCapture.

(* ================================================================= *)
(** ** The matcher *)

Section Matcher.

Lemma m_rep_sound p : forall s lo hi k x,
  m_rep p lo hi s k = Some x ->
  exists w rest,
    s = w ++ rest /\ forallb p w = true /\ lo <= length w
    /\ within hi (length w) /\ k rest = Some x.
Proof.
  induction s as [|c s IH]; intros lo hi k x H; simpl in H.
  - destruct lo; [|discriminate].
    exists [], []. repeat split; auto. destruct hi; simpl; lia.
  - assert (Hstop : match lo with O => k (c :: s) | S _ => None end = Some x ->
                    exists w rest,
                      c :: s = w ++ rest /\ forallb p w = true
                      /\ lo <= length w /\ within hi (length w)
                      /\ k rest = Some x).
    { destruct lo; [|discriminate]. intros Hk.
      exists [], (c :: s). repeat split; auto. destruct hi; simpl; lia. }
    revert H.
    destruct (p c && negb (exhausted hi)) eqn:Hc; [|auto].
    destruct (m_rep p (pred lo) (option_map pred hi) s k) as [y|] eqn:Hin;
      [|auto].
    intros H. injection H as ->.
    apply andb_true_iff in Hc. destruct Hc as [Hpc Hex].
    destruct (IH _ _ _ _ Hin) as (w & rest & -> & Hw & Hlo & Hhi & Hk).
    exists (c :: w), rest. simpl. rewrite Hpc, Hw.
    repeat split; auto; [lia|].
    destruct hi as [[|h]|]; simpl in *; try discriminate; auto; lia.
Qed.

Lemma m_rep_complete p : forall w lo hi rest k,
  forallb p w = true -> lo <= length w -> within hi (length w) ->
  k rest <> None ->
  m_rep p lo hi (w ++ rest) k <> None.
Proof.
  induction w as [|c w IH]; intros lo hi rest k Hw Hlo Hhi Hk; simpl in *.
  - assert (lo = 0) by lia. subst lo.
    destruct rest as [|c s]; simpl; [exact Hk|].
    destruct (p c && negb (exhausted hi)); [|exact Hk].
    destruct (m_rep p 0 (option_map pred hi) s k); [discriminate|exact Hk].
  - apply andb_true_iff in Hw. destruct Hw as [Hpc Hw]. rewrite Hpc.
    assert (Hex : exhausted hi = false).
    { destruct hi as [[|h]|]; simpl in *; auto; lia. }
    rewrite Hex. simpl.
    assert (Hin : m_rep p (pred lo) (option_map pred hi) (w ++ rest) k <> None).
    { apply IH; auto; [lia|].
      destruct hi as [[|h]|]; simpl in *; auto; lia. }
    destruct (m_rep p (pred lo) (option_map pred hi) (w ++ rest) k);
      [discriminate|contradiction].
Qed.

(** Soundness: a result of the matcher comes from a text that the pattern
    matches, followed by an input that the continuation accepts. *)
Lemma m_sound : forall r s k x,
  m r s k = Some x ->
  exists w rest, s = w ++ rest /\ matches r w rest /\ k rest = Some x.
Proof.
  induction r as [|p|r1 IH1 r2 IH2|p lo hi|]; intros s k x H; simpl in H.
  - exists [], s. simpl. auto.
  - destruct s as [|c s]; [discriminate|].
    destruct (p c) eqn:Hc; [|discriminate].
    exists [c], s. simpl. eauto.
  - destruct (IH1 _ _ _ H) as (w1 & rest1 & -> & Hm1 & H2).
    destruct (IH2 _ _ _ H2) as (w2 & rest & -> & Hm2 & Hk).
    exists (w1 ++ w2), rest. rewrite <- app_assoc.
    split; [reflexivity|]. split; [|exact Hk].
    simpl. exists w1, w2. auto.
  - destruct (m_rep_sound _ _ _ _ _ _ H) as (w & rest & -> & Hw & Hlo & Hhi & Hk).
    exists w, rest. simpl. auto.
  - destruct s; [|discriminate]. exists [], []. simpl. auto.
Qed.

(** Completeness: the matcher finds a result whenever the pattern matches
    a head of the input and the continuation accepts what follows. *)
Lemma m_complete : forall r w rest k,
  matches r w rest -> k rest <> None -> m r (w ++ rest) k <> None.
Proof.
  induction r as [|p|r1 IH1 r2 IH2|p lo hi|]; intros w rest k Hm Hk;
    simpl in Hm.
  - subst w. exact Hk.
  - destruct Hm as (c & -> & Hc). simpl. rewrite Hc. exact Hk.
  - destruct Hm as (w1 & w2 & -> & Hm1 & Hm2).
    rewrite <- app_assoc. simpl.
    apply IH1; [exact Hm1|]. apply IH2; assumption.
  - destruct Hm as (Hw & Hlo & Hhi). simpl.
    apply m_rep_complete; assumption.
  - destruct Hm as [-> ->]. exact Hk.
Qed.

Lemma firstn_length_app (w rest : jsstring) :
  firstn (length (w ++ rest) - length rest) (w ++ rest) = w.
Proof.
  rewrite length_app.
  replace (length w + length rest - length rest) with (length w) by lia.
  rewrite firstn_app, Nat.sub_diag, firstn_all. simpl.
  apply app_nil_r.
Qed.

Lemma exec_sound r s w rest :
  exec r s = Some (w, rest) -> s = w ++ rest /\ matches r w rest.
Proof.
  unfold exec. destruct (m r s Some) as [rest'|] eqn:H; [|discriminate].
  destruct (m_sound _ _ _ _ H) as (w0 & rest0 & -> & Hm & Hk).
  injection Hk as <-.
  rewrite firstn_length_app.
  intros Heq. injection Heq as <- <-. auto.
Qed.

Lemma exec_complete r w rest :
  matches r w rest -> exec r (w ++ rest) <> None.
Proof.
  intros Hm. unfold exec.
  pose proof (@m_complete r w rest Some Hm) as H.
  destruct (m r (w ++ rest) Some); [discriminate|].
  exfalso. apply H; [discriminate|reflexivity].
Qed.

(** *** Scanning with the [g] flag *)

Lemma replace_scan_skip r f : forall w rest,
  replace_scan r f (length w) (w ++ rest) = replace_scan r f 0 rest.
Proof.
  induction w as [|c w IH]; intros rest; simpl; [|apply IH].
  destruct rest; reflexivity.
Qed.

Lemma replace_global_match r f s c w rest :
  exec r s = Some (c :: w, rest) ->
  replace_global r f s = f (c :: w) ++ replace_global r f rest.
Proof.
  intros H. destruct (exec_sound _ _ _ _ H) as [Hs _]. subst s.
  unfold replace_global. simpl app. simpl replace_scan.
  change (c :: w ++ rest) with ((c :: w) ++ rest). rewrite H.
  rewrite replace_scan_skip. reflexivity.
Qed.

Lemma replace_global_step r f c s :
  exec r (c :: s) = None ->
  replace_global r f (c :: s) = c :: replace_global r f s.
Proof.
  intros H. unfold replace_global. simpl. rewrite H. reflexivity.
Qed.

Lemma replace_global_nil r f :
  exec r [] = None -> replace_global r f [] = [].
Proof. intros H. unfold replace_global. simpl. rewrite H. reflexivity. Qed.

(** Where the pattern matches nowhere, nothing is replaced. *)
Lemma replace_global_id r f : forall s,
  matches_somewhere r s = false -> replace_global r f s = s.
Proof.
  induction s as [|c s IH]; intros H; simpl in H.
  - destruct (exec r []) eqn:He; [discriminate|].
    apply replace_global_nil. exact He.
  - destruct (exec r (c :: s)) eqn:He; [discriminate|].
    rewrite replace_global_step by exact He. rewrite IH by exact H.
    reflexivity.
Qed.

(** Every match of the scan is replaced: its replacement is in the result. *)
Lemma scan_matches_replaced r f w : forall s skip,
  In w (scan_matches r skip s) -> Infix (f w) (replace_scan r f skip s).
Proof.
  induction s as [|c s IH]; intros skip H; simpl in *.
  - destruct skip; [|contradiction].
    destruct (exec r []) as [[w0 rest0]|]; [|contradiction].
    destruct H as [->|[]]. exists [], []. rewrite app_nil_r. reflexivity.
  - destruct skip as [|n]; [|apply IH; exact H].
    destruct (exec r (c :: s)) as [[[|c0 w0] rest0]|].
    + destruct H as [<-|H].
      * exists [], (c :: replace_scan r f 0 s). reflexivity.
      * destruct (IH _ H) as (pre & post & ->).
        exists (f [] ++ c :: pre), post.
        rewrite <- !app_assoc. reflexivity.
    + destruct H as [<-|H].
      * exists [], (replace_scan r f (length w0) s). reflexivity.
      * destruct (IH _ H) as (pre & post & ->).
        exists (f (c0 :: w0) ++ pre), post.
        rewrite <- !app_assoc. reflexivity.
    + destruct (IH _ H) as (pre & post & ->).
      exists (c :: pre), post. reflexivity.
Qed.

(** The output of the scan, piece by piece. *)
Lemma replace_scan_pieces r f : forall (s : jsstring) skip,
  replace_scan r f skip s
  = flat_map (piece_output f) (scan_pieces r skip s).
Proof.
  induction s as [|c s IH]; intros skip; simpl.
  - destruct skip; [|reflexivity].
    destruct (exec r []) as [[w rest]|]; simpl;
      [rewrite app_nil_r|]; reflexivity.
  - destruct skip as [|n]; [|apply IH].
    destruct (exec r (c :: s)) as [[[|c0 w] rest]|]; simpl;
      rewrite IH; reflexivity.
Qed.

(** The pieces of the scan make up the input. *)
Lemma scan_pieces_source r : forall (s : jsstring) skip,
  flat_map piece_source (scan_pieces r skip s) = skipn skip s.
Proof.
  induction s as [|c s IH]; intros skip.
  - simpl. destruct skip; [|reflexivity].
    destruct (exec r []) as [[w rest]|] eqn:Hex; [|reflexivity].
    destruct (exec_sound _ _ _ _ Hex) as [Heq _].
    symmetry in Heq. apply app_eq_nil in Heq. destruct Heq as [-> _].
    reflexivity.
  - destruct skip as [|n]; [|simpl; apply IH].
    cbn [scan_pieces skipn].
    destruct (exec r (c :: s)) as [[[|c0 w] rest]|] eqn:Hex.
    + cbn [flat_map piece_source app]. rewrite IH. reflexivity.
    + destruct (exec_sound _ _ _ _ Hex) as [Heq _].
      cbn [flat_map piece_source]. rewrite IH.
      assert (Hs : s = w ++ rest) by (simpl in Heq; congruence).
      rewrite Hs at 1.
      rewrite skipn_app, skipn_all, Nat.sub_diag. simpl skipn.
      simpl. rewrite <- Hs.
      assert (c0 = c) by (simpl in Heq; congruence). subst c0.
      reflexivity.
    + cbn [flat_map piece_source app]. rewrite IH. reflexivity.
Qed.

(** *** A code unit that the pattern rejects

    The matcher cannot read past a code unit that none of its classes
    accepts: what follows that code unit has no bearing on the match. *)
Lemma m_rep_stop p x X k1 k2 :
  p x = false ->
  (forall u, k2 (u ++ x :: X) = extend X (k1 (u ++ [x]))) ->
  forall u lo hi,
    m_rep p lo hi (u ++ x :: X) k2 = extend X (m_rep p lo hi (u ++ [x]) k1).
Proof.
  intros Hx Hk.
  induction u as [|c u IH]; intros lo hi; simpl.
  - rewrite Hx. simpl. destruct lo; [apply (Hk [])|reflexivity].
  - rewrite IH.
    destruct (p c && negb (exhausted hi)).
    + destruct (m_rep p (pred lo) (option_map pred hi) (u ++ [x]) k1);
        simpl; [reflexivity|].
      destruct lo; [apply (Hk (c :: u))|reflexivity].
    + destruct lo; [apply (Hk (c :: u))|reflexivity].
Qed.

Lemma m_stop x X : forall r k1 k2,
  rejects r x = true ->
  (forall u, k2 (u ++ x :: X) = extend X (k1 (u ++ [x]))) ->
  forall u, m r (u ++ x :: X) k2 = extend X (m r (u ++ [x]) k1).
Proof.
  induction r as [|p|r1 IH1 r2 IH2|p lo hi|]; intros k1 k2 Hr Hk u;
    simpl in *.
  - apply Hk.
  - apply negb_true_iff in Hr.
    destruct u as [|c u]; simpl.
    + rewrite Hr. reflexivity.
    + destruct (p c); [apply Hk|reflexivity].
  - apply andb_true_iff in Hr. destruct Hr as [Hr1 Hr2].
    apply IH1; [exact Hr1|].
    intros v. apply IH2; assumption.
  - apply negb_true_iff in Hr. apply m_rep_stop; assumption.
  - destruct u; reflexivity.
Qed.

Lemma exec_stop r x X u :
  rejects r x = true ->
  exec r (u ++ x :: X) = extend_match X (exec r (u ++ [x])).
Proof.
  intros Hr. unfold exec.
  assert (Hs : m r (u ++ x :: X) Some = extend X (m r (u ++ [x]) Some)).
  { apply m_stop; [exact Hr|].
    intros v. simpl. rewrite <- app_assoc. reflexivity. }
  rewrite Hs.
  destruct (m r (u ++ [x]) Some) as [rest|] eqn:Hm; simpl; [|reflexivity].
  destruct (m_sound _ _ _ _ Hm) as (w & rest0 & Heq & _ & Hk).
  injection Hk as ->.
  rewrite Heq, firstn_length_app.
  replace (u ++ x :: X) with (w ++ rest ++ X).
  - rewrite (firstn_length_app w (rest ++ X)). reflexivity.
  - rewrite app_assoc, <- Heq, <- app_assoc. reflexivity.
Qed.

(** The same at the end of the input, for a pattern without [$]. *)
Lemma m_rep_stop_nil p x k1 k2 :
  p x = false ->
  (forall u, k2 (u ++ [x]) = extend [x] (k1 u)) ->
  forall (u : jsstring) lo hi,
    m_rep p lo hi (u ++ [x]) k2 = extend [x] (m_rep p lo hi u k1).
Proof.
  intros Hx Hk.
  induction u as [|c u IH]; intros lo hi; simpl.
  - rewrite Hx. simpl. destruct lo; [apply (Hk [])|reflexivity].
  - rewrite IH.
    destruct (p c && negb (exhausted hi)).
    + destruct (m_rep p (pred lo) (option_map pred hi) u k1);
        simpl; [reflexivity|].
      destruct lo; [apply (Hk (c :: u))|reflexivity].
    + destruct lo; [apply (Hk (c :: u))|reflexivity].
Qed.

Lemma m_stop_nil x : forall r k1 k2,
  rejects r x = true -> end_free r = true ->
  (forall u, k2 (u ++ [x]) = extend [x] (k1 u)) ->
  forall u : jsstring, m r (u ++ [x]) k2 = extend [x] (m r u k1).
Proof.
  induction r as [|p|r1 IH1 r2 IH2|p lo hi|]; intros k1 k2 Hr He Hk u;
    simpl in *; try discriminate.
  - apply Hk.
  - apply negb_true_iff in Hr.
    destruct u as [|c u]; simpl.
    + rewrite Hr. reflexivity.
    + destruct (p c); [apply Hk|reflexivity].
  - apply andb_true_iff in Hr. destruct Hr as [Hr1 Hr2].
    apply andb_true_iff in He. destruct He as [He1 He2].
    apply IH1; [exact Hr1|exact He1|].
    intros v. apply IH2; assumption.
  - apply negb_true_iff in Hr. apply m_rep_stop_nil; assumption.
Qed.

Lemma exec_stop_nil r x (u : jsstring) :
  rejects r x = true -> end_free r = true ->
  exec r (u ++ [x]) = extend_match [x] (exec r u).
Proof.
  intros Hr He. unfold exec.
  assert (Hs : m r (u ++ [x]) Some = extend [x] (m r u Some)).
  { apply m_stop_nil; [exact Hr|exact He|]. intros v. reflexivity. }
  rewrite Hs.
  destruct (m r u Some) as [rest|] eqn:Hm; simpl; [|reflexivity].
  destruct (m_sound _ _ _ _ Hm) as (w & rest0 & Heq & _ & Hk).
  injection Hk as ->.
  rewrite Heq, firstn_length_app.
  rewrite <- app_assoc.
  rewrite (firstn_length_app w (rest ++ [x])). reflexivity.
Qed.

Lemma matches_rejects : forall r w rest x,
  matches r w rest -> rejects r x = true -> ~ In x w.
Proof.
  induction r as [|p|r1 IH1 r2 IH2|p lo hi|]; intros w rest x Hm Hr Hin;
    simpl in *.
  - subst w. contradiction.
  - destruct Hm as (c & -> & Hc). destruct Hin as [->|[]].
    rewrite Hc in Hr. discriminate.
  - destruct Hm as (w1 & w2 & -> & Hm1 & Hm2).
    apply andb_true_iff in Hr. destruct Hr as [Hr1 Hr2].
    apply in_app_or in Hin. destruct Hin as [Hin|Hin].
    + exact (IH1 _ _ _ Hm1 Hr1 Hin).
    + exact (IH2 _ _ _ Hm2 Hr2 Hin).
  - destruct Hm as (Hw & _).
    rewrite forallb_forall in Hw. rewrite (Hw _ Hin) in Hr. discriminate.
  - destruct Hm as [-> _]. contradiction.
Qed.

Lemma matches_rest : forall r w rest rest',
  end_free r = true -> matches r w rest -> matches r w rest'.
Proof.
  induction r as [|p|r1 IH1 r2 IH2|p lo hi|]; intros w rest rest' He Hm;
    simpl in *; try assumption; try discriminate.
  apply andb_true_iff in He. destruct He as [He1 He2].
  destruct Hm as (w1 & w2 & -> & Hm1 & Hm2).
  exists w1, w2. split; [reflexivity|]. split.
  - exact (IH1 _ _ _ He1 Hm1).
  - exact (IH2 _ _ _ He2 Hm2).
Qed.

(** A match that stops before a rejected code unit is a match whatever
    comes in place of that code unit. *)
Lemma exec_mono r x u Y :
  rejects r x = true -> end_free r = true ->
  exec r (u ++ [x]) <> None -> exec r (u ++ Y) <> None.
Proof.
  intros Hr He H.
  destruct (exec r (u ++ [x])) as [[w rest]|] eqn:Hex; [|contradiction].
  destruct (exec_sound _ _ _ _ Hex) as [Heq Hm].
  pose proof (matches_rejects _ _ _ _ Hm Hr) as Hnot.
  destruct (exists_last (l:=rest)) as (rest0 & y & ->).
  - intros ->. rewrite app_nil_r in Heq. subst w.
    apply Hnot. apply in_or_app. right. left. reflexivity.
  - rewrite app_assoc in Heq. apply app_inj_tail in Heq.
    destruct Heq as [-> _].
    rewrite <- app_assoc. apply exec_complete.
    exact (matches_rest _ _ _ _ He Hm).
Qed.

Lemma matches_somewhere_nil r s :
  matches_somewhere r [] = true -> matches_somewhere r s = true.
Proof.
  intros H. induction s as [|c s IH]; [exact H|].
  simpl. destruct (exec r (c :: s)); [reflexivity|exact IH].
Qed.

Lemma matches_somewhere_suffix r : forall a b,
  matches_somewhere r (a ++ b) = false -> matches_somewhere r b = false.
Proof.
  induction a as [|c a IH]; intros b H; [exact H|].
  simpl in H. destruct (exec r (c :: a ++ b)); [discriminate|].
  apply IH. exact H.
Qed.

(** Where the pattern rejects [x], the matches of [u ++ x :: X] are those
    of [u ++ [x]] and those of [X]. *)
Lemma matches_somewhere_stop r x X :
  rejects r x = true ->
  forall u,
    matches_somewhere r (u ++ x :: X)
    = matches_somewhere r (u ++ [x]) || matches_somewhere r X.
Proof.
  intros Hr. induction u as [|c u IH].
  - simpl app. cbn [matches_somewhere].
    change (x :: X) with ([] ++ x :: X). rewrite (exec_stop r x X [] Hr).
    simpl app.
    destruct (exec r [x]); simpl; [reflexivity|].
    destruct (matches_somewhere r X) eqn:HX.
    + symmetry. apply orb_true_r.
    + destruct (exec r []) eqn:Hnil; [|reflexivity].
      exfalso.
      assert (HX' : matches_somewhere r X = true).
      { apply matches_somewhere_nil. simpl. rewrite Hnil. reflexivity. }
      congruence.
  - simpl app. cbn [matches_somewhere].
    change (c :: u ++ x :: X) with ((c :: u) ++ x :: X).
    rewrite (exec_stop r x X (c :: u) Hr). simpl app.
    destruct (exec r (c :: u ++ [x])); simpl; [reflexivity|exact IH].
Qed.

Lemma matches_somewhere_mono r x Y :
  rejects r x = true -> end_free r = true ->
  forall u,
    matches_somewhere r (u ++ [x]) = true ->
    matches_somewhere r (u ++ Y) = true.
Proof.
  intros Hr He. induction u as [|c u IH]; intros H.
  - simpl in *.
    assert (Hy : exec r ([] ++ Y) <> None).
    { destruct (exec r [x]) eqn:Hx.
      - apply (exec_mono _ _ [] _ Hr He). simpl. rewrite Hx. discriminate.
      - destruct (exec r []) as [[w rest]|] eqn:Hn; [|discriminate].
        destruct (exec_sound _ _ _ _ Hn) as [Heq Hm].
        symmetry in Heq. apply app_eq_nil in Heq. destruct Heq as [-> ->].
        apply exec_complete. exact (matches_rest _ _ _ _ He Hm). }
    simpl in Hy. clear H.
    destruct Y as [|y Y]; simpl.
    + destruct (exec r []); [reflexivity|congruence].
    + destruct (exec r (y :: Y)); [reflexivity|congruence].
  - simpl app in *. cbn [matches_somewhere] in *.
    destruct (exec r (c :: u ++ [x])) eqn:Hx.
    + assert (Hy : exec r ((c :: u) ++ Y) <> None).
      { apply (exec_mono _ _ _ _ Hr He). simpl. rewrite Hx. discriminate. }
      simpl in Hy. destruct (exec r (c :: u ++ Y)); [reflexivity|congruence].
    + destruct (exec r (c :: u ++ Y)); [reflexivity|]. apply IH. exact H.
Qed.

Lemma matches_nullable : forall r rest,
  matches r [] rest -> nullable r = true.
Proof.
  induction r as [|p|r1 IH1 r2 IH2|p lo hi|]; intros rest Hm; simpl in *;
    try reflexivity.
  - destruct Hm as (c & Hc & _). discriminate.
  - destruct Hm as (w1 & w2 & Heq & Hm1 & Hm2).
    symmetry in Heq. apply app_eq_nil in Heq. destruct Heq as [-> ->].
    rewrite (IH1 _ Hm1), (IH2 _ Hm2). reflexivity.
  - destruct Hm as (_ & Hlo & _). apply Nat.eqb_eq. lia.
Qed.

(** A pattern that is not nullable has no empty match. *)
Lemma exec_not_empty r s rest :
  nullable r = false -> exec r s <> Some ([], rest).
Proof.
  intros Hn H. destruct (exec_sound _ _ _ _ H) as [_ Hm].
  rewrite (matches_nullable _ _ Hm) in Hn. discriminate.
Qed.

Lemma exec_nil_none r : nullable r = false -> exec r [] = None.
Proof.
  intros Hn. destruct (exec r []) as [[w rest]|] eqn:H; [|reflexivity].
  destruct (exec_sound _ _ _ _ H) as [Heq Hm].
  symmetry in Heq. apply app_eq_nil in Heq. destruct Heq as [-> ->].
  rewrite (matches_nullable _ _ Hm) in Hn. discriminate.
Qed.

(** A match read before a rejected code unit ends before it. *)
Lemma exec_before_stop r x (u w rest : jsstring) :
  rejects r x = true ->
  exec r (u ++ [x]) = Some (w, rest) ->
  exists u', u = w ++ u' /\ rest = u' ++ [x].
Proof.
  intros Hr Hex.
  destruct (exec_sound _ _ _ _ Hex) as [Heq Hm].
  pose proof (matches_rejects _ _ _ _ Hm Hr) as Hnot.
  destruct (exists_last (l:=rest)) as (rest0 & y & ->).
  - intros ->. rewrite app_nil_r in Heq. subst w.
    apply Hnot. apply in_or_app. right. left. reflexivity.
  - rewrite app_assoc in Heq. apply app_inj_tail in Heq.
    destruct Heq as [-> ->]. exists rest0. auto.
Qed.

(** The scan of [u ++ x :: X] is the scan of [u ++ [x]] followed by the
    scan of [X], when the pattern rejects [x]. *)
Lemma replace_scan_stop r f x (X : jsstring) :
  rejects r x = true -> nullable r = false ->
  forall (u : jsstring) n,
    n <= length u ->
    replace_scan r f n (u ++ x :: X)
    = replace_scan r f n (u ++ [x]) ++ replace_scan r f 0 X.
Proof.
  intros Hr Hn.
  assert (Hx : forall Z, exec r (x :: Z) = None).
  { intros Z. change (x :: Z) with ([] ++ x :: Z).
    rewrite (exec_stop r x Z [] Hr). simpl app.
    destruct (exec r [x]) as [[w rest]|] eqn:Hex; [|reflexivity].
    exfalso.
    destruct (exec_before_stop r x [] w rest Hr Hex) as (u' & Hu & _).
    symmetry in Hu. apply app_eq_nil in Hu. destruct Hu as [-> _].
    exact (exec_not_empty r _ _ Hn Hex). }
  induction u as [|c u IH]; intros n Hle.
  - assert (n = 0) by (simpl in Hle; lia). subst n.
    simpl app. cbn [replace_scan].
    rewrite (Hx X), (Hx []), (exec_nil_none r Hn). reflexivity.
  - destruct n as [|n].
    + simpl app. cbn [replace_scan].
      change (c :: u ++ x :: X) with ((c :: u) ++ x :: X).
      rewrite (exec_stop r x X (c :: u) Hr). simpl app.
      destruct (exec r (c :: u ++ [x])) as [[[|c0 w] rest]|] eqn:Hex; simpl.
      * exfalso. exact (exec_not_empty r _ _ Hn Hex).
      * destruct (exec_before_stop r x (c :: u) (c0 :: w) rest Hr Hex)
          as (u' & Hu & _).
        assert (Hu' : u = w ++ u') by (simpl in Hu; congruence).
        rewrite IH by (rewrite Hu', length_app; lia).
        rewrite <- app_assoc. reflexivity.
      * rewrite IH by lia. reflexivity.
    + simpl. apply IH. simpl in Hle. lia.
Qed.

Lemma replace_scan_stop_nil r f x :
  rejects r x = true -> end_free r = true -> nullable r = false ->
  forall (u : jsstring) n,
    n <= length u ->
    replace_scan r f n (u ++ [x]) = replace_scan r f n u ++ [x].
Proof.
  intros Hr He Hn.
  induction u as [|c u IH]; intros n Hle.
  - assert (n = 0) by (simpl in Hle; lia). subst n.
    cbn [app replace_scan].
    change [x] with ([] ++ [x]) at 1.
    rewrite (exec_stop_nil r x [] Hr He), (exec_nil_none r Hn).
    reflexivity.
  - destruct n as [|n].
    + cbn [app replace_scan].
      change (c :: u ++ [x]) with ((c :: u) ++ [x]).
      rewrite (exec_stop_nil r x (c :: u) Hr He).
      destruct (exec r (c :: u)) as [[[|c0 w] rest]|] eqn:Hex; simpl.
      * exfalso. exact (exec_not_empty r _ _ Hn Hex).
      * destruct (exec_sound _ _ _ _ Hex) as [Heq _].
        assert (Hu : u = w ++ rest) by (simpl in Heq; congruence).
        rewrite IH by (rewrite Hu, length_app; lia).
        rewrite <- app_assoc. reflexivity.
      * rewrite IH by lia. reflexivity.
    + simpl. apply IH. simpl in Hle. lia.
Qed.

Lemma replace_global_stop_nil r f x (u : jsstring) :
  rejects r x = true -> end_free r = true -> nullable r = false ->
  replace_global r f (u ++ [x]) = replace_global r f u ++ [x].
Proof.
  intros Hr He Hn. unfold replace_global.
  apply replace_scan_stop_nil; [assumption|assumption|assumption|lia].
Qed.

Lemma replace_global_stop r f x (u X : jsstring) :
  rejects r x = true -> nullable r = false ->
  replace_global r f (u ++ x :: X)
  = replace_global r f (u ++ [x]) ++ replace_global r f X.
Proof.
  intros Hr Hn. unfold replace_global.
  apply replace_scan_stop; [assumption|assumption|lia].
Qed.

(** A greedy quantifier without an upper bound, followed by nothing,
    takes the whole run. *)
Lemma m_rep_greedy p : forall (w post : jsstring) lo,
  forallb p w = true ->
  p (hd 32%N post) = false ->
  lo <= length w ->
  m_rep p lo None (w ++ post) Some = Some post.
Proof.
  induction w as [|c w IH]; intros post lo Hw Hpost Hlo.
  - simpl in Hlo. assert (lo = 0) by lia. subst lo. simpl.
    destruct post as [|c post]; [reflexivity|].
    simpl in Hpost. simpl. rewrite Hpost. reflexivity.
  - simpl in Hw. apply andb_true_iff in Hw. destruct Hw as [Hc Hw].
    simpl. rewrite Hc. simpl.
    rewrite IH; auto. simpl in Hlo. lia.
Qed.

(** A pattern whose matches all hold a code unit of the class [q]
    matches nowhere in a text without such a code unit. *)
Lemma matches_somewhere_requires r (q : char16 -> bool) :
  (forall w rest, matches r w rest -> existsb q w = true) ->
  forall s : jsstring, existsb q s = false -> matches_somewhere r s = false.
Proof.
  intros Hreq. induction s as [|c s IH]; intros Hs; cbn [matches_somewhere].
  - destruct (exec r []) as [[w rest]|] eqn:Hex; [|reflexivity].
    destruct (exec_sound _ _ _ _ Hex) as [Heq Hm].
    symmetry in Heq. apply app_eq_nil in Heq. destruct Heq as [-> ->].
    apply Hreq in Hm. discriminate.
  - destruct (exec r (c :: s)) as [[w rest]|] eqn:Hex.
    + destruct (exec_sound _ _ _ _ Hex) as [Heq Hm].
      apply Hreq in Hm.
      assert (Hc : existsb q (w ++ rest) = true)
        by (rewrite existsb_app, Hm; reflexivity).
      rewrite <- Heq, Hs in Hc. discriminate.
    + apply IH. simpl in Hs. apply orb_false_iff in Hs. apply Hs.
Qed.

(** *** Inputs that the pattern cannot tell apart *)

Lemma m_rep_respects (R : char16 -> char16 -> Prop) p :
  (forall c c', R c c' -> p c = p c') ->
  forall (s s' : jsstring),
    Forall2 R s s' ->
    forall lo hi k k',
      (forall t t', Forall2 R t t' -> same_length (k t) (k' t')) ->
      same_length (m_rep p lo hi s k) (m_rep p lo hi s' k').
Proof.
  intros Hp s s' HF.
  induction HF as [|c c' s s' Hc HF IH]; intros lo hi k k' Hk.
  - simpl. destruct lo; [apply Hk; constructor|exact I].
  - assert (Hstop : same_length
                      match lo with O => k (c :: s) | S _ => None end
                      match lo with O => k' (c' :: s') | S _ => None end).
    { destruct lo; [apply Hk; constructor; assumption|exact I]. }
    simpl. rewrite <- (Hp c c' Hc).
    destruct (p c && negb (exhausted hi)); [|exact Hstop].
    pose proof (IH (pred lo) (option_map pred hi) k k' Hk) as Hin.
    destruct (m_rep p (pred lo) (option_map pred hi) s k),
             (m_rep p (pred lo) (option_map pred hi) s' k');
      simpl in Hin; try contradiction; [exact Hin|exact Hstop].
Qed.

Lemma m_respects (R : char16 -> char16 -> Prop) : forall r,
  respects R r ->
  forall (s s' : jsstring),
    Forall2 R s s' ->
    forall k k',
      (forall t t', Forall2 R t t' -> same_length (k t) (k' t')) ->
      same_length (m r s k) (m r s' k').
Proof.
  induction r as [|p|r1 IH1 r2 IH2|p lo hi|]; intros Hr s s' HF k k' Hk;
    simpl in *.
  - apply Hk. exact HF.
  - destruct HF as [|c c' s s' Hc HF]; [exact I|].
    rewrite <- (Hr c c' Hc). destruct (p c); [apply Hk; exact HF|exact I].
  - destruct Hr as [Hr1 Hr2].
    apply IH1; [exact Hr1|exact HF|].
    intros t t' Ht. apply IH2; assumption.
  - apply (m_rep_respects R); assumption.
  - destruct HF; [apply Hk; constructor|exact I].
Qed.

(** When the pattern matches the whole of [s'], and cannot tell [s] from
    [s'], it matches the whole of [s]. *)
Lemma exec_whole_respects (R : char16 -> char16 -> Prop) r
      (s s' : jsstring) :
  respects R r -> Forall2 R s s' ->
  exec r s' = Some (s', []) -> exec r s = Some (s, []).
Proof.
  intros Hr HF Hex.
  pose proof (m_respects R r Hr s s' HF Some Some) as Hm.
  assert (Hlen : same_length (m r s Some) (m r s' Some)).
  { apply Hm. intros t t' Ht. simpl. eapply Forall2_length. exact Ht. }
  unfold exec in *.
  destruct (m r s' Some) as [rest'|]; [|discriminate].
  injection Hex as _ Hrest. subst rest'.
  destruct (m r s Some) as [rest|]; [|contradiction].
  simpl in Hlen. destruct rest; [|discriminate].
  simpl length. rewrite Nat.sub_0_r, firstn_all. reflexivity.
Qed.

End Matcher.

(* ================================================================= *)
(** ** Links *)

Section Linkify.

Lemma m_rep_to_end p (k : jsstring -> option jsstring) :
  (forall s, k s = match s with [] => Some [] | _ :: _ => None end) ->
  forall s : jsstring,
    m_rep p 0 None s k = if forallb p s then Some [] else None.
Proof.
  intros Hk. induction s as [|c s IH]; cbn [m_rep forallb].
  - apply Hk.
  - simpl pred. simpl option_map. rewrite IH, Hk.
    destruct (p c); simpl; [|reflexivity].
    destruct (forallb p s); reflexivity.
Qed.

(** [/[.,!?)]*$/] matches at a position when only punctuation follows. *)
Lemma exec_trailingPunct (s : jsstring) :
  exec trailingPunctRegex s
  = if forallb is_trailing_punct s then Some (s, []) else None.
Proof.
  unfold exec, trailingPunctRegex. cbn [m].
  rewrite m_rep_to_end by (intros [|c t]; reflexivity).
  destruct (forallb is_trailing_punct s); [|reflexivity].
  simpl length. rewrite Nat.sub_0_r, firstn_all. reflexivity.
Qed.

Lemma cleanUrl_eq (s : jsstring) :
  cleanUrl s
  = if forallb is_trailing_punct s then []
    else match s with
         | [] => []
         | c :: s' => c :: cleanUrl s'
         end.
Proof.
  unfold cleanUrl. destruct s as [|c s]; cbn [replace_first];
    rewrite exec_trailingPunct;
    destruct (forallb is_trailing_punct _); reflexivity.
Qed.

Lemma cleanUrl_nil (s : jsstring) :
  cleanUrl s = [] -> forallb is_trailing_punct s = true.
Proof.
  rewrite cleanUrl_eq.
  destruct s as [|c s]; [reflexivity|].
  destruct (forallb is_trailing_punct (c :: s)); [reflexivity|discriminate].
Qed.

(** What [cleanUrl] removes is a run of punctuation at the end. *)
Lemma cleanUrl_removes_punct : forall url : jsstring,
  exists p, url = cleanUrl url ++ p /\ forallb is_trailing_punct p = true.
Proof.
  induction url as [|c url IH]; rewrite cleanUrl_eq.
  - exists []. auto.
  - destruct (forallb is_trailing_punct (c :: url)) eqn:Hall.
    + exists (c :: url). auto.
    + destruct IH as (p & Hp & Hall'). exists p.
      split; [|exact Hall']. simpl. rewrite <- Hp. reflexivity.
Qed.

(** What [cleanUrl] leaves does not end with punctuation. *)
Lemma cleanUrl_ends_clean : forall (url l : jsstring) c,
  cleanUrl url = l ++ [c] -> is_trailing_punct c = false.
Proof.
  induction url as [|c0 url IH]; intros l c; rewrite cleanUrl_eq.
  - simpl. destruct l; discriminate.
  - destruct (forallb is_trailing_punct (c0 :: url)) eqn:Hall.
    + destruct l; discriminate.
    + destruct l as [|c1 l]; simpl; intros Heq.
      * injection Heq as Hc Hurl. subst c0.
        apply cleanUrl_nil in Hurl.
        simpl in Hall. rewrite Hurl, andb_true_r in Hall. exact Hall.
      * injection Heq as _ Hurl. exact (IH _ _ Hurl).
Qed.

(** A text that does not end with punctuation, followed by punctuation,
    is cleaned to that text. *)
Lemma cleanUrl_app : forall a p : jsstring,
  is_trailing_punct (last a 0%N) = false ->
  forallb is_trailing_punct p = true ->
  cleanUrl (a ++ p) = a.
Proof.
  induction a as [|c a IH]; intros p Ha Hp; rewrite cleanUrl_eq.
  - simpl. rewrite Hp. reflexivity.
  - assert (Hall : forallb is_trailing_punct ((c :: a) ++ p) = false).
    { rewrite forallb_app. apply andb_false_iff. left.
      clear IH. revert c Ha.
      induction a as [|c' a IHa]; intros c Ha.
      - simpl in *. rewrite Ha. reflexivity.
      - change (last (c :: c' :: a) 0%N) with (last (c' :: a) 0%N) in Ha.
        pose proof (IHa c' Ha) as H. simpl in H |- *.
        rewrite H. apply andb_false_r. }
    rewrite Hall. simpl. f_equal.
    destruct a as [|c' a].
    + simpl. rewrite cleanUrl_eq, Hp. reflexivity.
    + apply IH; [|exact Hp]. exact Ha.
Qed.

(** The pattern of URLs at the head of a URL, in both schemes. *)
Lemma exec_url_http (w post : jsstring) :
  forallb is_url_char w = true -> w <> [] ->
  is_url_char (hd 32%N post) = false ->
  exec urlRegex (js "http://" ++ w ++ post) = Some (js "http://" ++ w, post).
Proof.
  intros Hw Hne Hpost.
  unfold exec.
  assert (Hm : m urlRegex (js "http://" ++ w ++ post) Some = Some post).
  { unfold urlRegex. cbn.
    apply m_rep_greedy; auto.
    destruct w; [contradiction|simpl; lia]. }
  rewrite Hm.
  rewrite app_assoc. rewrite firstn_length_app. reflexivity.
Qed.

Lemma exec_url_https (w post : jsstring) :
  forallb is_url_char w = true -> w <> [] ->
  is_url_char (hd 32%N post) = false ->
  exec urlRegex (js "https://" ++ w ++ post)
  = Some (js "https://" ++ w, post).
Proof.
  intros Hw Hne Hpost.
  unfold exec.
  assert (Hm : m urlRegex (js "https://" ++ w ++ post) Some = Some post).
  { unfold urlRegex. cbn.
    rewrite m_rep_greedy; auto.
    destruct w; [contradiction|simpl; lia]. }
  rewrite Hm.
  rewrite app_assoc. rewrite firstn_length_app. reflexivity.
Qed.

Lemma punct_is_url_char c : is_trailing_punct c = true -> is_url_char c = true.
Proof.
  unfold is_trailing_punct, is_url_char, is_white_space.
  rewrite !orb_true_iff, !N.eqb_eq.
  intros H.
  assert (Hc : (c = 46 \/ c = 44 \/ c = 33 \/ c = 63 \/ c = 41)%N) by tauto.
  destruct Hc as [->|[->|[->|[->| ->]]]]; reflexivity.
Qed.

Lemma rejects_url x : is_url_char x = false -> rejects urlRegex x = true.
Proof.
  intros H. unfold is_url_char in H. apply negb_false_iff in H.
  unfold urlRegex. cbn [rejects lit js fold_right List.map
                          list_ascii_of_string].
  rewrite !andb_true_iff, !negb_true_iff.
  assert (Hx : (x <> 104 /\ x <> 116 /\ x <> 112 /\ x <> 115
                /\ x <> 58 /\ x <> 47)%N).
  { unfold is_white_space in H.
    repeat split; intros ->; vm_compute in H; discriminate. }
  destruct Hx as (H1 & H2 & H3 & H4 & H5 & H6).
  unfold is_url_char. rewrite H.
  repeat split; try reflexivity; apply N.eqb_neq; cbn;
    intros Heq; symmetry in Heq; contradiction.
Qed.

(** [linkify] at a URL: the whole match gives way to the anchor of the
    cleaned URL. *)
Lemma linkify_match (s : jsstring) c w rest :
  exec urlRegex s = Some (c :: w, rest) ->
  linkify s = anchor (cleanUrl (c :: w)) ++ linkify rest.
Proof.
  intros H. unfold linkify.
  exact (replace_global_match urlRegex _ s c w rest H).
Qed.

Lemma last_app_r (a b : jsstring) d : b <> [] -> last (a ++ b) d = last b d.
Proof.
  intros Hb. induction a as [|c a IH]; [reflexivity|].
  simpl app. destruct (a ++ b) eqn:Hab.
  - apply app_eq_nil in Hab. destruct Hab as [_ ->]. contradiction.
  - rewrite <- IH. reflexivity.
Qed.

Lemma linkify_at_url (pre scheme body punct post : jsstring) :
  (pre = [] \/ exists pre0 x, pre = pre0 ++ [x] /\ is_url_char x = false) ->
  (scheme = js "http://" \/ scheme = js "https://") ->
  forallb is_url_char body = true ->
  is_trailing_punct (last body 0%N) = false ->
  forallb is_trailing_punct punct = true ->
  body ++ punct <> [] ->
  is_url_char (hd 32%N post) = false ->
  exec urlRegex (scheme ++ body ++ punct ++ post)
  = Some (scheme ++ body ++ punct, post)
  /\ linkify (pre ++ scheme ++ body ++ punct ++ post)
     = linkify pre ++ anchor (scheme ++ body) ++ linkify post.
Proof.
  intros Hpre Hscheme Hbody Hlast Hpunct Hne Hpost.
  assert (Hw : forallb is_url_char (body ++ punct) = true).
  { rewrite forallb_app, Hbody. simpl.
    apply forallb_forall. intros c Hc.
    apply punct_is_url_char.
    rewrite forallb_forall in Hpunct. exact (Hpunct c Hc). }
  assert (Hex : exec urlRegex (scheme ++ body ++ punct ++ post)
                = Some (scheme ++ body ++ punct, post)).
  { rewrite !(app_assoc body).
    destruct Hscheme as [-> | ->];
      [apply exec_url_http | apply exec_url_https]; assumption. }
  split; [exact Hex|].
  assert (Hclean : cleanUrl (scheme ++ body ++ punct) = scheme ++ body).
  { rewrite app_assoc. apply cleanUrl_app; [|exact Hpunct].
    destruct body as [|c body].
    - rewrite app_nil_r. destruct Hscheme as [-> | ->]; reflexivity.
    - rewrite last_app_r by discriminate. exact Hlast. }
  assert (Hurl : linkify (scheme ++ body ++ punct ++ post)
                 = anchor (scheme ++ body) ++ linkify post).
  { rewrite <- Hclean.
    destruct Hscheme as [-> | ->];
      apply (linkify_match _ 104%N); exact Hex. }
  destruct Hpre as [-> | (pre0 & x & -> & Hx)].
  - exact Hurl.
  - replace ((pre0 ++ [x]) ++ scheme ++ body ++ punct ++ post)
      with (pre0 ++ x :: scheme ++ body ++ punct ++ post)
      by (rewrite <- app_assoc; reflexivity).
    unfold linkify in *.
    rewrite replace_global_stop; [|apply rejects_url; exact Hx|reflexivity].
    rewrite Hurl. reflexivity.
Qed.

(** The template of [linkify] builds the anchor element that opens the
    cleaned URL and shows it. *)
Lemma anchor_is_element (c : jsstring) : anchor c = anchor_element c c.
Proof. reflexivity. Qed.

(** C10.  The scan of [linkify] cuts every text into the code units that it
    copies and the URLs that it matches; the output has, for each matched
    URL, the anchor element that opens the cleaned URL and shows it, and
    nothing else, so that the punctuation at the end of the match is in the
    input and not in the output.  In particular a URL that stands at the
    start of the text or after a code unit that cannot belong to a URL, made
    of a scheme, a body and a run of punctuation, and followed by the end of
    the text or by a code unit that cannot belong to a URL, is matched as a
    whole and replaced by the anchor element of the scheme and the body: in
    [Vedi (https://ulss.it/cup). Grazie] the bracket and the full stop after
    the URL are gone. *)
Theorem linkify_drops_trailing_punctuation :
  (forall text : jsstring,
     text = flat_map piece_source (scan_pieces urlRegex 0 text)
     /\ linkify text
        = flat_map
            (piece_output
               (fun url => anchor_element (cleanUrl url) (cleanUrl url)))
            (scan_pieces urlRegex 0 text)
     /\ forall url : jsstring,
          In (Matched url) (scan_pieces urlRegex 0 text) ->
          exists p, url = cleanUrl url ++ p
                    /\ forallb is_trailing_punct p = true
                    /\ (forall l c, cleanUrl url = l ++ [c] ->
                                    is_trailing_punct c = false))
  /\ (forall (pre scheme body punct post : jsstring),
        (pre = [] \/
         exists pre0 x, pre = pre0 ++ [x] /\ is_url_char x = false) ->
        (scheme = js "http://" \/ scheme = js "https://") ->
        forallb is_url_char body = true ->
        is_trailing_punct (last body 0%N) = false ->
        forallb is_trailing_punct punct = true ->
        body ++ punct <> [] ->
        is_url_char (hd 32%N post) = false ->
        exec urlRegex (scheme ++ body ++ punct ++ post)
        = Some (scheme ++ body ++ punct, post)
        /\ linkify (pre ++ scheme ++ body ++ punct ++ post)
           = linkify pre
               ++ anchor_element (scheme ++ body) (scheme ++ body)
               ++ linkify post)
  /\ linkify (js "Vedi (https://ulss.it/cup). Grazie")
     = js "Vedi (<a href=" ++ [dq] ++ js "https://ulss.it/cup" ++ [dq]
         ++ js " target=" ++ [dq] ++ js "_blank" ++ [dq]
         ++ js " class=" ++ [dq]
         ++ js "text-blue-600 underline hover:text-blue-700" ++ [dq]
         ++ js ">https://ulss.it/cup</a> Grazie".
Proof.
  split; [|split; [|vm_compute; reflexivity]].
  - intros text. split; [|split].
    + rewrite (scan_pieces_source urlRegex text 0). reflexivity.
    + unfold linkify, replace_global.
      rewrite replace_scan_pieces. apply flat_map_ext.
      intros [c|w]; [reflexivity|]. apply anchor_is_element.
    + intros url _.
      destruct (cleanUrl_removes_punct url) as (p & Hp & Hall).
      exists p. split; [exact Hp|]. split; [exact Hall|].
      apply cleanUrl_ends_clean.
  - intros pre scheme body punct post H1 H2 H3 H4 H5 H6 H7.
    rewrite <- anchor_is_element.
    apply linkify_at_url; assumption.
Qed.

(** C10, witness: a URL in brackets at the end of a sentence. *)
Lemma linkify_drops_trailing_punctuation_witness :
  linkify (js "Vedi https://ulss.it/cup). Grazie")
  = js "Vedi <a href=" ++ [dq] ++ js "https://ulss.it/cup" ++ [dq]
      ++ js " target=" ++ [dq] ++ js "_blank" ++ [dq]
      ++ js " class=" ++ [dq]
      ++ js "text-blue-600 underline hover:text-blue-700" ++ [dq]
      ++ js ">https://ulss.it/cup</a> Grazie"
  /\ In (Matched (js "https://ulss.it/cup)."))
        (scan_pieces urlRegex 0 (js "Vedi https://ulss.it/cup). Grazie")).
Proof.
  split.
  - pose proof (proj1 (proj2 linkify_drops_trailing_punctuation)
                  (js "Vedi ") (js "https://") (js "ulss.it/cup") (js ").")
                  (js " Grazie")) as H.
    apply H; clear H.
    + right. exists (js "Vedi"), 32%N. split; reflexivity.
    + right. reflexivity.
    + reflexivity.
    + reflexivity.
    + reflexivity.
    + discriminate.
    + reflexivity.
  - vm_compute. auto 10.
Defined.

(** C8.  In the example the output is the word before the URL and one
    anchor element, which has [http://example.com/a] as its target and as
    its text; the comma is not in the output, and the other steps of the
    formatter leave it as it is.  In general, for every URL that the scan of
    [linkify] meets, the output holds the anchor element whose target and
    text are the URL without the punctuation [. , ! ? )] at its end. *)
Theorem linkify_strips_trailing_punctuation :
  linkify (js "Visita http://example.com/a,")
  = js "Visita <a href=" ++ [dq] ++ js "http://example.com/a" ++ [dq]
      ++ js " target=" ++ [dq] ++ js "_blank" ++ [dq]
      ++ js " class=" ++ [dq]
      ++ js "text-blue-600 underline hover:text-blue-700" ++ [dq]
      ++ js ">http://example.com/a</a>"
  /\ formatResponse (js "Visita http://example.com/a,")
     = js "Visita <a href=" ++ [dq] ++ js "http://example.com/a" ++ [dq]
         ++ js " target=" ++ [dq] ++ js "_blank" ++ [dq]
         ++ js " class=" ++ [dq]
         ++ js "text-blue-600 underline hover:text-blue-700" ++ [dq]
         ++ js ">http://example.com/a</a>"
  /\ forall (text url : jsstring),
       In url (scan_matches urlRegex 0 text) ->
       Infix (anchor_element (cleanUrl url) (cleanUrl url)) (linkify text)
       /\ (exists p, url = cleanUrl url ++ p
                     /\ forallb is_trailing_punct p = true)
       /\ (forall l c, cleanUrl url = l ++ [c] ->
                       is_trailing_punct c = false).
Proof.
  split; [vm_compute; reflexivity|].
  split; [vm_compute; reflexivity|].
  intros text url Hin. split; [|split].
  - unfold linkify, replace_global. rewrite <- anchor_is_element.
    exact (scan_matches_replaced urlRegex
             (fun u => anchor (cleanUrl u)) url text 0 Hin).
  - apply cleanUrl_removes_punct.
  - apply cleanUrl_ends_clean.
Qed.

(** C8, witness: the URL of the example, with its comma, is the one match
    of the scan. *)
Lemma linkify_strips_trailing_punctuation_witness :
  In (js "http://example.com/a,")
     (scan_matches urlRegex 0 (js "Visita http://example.com/a,"))
  /\ Infix (anchor_element (js "http://example.com/a")
              (js "http://example.com/a"))
           (linkify (js "Visita http://example.com/a,"))
  /\ cleanUrl (js "http://example.com/a,") = js "http://example.com/a".
Proof.
  assert (Hin : In (js "http://example.com/a,")
                   (scan_matches urlRegex 0
                      (js "Visita http://example.com/a,"))).
  { vm_compute. left. reflexivity. }
  split; [exact Hin|]. split.
  - exact (proj1 (proj2 (proj2 linkify_strips_trailing_punctuation)
                    (js "Visita http://example.com/a,")
                    (js "http://example.com/a,") Hin)).
  - reflexivity.
Defined.

End Linkify.

(* ================================================================= *)
(** ** Telephone numbers *)

Section Phones.

Lemma digit_not_space c : is_digit c = true -> is_white_space c = false.
Proof.
  unfold is_digit, is_white_space.
  rewrite andb_true_iff, !N.leb_le. intros [H1 H2].
  repeat (apply orb_false_iff; split);
    try (apply andb_false_iff; rewrite !N.leb_gt; lia);
    apply N.eqb_neq; lia.
Qed.

Lemma space_not_digit c : is_white_space c = true -> is_digit c = false.
Proof.
  intros H. destruct (is_digit c) eqn:Hd; [|reflexivity].
  rewrite (digit_not_space c Hd) in H. discriminate.
Qed.

Lemma digit_group_inv g :
  digit_group g = true ->
  (exists a b c, g = [a; b; c]
     /\ is_digit a = true /\ is_digit b = true /\ is_digit c = true)
  \/ (exists a b c d, g = [a; b; c; d]
     /\ is_digit a = true /\ is_digit b = true /\ is_digit c = true
     /\ is_digit d = true).
Proof.
  unfold digit_group. rewrite !andb_true_iff.
  intros [[Hall Hlo] Hhi].
  apply Nat.leb_le in Hlo, Hhi.
  destruct g as [|a [|b [|c [|d [|e g]]]]]; simpl in *; try lia.
  - left. exists a, b, c.
    rewrite !andb_true_iff in Hall. tauto.
  - right. exists a, b, c, d.
    rewrite !andb_true_iff in Hall. tauto.
Qed.

Lemma separator_inv s :
  separator s = true ->
  s = [] \/ exists x, s = [x] /\ is_white_space x = true.
Proof.
  destruct s as [|x [|y s]]; simpl; intros H;
    [left; reflexivity | right; exists x; auto | discriminate].
Qed.

Lemma classify_same c : same_phone_class c (classify c).
Proof.
  unfold same_phone_class, classify.
  destruct (is_digit c) eqn:Hd.
  - rewrite (digit_not_space c Hd). split; reflexivity.
  - destruct (is_white_space c); split; reflexivity.
Qed.

Lemma classify_all (s : jsstring) :
  Forall2 same_phone_class s (List.map classify s).
Proof.
  induction s as [|c s IH]; constructor; [apply classify_same|exact IH].
Qed.

Lemma phoneRegex_respects : respects same_phone_class phoneRegex.
Proof.
  unfold phoneRegex, same_phone_class. simpl.
  repeat split; intros c c' [Hd Hw]; assumption.
Qed.

Lemma classify_digit c : is_digit c = true -> classify c = 48%N.
Proof. intros H. unfold classify. rewrite H. reflexivity. Qed.

Lemma classify_space c : is_white_space c = true -> classify c = 32%N.
Proof.
  intros H. unfold classify. rewrite (space_not_digit c H), H. reflexivity.
Qed.

(** On a text of the shape, the pattern matches the whole text. *)
Lemma exec_phone_shape g1 s1 g2 s2 g3 :
  digit_group g1 = true -> separator s1 = true ->
  digit_group g2 = true -> separator s2 = true ->
  digit_group g3 = true ->
  exec phoneRegex (g1 ++ s1 ++ g2 ++ s2 ++ g3)
  = Some (g1 ++ s1 ++ g2 ++ s2 ++ g3, []).
Proof.
  intros H1 Hs1 H2 Hs2 H3.
  apply (exec_whole_respects same_phone_class phoneRegex _
           (List.map classify (g1 ++ s1 ++ g2 ++ s2 ++ g3))
           phoneRegex_respects (classify_all _)).
  apply digit_group_inv in H1, H2, H3.
  apply separator_inv in Hs1, Hs2.
  destruct H1 as [(a1 & b1 & c1 & -> & Ha1 & Hb1 & Hc1)
                 |(a1 & b1 & c1 & d1 & -> & Ha1 & Hb1 & Hc1 & Hd1)];
  destruct H2 as [(a2 & b2 & c2 & -> & Ha2 & Hb2 & Hc2)
                 |(a2 & b2 & c2 & d2 & -> & Ha2 & Hb2 & Hc2 & Hd2)];
  destruct H3 as [(a3 & b3 & c3 & -> & Ha3 & Hb3 & Hc3)
                 |(a3 & b3 & c3 & d3 & -> & Ha3 & Hb3 & Hc3 & Hd3)];
  destruct Hs1 as [-> | (x1 & -> & Hx1)];
  destruct Hs2 as [-> | (x2 & -> & Hx2)];
  cbn [app List.map];
  repeat match goal with
         | H : is_digit ?c = true |- _ =>
             rewrite (classify_digit c H); clear H
         | H : is_white_space ?c = true |- _ =>
             rewrite (classify_space c H); clear H
         end;
  vm_compute; reflexivity.
Qed.

(** What the other patterns need in a match. *)
Lemma url_requires_h w rest :
  matches urlRegex w rest -> existsb (N.eqb 104) w = true.
Proof.
  unfold urlRegex. cbn [lit js fold_right List.map list_ascii_of_string].
  intros (w1 & w2 & -> & (a & b & -> & (c & -> & Hc) & _) & _).
  cbn [existsb app]. change (N_of_ascii "h") with 104%N in Hc.
  rewrite Hc. reflexivity.
Qed.

Lemma time_requires_colon w rest :
  matches timeRegex w rest -> existsb (N.eqb 58) w = true.
Proof.
  unfold timeRegex.
  intros (w1 & w2 & -> & _ & (a & b & -> & (c & -> & Hc) & _)).
  rewrite existsb_app. cbn [existsb app]. rewrite Hc. apply orb_true_r.
Qed.

Lemma prontoSoccorso_requires_r w rest :
  matches prontoSoccorsoRegex w rest ->
  existsb (fun c => (canonicalize c =? 82)%N) w = true.
Proof.
  unfold prontoSoccorsoRegex.
  cbn [lit_ci js fold_right List.map list_ascii_of_string].
  intros (w1 & w2 & -> & (c1 & -> & _)
          & (w3 & w4 & -> & (c2 & -> & Hc) & _)).
  cbn [existsb app]. cbn beta in Hc.
  change (canonicalize (N_of_ascii "r")) with 82%N in Hc.
  rewrite Hc. apply orb_true_r.
Qed.

Lemma cup_requires_C w rest :
  matches cupRegex w rest -> existsb (N.eqb 67) w = true.
Proof.
  unfold cupRegex. cbn [lit js fold_right List.map list_ascii_of_string].
  intros (w1 & w2 & -> & (c & -> & Hc) & _).
  cbn [existsb app]. change (N_of_ascii "C") with 67%N in Hc.
  rewrite Hc. reflexivity.
Qed.

(** Every match of the phone pattern has the shape. *)
Lemma phone_match_shape w rest : matches phoneRegex w rest -> phone_shape w.
Proof.
  unfold phoneRegex. simpl.
  intros (g1 & w1 & -> & (Hg1 & Hlo1 & Hhi1)
          & (s1 & w2 & -> & (Hs1 & _ & Hs1')
             & (g2 & w3 & -> & (Hg2 & Hlo2 & Hhi2)
                & (s2 & g3 & -> & (Hs2 & _ & Hs2')
                   & (Hg3 & Hlo3 & Hhi3))))).
  exists g1, s1, g2, s2, g3.
  split; [reflexivity|].
  unfold digit_group.
  rewrite Hg1, Hg2, Hg3.
  repeat match goal with
         | H : (_ <= _)%nat |- _ => apply Nat.leb_le in H; rewrite H; clear H
         end.
  repeat split.
  - destruct s1 as [|x [|y s1]]; simpl in *; try lia; auto.
    apply andb_true_iff in Hs1. apply Hs1.
  - destruct s2 as [|x [|y s2]]; simpl in *; try lia; auto.
    apply andb_true_iff in Hs2. apply Hs2.
Qed.

Lemma count_digits_app (a b : jsstring) :
  count_digits (a ++ b) = count_digits a + count_digits b.
Proof. unfold count_digits. rewrite filter_app, length_app. reflexivity. Qed.

Lemma count_digits_all (g : jsstring) :
  forallb is_digit g = true -> count_digits g = length g.
Proof.
  unfold count_digits. induction g as [|c g IH]; simpl; [reflexivity|].
  intros H. apply andb_true_iff in H. destruct H as [Hc Hg].
  rewrite Hc. simpl. rewrite (IH Hg). reflexivity.
Qed.

Lemma phone_match_nine_digits w rest :
  matches phoneRegex w rest -> 9 <= count_digits w.
Proof.
  unfold phoneRegex. simpl.
  intros (g1 & w1 & -> & (Hg1 & Hlo1 & _)
          & (s1 & w2 & -> & _
             & (g2 & w3 & -> & (Hg2 & Hlo2 & _)
                & (s2 & g3 & -> & _ & (Hg3 & Hlo3 & _))))).
  rewrite !count_digits_app.
  rewrite (count_digits_all g1 Hg1), (count_digits_all g2 Hg2),
    (count_digits_all g3 Hg3).
  lia.
Qed.

Lemma few_digits_no_phone : forall text : jsstring,
  count_digits text < 9 -> matches_somewhere phoneRegex text = false.
Proof.
  induction text as [|c text IH]; intros Hlt; cbn [matches_somewhere].
  - reflexivity.
  - destruct (exec phoneRegex (c :: text)) as [[w rest]|] eqn:Hex.
    + destruct (exec_sound _ _ _ _ Hex) as [Heq Hm].
      apply phone_match_nine_digits in Hm.
      rewrite Heq, count_digits_app in Hlt. lia.
    + apply IH.
      change (c :: text) with ([c] ++ text) in Hlt.
      rewrite count_digits_app in Hlt. lia.
Qed.

(** The code units of a text of the shape are digits and white space. *)
Lemma phone_shape_chars w :
  phone_shape w ->
  forallb (fun c => is_digit c || is_white_space c) w = true.
Proof.
  intros (g1 & s1 & g2 & s2 & g3 & -> & H1 & Hs1 & H2 & Hs2 & H3).
  assert (Hg : forall g, digit_group g = true ->
               forallb (fun c => is_digit c || is_white_space c) g = true).
  { intros g Hg. unfold digit_group in Hg.
    rewrite !andb_true_iff in Hg. destruct Hg as [[Hg _] _].
    rewrite forallb_forall in *. intros c Hc. rewrite (Hg c Hc). reflexivity. }
  assert (Hs : forall s0, separator s0 = true ->
               forallb (fun c => is_digit c || is_white_space c) s0 = true).
  { intros [|x [|y s0]] Hsep; simpl in *; try discriminate; auto.
    rewrite Hsep. rewrite orb_true_r. reflexivity. }
  rewrite !forallb_app, (Hg _ H1), (Hg _ H2), (Hg _ H3), (Hs _ Hs1),
    (Hs _ Hs2).
  reflexivity.
Qed.

Lemma existsb_none (q p : char16 -> bool) (s : jsstring) :
  (forall c, p c = true -> q c = false) ->
  forallb p s = true -> existsb q s = false.
Proof.
  intros Hpq. induction s as [|c s IH]; simpl; [reflexivity|].
  intros H. apply andb_true_iff in H. destruct H as [Hc Hs].
  rewrite (Hpq c Hc), (IH Hs). reflexivity.
Qed.

(** A digit or a white space code unit is none of the code units that the
    other patterns need. *)
Lemma digit_or_space_plain c :
  is_digit c || is_white_space c = true ->
  (104 =? c)%N = false /\ (58 =? c)%N = false /\ (67 =? c)%N = false
  /\ (canonicalize c =? 82)%N = false.
Proof.
  unfold is_digit, is_white_space, canonicalize.
  rewrite !orb_true_iff, !andb_true_iff, !N.eqb_eq, !N.leb_le.
  intros H.
  assert (Hc : (c <> 104 /\ c <> 58 /\ c <> 67 /\ c <> 82 /\ c <> 114)%N)
    by lia.
  destruct Hc as (H1 & H2 & H3 & H4 & H5).
  repeat split; try (apply N.eqb_neq; intros Heq; symmetry in Heq;
                     contradiction).
  destruct ((97 <=? c)%N && (c <=? 122)%N) eqn:Hlow.
  - apply andb_true_iff in Hlow. rewrite !N.leb_le in Hlow.
    apply N.eqb_neq. lia.
  - apply N.eqb_neq. exact H4.
Qed.

(** A text of the shape, on its own, comes out of the formatter wrapped
    in the phone span. *)
Lemma format_phone_shape (w : jsstring) :
  phone_shape w -> formatResponse w = phoneSpan w.
Proof.
  intros Hshape.
  pose proof (phone_shape_chars w Hshape) as Hchars.
  assert (Hplain : forall q,
             (forall c, is_digit c || is_white_space c = true -> q c = false) ->
             existsb q w = false).
  { intros q Hq. exact (existsb_none q _ w Hq Hchars). }
  destruct Hshape as (g1 & s1 & g2 & s2 & g3 & -> & H1 & Hs1 & H2 & Hs2 & H3).
  pose proof (exec_phone_shape g1 s1 g2 s2 g3 H1 Hs1 H2 Hs2 H3) as Hex.
  set (w := g1 ++ s1 ++ g2 ++ s2 ++ g3) in *.
  unfold formatResponse.
  assert (Hlink : linkify w = w).
  { apply replace_global_id.
    apply (matches_somewhere_requires urlRegex (N.eqb 104) url_requires_h).
    apply Hplain. intros c Hc. apply (digit_or_space_plain c Hc). }
  rewrite Hlink.
  assert (Hphone : highlightPhones w = phoneSpan w).
  { unfold highlightPhones.
    destruct w as [|c w'] eqn:Hw.
    - vm_compute in Hex. discriminate.
    - rewrite (replace_global_match phoneRegex phoneSpan _ c w' [] Hex).
      rewrite replace_global_nil by reflexivity. apply app_nil_r. }
  rewrite Hphone.
  assert (Hspan : forall q,
             (forall c, is_digit c || is_white_space c = true -> q c = false) ->
             existsb q (js "<span class=" ++ [dq]
                          ++ js "font-semibold text-blue-600" ++ [dq]
                          ++ js ">") = false ->
             existsb q (js "</span>") = false ->
             existsb q (phoneSpan w) = false).
  { intros q Hq Hopen Hclose. unfold phoneSpan.
    rewrite !app_assoc. rewrite existsb_app, existsb_app.
    rewrite Hclose, (Hplain q Hq).
    rewrite <- !app_assoc, Hopen. reflexivity. }
  assert (Htime : highlightTimes (phoneSpan w) = phoneSpan w).
  { apply replace_global_id.
    apply (matches_somewhere_requires timeRegex (N.eqb 58)
             time_requires_colon).
    apply Hspan; [|reflexivity|reflexivity].
    intros c Hc. apply (digit_or_space_plain c Hc). }
  rewrite Htime.
  assert (Hps : annotateProntoSoccorso (phoneSpan w) = phoneSpan w).
  { apply replace_global_id.
    apply (matches_somewhere_requires prontoSoccorsoRegex
             (fun c => (canonicalize c =? 82)%N)
             prontoSoccorso_requires_r).
    apply Hspan; [|reflexivity|reflexivity].
    intros c Hc. apply (digit_or_space_plain c Hc). }
  rewrite Hps.
  apply replace_global_id.
  apply (matches_somewhere_requires cupRegex (N.eqb 67) cup_requires_C).
  apply Hspan; [|reflexivity|reflexivity].
  intros c Hc. apply (digit_or_space_plain c Hc).
Qed.


End Phones.

(* ================================================================= *)
(** ** Keywords *)

(** An occurrence of a keyword in a text.  The pattern [r] matches the texts
    of [P], which are not empty and cannot overlap: the scan then replaces
    each of them, whatever stands before and after. *)
Section Occurrence.

Variable r : regex.
Variable f : jsstring -> jsstring.
Variable P : jsstring -> Prop.

Hypothesis exec_iff :
  forall s w rest : jsstring,
    exec r s = Some (w, rest) <-> s = w ++ rest /\ P w.
Hypothesis P_not_nil : ~ P [].
Hypothesis P_no_overlap :
  forall (a : jsstring) x (t w' : jsstring),
    P (a ++ x :: t) -> P (x :: w') -> a = [].

Lemma occurrence_exec_nil : exec r [] = None.
Proof.
  destruct (exec r []) as [[w rest]|] eqn:Hex; [|reflexivity].
  apply exec_iff in Hex. destruct Hex as [Heq HP].
  symmetry in Heq. apply app_eq_nil in Heq. destruct Heq as [-> _].
  contradiction.
Qed.

Lemma replace_scan_occurrence (w post : jsstring) :
  P w ->
  forall (pre : jsstring) k,
    k <= length pre ->
    replace_scan r f k (pre ++ w ++ post)
    = replace_scan r f k pre ++ f w ++ replace_scan r f 0 post.
Proof.
  intros HP.
  destruct w as [|x w']; [contradiction|].
  assert (Hw : exec r ((x :: w') ++ post) = Some (x :: w', post)).
  { apply exec_iff. auto. }
  remember ((x :: w') ++ post) as Z eqn:HZ.
  induction pre as [|c pre IH]; intros k Hk.
  - assert (k = 0) by (simpl in Hk; lia). subst k.
    cbn [app]. rewrite HZ. cbn [app replace_scan].
    rewrite HZ in Hw. cbn [app] in Hw.
    rewrite Hw, occurrence_exec_nil.
    pose proof (replace_scan_skip r f w' post) as Hskip.
    rewrite Hskip. reflexivity.
  - destruct k as [|k].
    + cbn [app replace_scan].
      destruct (exec r (c :: pre ++ Z)) as [[mt rest]|] eqn:Hex.
      * apply exec_iff in Hex. destruct Hex as [Heq Hmt].
        destruct mt as [|c0 mt']; [contradiction|].
        change (c :: pre ++ Z) with ((c :: pre) ++ Z) in Heq.
        apply app_eq_app in Heq.
        destruct Heq as (l & [[Hpre Hrest] | [Hmid Hrest]]).
        -- assert (Hin : exec r (c :: pre) = Some (c0 :: mt', l)).
           { apply exec_iff. auto. }
           rewrite Hin.
           assert (Hlen : pre = mt' ++ l) by (simpl in Hpre; congruence).
           rewrite IH by (rewrite Hlen, length_app; lia).
           rewrite <- app_assoc. reflexivity.
        -- destruct l as [|y l].
           ++ rewrite app_nil_r in Hmid.
              assert (Hin : exec r (c :: pre) = Some (c0 :: mt', [])).
              { apply exec_iff. rewrite app_nil_r. auto. }
              rewrite Hin.
              assert (Hlen : pre = mt') by congruence.
              rewrite IH by (rewrite Hlen; lia).
              rewrite <- app_assoc. reflexivity.
           ++ exfalso.
              assert (y = x) by (rewrite HZ in Hrest; simpl in Hrest;
                                 congruence).
              subst y. rewrite Hmid in Hmt.
              pose proof (P_no_overlap (c :: pre) x l w' Hmt HP).
              discriminate.
      * destruct (exec r (c :: pre)) as [[mt l]|] eqn:Hin.
        -- exfalso. apply exec_iff in Hin. destruct Hin as [Heq Hmt].
           assert (Hsome : exec r (c :: pre ++ Z) = Some (mt, l ++ Z)).
           { apply exec_iff. split; [|exact Hmt].
             change (c :: pre ++ Z) with ((c :: pre) ++ Z).
             rewrite Heq, <- app_assoc. reflexivity. }
           congruence.
        -- rewrite IH by lia. reflexivity.
    + cbn [app replace_scan]. apply IH. simpl in Hk. lia.
Qed.

Lemma replace_global_occurrence (pre w post : jsstring) :
  P w ->
  replace_global r f (pre ++ w ++ post)
  = replace_global r f pre ++ f w ++ replace_global r f post.
Proof.
  intros HP. unfold replace_global.
  apply replace_scan_occurrence; [exact HP|lia].
Qed.

End Occurrence.

Section Keywords.

Lemma app_eq_same_length (a b a' b' : jsstring) :
  a ++ b = a' ++ b' -> length a = length a' -> a = a' /\ b = b'.
Proof.
  revert a'. induction a as [|x a IH]; intros [|x' a'] Heq Hlen;
    simpl in *; try discriminate; auto.
  injection Heq as -> Heq. injection Hlen as Hlen.
  destruct (IH a' Heq Hlen) as [-> ->]. auto.
Qed.

(** A pattern whose matches are the texts of [P], all of one length, is
    run by [exec] as a test of [P] on the head of the input. *)
Lemma exec_iff_matches r (P : jsstring -> Prop) :
  (forall w rest, matches r w rest <-> P w) ->
  (forall w1 w2, P w1 -> P w2 -> length w1 = length w2) ->
  forall s w rest : jsstring,
    exec r s = Some (w, rest) <-> s = w ++ rest /\ P w.
Proof.
  intros Hm Hlen s w rest. split.
  - intros Hex. destruct (exec_sound _ _ _ _ Hex) as [Heq Hmw].
    split; [exact Heq|]. apply (Hm w rest). exact Hmw.
  - intros [-> HP].
    pose proof (exec_complete r w rest (proj2 (Hm w rest) HP)) as Hc.
    destruct (exec r (w ++ rest)) as [[w' rest']|] eqn:Hex;
      [|contradiction].
    destruct (exec_sound _ _ _ _ Hex) as [Heq Hmw].
    apply (Hm w' rest') in Hmw.
    destruct (app_eq_same_length w rest w' rest' Heq (Hlen _ _ HP Hmw))
      as [-> ->].
    reflexivity.
Qed.

Lemma matches_lit_ci : forall kw w rest,
  matches (lit_ci kw) w rest <-> same_casing w kw.
Proof.
  unfold same_casing.
  induction kw as [|k kw IH]; intros w rest; simpl.
  - split; [intros ->; reflexivity|].
    destruct w; [reflexivity|discriminate].
  - split.
    + intros (w1 & w2 & -> & (c & -> & Hc) & Hm).
      apply N.eqb_eq in Hc. simpl. rewrite Hc.
      f_equal. apply (IH w2 rest). exact Hm.
    + destruct w as [|c w]; [discriminate|]. simpl.
      intros Heq. injection Heq as Hc Hw.
      exists [c], w. split; [reflexivity|]. split.
      * exists c. split; [reflexivity|]. apply N.eqb_eq. exact Hc.
      * apply (IH w rest). exact Hw.
Qed.

Lemma matches_lit : forall kw w rest, matches (lit kw) w rest <-> w = kw.
Proof.
  induction kw as [|k kw IH]; intros w rest; simpl.
  - reflexivity.
  - split.
    + intros (w1 & w2 & -> & (c & -> & Hc) & Hm).
      apply N.eqb_eq in Hc. subst c. simpl.
      f_equal. apply (IH w2 rest). exact Hm.
    + intros ->. exists [k], kw. split; [reflexivity|]. split.
      * exists k. split; [reflexivity|]. apply N.eqb_refl.
      * apply (IH kw rest). reflexivity.
Qed.

Lemma same_casing_length w kw : same_casing w kw -> length w = length kw.
Proof.
  unfold same_casing. intros H.
  rewrite <- (length_map canonicalize w), H. apply length_map.
Qed.

Lemma prontoSoccorso_no_overlap (a : jsstring) x (t w' : jsstring) :
  same_casing (a ++ x :: t) (js "pronto soccorso") ->
  same_casing (x :: w') (js "pronto soccorso") ->
  a = [].
Proof.
  unfold same_casing.
  change (List.map canonicalize (js "pronto soccorso"))
    with prontoSoccorsoCanon.
  intros H1 H2.
  destruct a as [|c a]; [reflexivity|exfalso].
  simpl in H2. injection H2 as Hx _.
  rewrite map_app in H1. simpl in H1. rewrite Hx in H1.
  injection H1 as _ H1.
  apply (f_equal (existsb (N.eqb 80))) in H1.
  rewrite existsb_app in H1. cbn in H1.
  rewrite orb_true_r in H1. discriminate.
Qed.

Lemma exec_prontoSoccorso (s w rest : jsstring) :
  exec prontoSoccorsoRegex s = Some (w, rest)
  <-> s = w ++ rest /\ same_casing w (js "pronto soccorso").
Proof.
  apply (exec_iff_matches prontoSoccorsoRegex
           (fun w0 => same_casing w0 (js "pronto soccorso"))).
  - intros w0 rest0. apply matches_lit_ci.
  - intros w1 w2 H1 H2.
    rewrite (same_casing_length _ _ H1), (same_casing_length _ _ H2).
    reflexivity.
Qed.

Lemma exec_cup (s w rest : jsstring) :
  exec cupRegex s = Some (w, rest) <-> s = w ++ rest /\ w = js "CUP".
Proof.
  apply (exec_iff_matches cupRegex (fun w0 => w0 = js "CUP")).
  - intros w0 rest0. apply matches_lit.
  - intros w1 w2 -> ->. reflexivity.
Qed.

(** Every occurrence of [pronto soccorso], in any casing, is replaced. *)
Lemma annotateProntoSoccorso_occurrence (pre w post : jsstring) :
  same_casing w (js "pronto soccorso") ->
  annotateProntoSoccorso (pre ++ w ++ post)
  = annotateProntoSoccorso pre ++ prontoSoccorsoText
      ++ annotateProntoSoccorso post.
Proof.
  intros Hw. unfold annotateProntoSoccorso.
  apply (replace_global_occurrence prontoSoccorsoRegex
           (fun _ => prontoSoccorsoText)
           (fun w0 => same_casing w0 (js "pronto soccorso"))).
  - apply exec_prontoSoccorso.
  - intros H. discriminate H.
  - apply prontoSoccorso_no_overlap.
  - exact Hw.
Qed.

(** Every occurrence of [CUP] in upper case is replaced. *)
Lemma annotateCup_occurrence (pre post : jsstring) :
  annotateCup (pre ++ js "CUP" ++ post)
  = annotateCup pre ++ cupText ++ annotateCup post.
Proof.
  unfold annotateCup.
  apply (replace_global_occurrence cupRegex (fun _ => cupText)
           (fun w0 => w0 = js "CUP")).
  - apply exec_cup.
  - discriminate.
  - intros a x t w' H1 H2.
    destruct a as [|c a]; [reflexivity|exfalso].
    injection H2 as -> _. injection H1 as _ H1.
    apply (f_equal (existsb (N.eqb 67))) in H1.
    rewrite existsb_app in H1. cbn in H1.
    rewrite orb_true_r in H1. discriminate.
  - reflexivity.
Qed.

Lemma same_casing_chars (w : jsstring) (q : char16 -> bool) :
  same_casing w (js "pronto soccorso") ->
  (forall c, q c = true -> ~ In (canonicalize c) prontoSoccorsoCanon) ->
  existsb q w = false.
Proof.
  unfold same_casing.
  change (List.map canonicalize (js "pronto soccorso"))
    with prontoSoccorsoCanon.
  intros Hw Hq.
  destruct (existsb q w) eqn:He; [exfalso|reflexivity].
  apply existsb_exists in He. destruct He as (c & Hin & Hc).
  apply (Hq c Hc). rewrite <- Hw. apply in_map. exact Hin.
Qed.

Lemma no_digit_count (s : jsstring) :
  existsb is_digit s = false -> count_digits s = 0.
Proof.
  unfold count_digits. induction s as [|c s IH]; simpl; [reflexivity|].
  intros H. apply orb_false_iff in H. destruct H as [Hc Hs].
  rewrite Hc. exact (IH Hs).
Qed.

(** [pronto soccorso] alone, in any casing, comes out of the formatter as
    the glyph followed by [Pronto Soccorso]. *)
Lemma format_prontoSoccorso (w : jsstring) :
  same_casing w (js "pronto soccorso") ->
  formatResponse w = prontoSoccorsoText.
Proof.
  intros Hw. unfold formatResponse.
  assert (Hlink : linkify w = w).
  { apply replace_global_id.
    apply (matches_somewhere_requires urlRegex (N.eqb 104) url_requires_h).
    apply (same_casing_chars w _ Hw).
    intros c Hc. apply N.eqb_eq in Hc. subst c.
    vm_compute. intuition discriminate. }
  rewrite Hlink.
  assert (Hdigit : existsb is_digit w = false).
  { apply (same_casing_chars w _ Hw).
    intros c Hc. unfold is_digit in Hc.
    apply andb_true_iff in Hc. rewrite !N.leb_le in Hc.
    unfold canonicalize.
    replace ((97 <=? c)%N && (c <=? 122)%N) with false
      by (symmetry; apply andb_false_iff; left; apply N.leb_gt; lia).
    unfold prontoSoccorsoCanon. simpl. intros H.
    repeat (destruct H as [H|H]; [lia|]). exact H. }
  assert (Hphone : highlightPhones w = w).
  { apply replace_global_id. apply few_digits_no_phone.
    rewrite (no_digit_count w Hdigit). lia. }
  rewrite Hphone.
  assert (Htime : highlightTimes w = w).
  { apply replace_global_id.
    apply (matches_somewhere_requires timeRegex (N.eqb 58)
             time_requires_colon).
    apply (same_casing_chars w _ Hw).
    intros c Hc. apply N.eqb_eq in Hc. subst c.
    vm_compute. intuition discriminate. }
  rewrite Htime.
  pose proof (annotateProntoSoccorso_occurrence [] w [] Hw) as Hps.
  rewrite app_nil_r in Hps. cbn [app] in Hps. rewrite Hps.
  vm_compute. reflexivity.
Qed.


End Keywords.

(* ================================================================= *)
(** ** The order of the steps *)

(** A later step of the formatter, with a pattern [r] that accepts neither
    an angle bracket nor a double quote and matches nowhere in the fixed
    parts of the anchor: it finds in the output of [linkify] only what it
    finds in the input. *)
Section LaterStep.

Variable r : regex.

Hypothesis rejects_lt : rejects r 60%N = true.
Hypothesis rejects_gt : rejects r 62%N = true.
Hypothesis rejects_dq : rejects r dq = true.
Hypothesis r_end_free : end_free r = true.
Hypothesis no_match_open :
  matches_somewhere r (anchorOpen ++ [dq]) = false.
Hypothesis no_match_mid :
  matches_somewhere r (anchorMid ++ [62%N]) = false.
Hypothesis no_match_close :
  matches_somewhere r (anchorClose ++ [62%N]) = false.

Lemma anchor_pieces (c L : jsstring) :
  anchor c ++ L
  = anchorOpen ++ dq :: (c ++ dq :: (anchorMid ++ 62%N
      :: (c ++ 60%N :: (anchorClose ++ 62%N :: L)))).
Proof.
  unfold anchor, anchorOpen, anchorMid, anchorClose.
  repeat rewrite <- app_assoc. reflexivity.
Qed.

Lemma matches_somewhere_anchor (c L : jsstring) :
  matches_somewhere r (c ++ [dq]) = false ->
  matches_somewhere r (c ++ [60%N]) = false ->
  matches_somewhere r L = false ->
  matches_somewhere r (anchor c ++ L) = false.
Proof.
  intros Hdq Hlt HL.
  rewrite anchor_pieces.
  rewrite (matches_somewhere_stop r dq _ rejects_dq anchorOpen).
  rewrite no_match_open. cbn [orb].
  rewrite (matches_somewhere_stop r dq _ rejects_dq c).
  rewrite Hdq. cbn [orb].
  rewrite (matches_somewhere_stop r 62%N _ rejects_gt anchorMid).
  rewrite no_match_mid. cbn [orb].
  rewrite (matches_somewhere_stop r 60%N _ rejects_lt c).
  rewrite Hlt. cbn [orb].
  rewrite (matches_somewhere_stop r 62%N _ rejects_gt anchorClose).
  rewrite no_match_close. cbn [orb].
  exact HL.
Qed.

(** The output of [linkify] is the input up to the first anchor. *)
Lemma linkify_prefix : forall s : jsstring,
  linkify s = s
  \/ exists u Y X, s = u ++ Y /\ linkify s = u ++ 60%N :: X.
Proof.
  induction s as [|c s IH]; [left; reflexivity|].
  destruct (exec urlRegex (c :: s)) as [[[|c0 w] rest]|] eqn:Hex.
  - exfalso. exact (exec_not_empty urlRegex _ _ eq_refl Hex).
  - right. exists [], (c :: s).
    rewrite (linkify_match _ _ _ _ Hex).
    eexists. split; [reflexivity|].
    unfold anchor. cbn [app js List.map list_ascii_of_string].
    reflexivity.
  - unfold linkify in *. rewrite (replace_global_step _ _ _ _ Hex).
    destruct IH as [IH | (u & Y & X & Hs & IH)].
    + left. rewrite IH. reflexivity.
    + right. exists (c :: u), Y, X. rewrite IH, Hs. auto.
Qed.

Lemma no_match_before (x : char16) (u Y : jsstring) :
  rejects r x = true ->
  matches_somewhere r (u ++ Y) = false ->
  matches_somewhere r (u ++ [x]) = false.
Proof.
  intros Hx HY.
  destruct (matches_somewhere r (u ++ [x])) eqn:H; [|reflexivity].
  rewrite (matches_somewhere_mono r x Y Hx r_end_free u H) in HY.
  discriminate.
Qed.

(** The step finds nothing in the output of [linkify] when it finds
    nothing in the input. *)
Lemma linkify_adds_no_match : forall n (text : jsstring),
  length text <= n ->
  matches_somewhere r text = false ->
  matches_somewhere r (linkify text) = false.
Proof.
  induction n as [|n IH]; intros text Hlen Hno.
  - destruct text; [exact Hno|simpl in Hlen; lia].
  - destruct text as [|c text]; [exact Hno|].
    destruct (exec urlRegex (c :: text)) as [[[|c0 w] rest]|] eqn:Hex.
    + exfalso. exact (exec_not_empty urlRegex _ _ eq_refl Hex).
    + rewrite (linkify_match _ _ _ _ Hex).
      destruct (exec_sound _ _ _ _ Hex) as [Heq _].
      destruct (cleanUrl_removes_punct (c0 :: w)) as (p & Hp & _).
      assert (Htext : c :: text = cleanUrl (c0 :: w) ++ p ++ rest).
      { rewrite app_assoc, <- Hp. exact Heq. }
      apply matches_somewhere_anchor.
      * apply (no_match_before dq _ (p ++ rest) rejects_dq).
        rewrite <- Htext. exact Hno.
      * apply (no_match_before 60%N _ (p ++ rest) rejects_lt).
        rewrite <- Htext. exact Hno.
      * apply IH.
        -- assert (Hl : length (c :: text) = length (c0 :: w) + length rest)
             by (rewrite Heq, length_app; reflexivity).
           simpl in Hl, Hlen. lia.
        -- apply (matches_somewhere_suffix r (c0 :: w)).
           rewrite <- Heq. exact Hno.
    + unfold linkify at 1. rewrite (replace_global_step _ _ _ _ Hex).
      fold (linkify text).
      assert (Htail : matches_somewhere r (linkify text) = false).
      { apply IH; [simpl in Hlen; lia|].
        apply (matches_somewhere_suffix r [c]). exact Hno. }
      cbn [matches_somewhere] in Hno |- *.
      destruct (exec r (c :: text)) eqn:Hhere; [discriminate|].
      destruct (linkify_prefix text) as [Hid | (u & Y & X & Hs & Hl)].
      * rewrite Hid, Hhere. rewrite <- Hid. exact Htail.
      * rewrite Hl in Htail |- *.
        change (c :: u ++ 60%N :: X) with ((c :: u) ++ 60%N :: X).
        rewrite (exec_stop r 60%N X (c :: u) rejects_lt).
        destruct (exec r ((c :: u) ++ [60%N])) eqn:Hstop; [|exact Htail].
        exfalso.
        apply (exec_mono r 60%N (c :: u) Y rejects_lt r_end_free).
        -- rewrite Hstop. discriminate.
        -- simpl. rewrite <- Hs. exact Hhere.
Qed.

End LaterStep.

(** A step whose pattern accepts no angle bracket copies as it is a tag pair
    in which it matches nowhere. *)
Section SpanKept.

Variable r : regex.
Variable f : jsstring -> jsstring.

Hypothesis rejects_lt : rejects r 60%N = true.
Hypothesis rejects_gt : rejects r 62%N = true.
Hypothesis r_end_free : end_free r = true.
Hypothesis r_not_nullable : nullable r = false.

Lemma replace_global_span (pre body post : jsstring) :
  matches_somewhere r (body ++ [62%N]) = false ->
  replace_global r f (pre ++ (60%N :: body ++ [62%N]) ++ post)
  = replace_global r f pre ++ (60%N :: body ++ [62%N])
      ++ replace_global r f post.
Proof.
  intros Hbody.
  replace (pre ++ (60%N :: body ++ [62%N]) ++ post)
    with (pre ++ 60%N :: (body ++ 62%N :: post))
    by (simpl; rewrite <- app_assoc; reflexivity).
  rewrite (replace_global_stop r f 60%N pre _ rejects_lt r_not_nullable).
  rewrite (replace_global_stop_nil r f 60%N pre rejects_lt r_end_free
             r_not_nullable).
  rewrite (replace_global_stop r f 62%N body _ rejects_gt r_not_nullable).
  rewrite (replace_global_id r f _ Hbody).
  simpl. repeat rewrite <- app_assoc. reflexivity.
Qed.

End SpanKept.

Section Order.

Lemma phone_no_match_in_linkify (text : jsstring) :
  matches_somewhere phoneRegex text = false ->
  matches_somewhere phoneRegex (linkify text) = false.
Proof.
  apply (linkify_adds_no_match phoneRegex) with (n := length text);
    try reflexivity; apply Nat.le_refl.
Qed.

Lemma time_no_match_in_linkify (text : jsstring) :
  matches_somewhere timeRegex text = false ->
  matches_somewhere timeRegex (linkify text) = false.
Proof.
  apply (linkify_adds_no_match timeRegex) with (n := length text);
    try reflexivity; apply Nat.le_refl.
Qed.

Lemma prontoSoccorso_no_match_in_linkify (text : jsstring) :
  matches_somewhere prontoSoccorsoRegex text = false ->
  matches_somewhere prontoSoccorsoRegex (linkify text) = false.
Proof.
  apply (linkify_adds_no_match prontoSoccorsoRegex) with (n := length text);
    try reflexivity; apply Nat.le_refl.
Qed.

Lemma cup_no_match_in_linkify (text : jsstring) :
  matches_somewhere cupRegex text = false ->
  matches_somewhere cupRegex (linkify text) = false.
Proof.
  apply (linkify_adds_no_match cupRegex) with (n := length text);
    try reflexivity; apply Nat.le_refl.
Qed.

Lemma group_char_plain c :
  is_group_char c = true ->
  (67 =? c)%N = false /\ (canonicalize c =? 82)%N = false.
Proof.
  unfold is_group_char. intros H.
  apply orb_true_iff in H. destruct H as [H|H].
  - destruct (digit_or_space_plain c H) as (_ & _ & H3 & H4). auto.
  - apply N.eqb_eq in H. subst c. split; reflexivity.
Qed.

(** The inside of a span around a group, from after the first angle
    bracket to before the last. *)
Lemma keyword_free_span (q : char16 -> bool) (open close g : jsstring) :
  (forall c, is_group_char c = true -> q c = false) ->
  existsb q open = false -> existsb q close = false -> q 62%N = false ->
  forallb is_group_char g = true ->
  existsb q ((open ++ g ++ close) ++ [62%N]) = false.
Proof.
  intros Hq Ho Hc Hgt Hg.
  rewrite !existsb_app, Ho, Hc, (existsb_none q _ g Hq Hg).
  simpl. rewrite Hgt. reflexivity.
Qed.

Lemma annotateKeywords_span (open close pre g post : jsstring) :
  existsb (fun c => (canonicalize c =? 82)%N) open = false ->
  existsb (fun c => (canonicalize c =? 82)%N) close = false ->
  existsb (N.eqb 67) open = false ->
  existsb (N.eqb 67) close = false ->
  forallb is_group_char g = true ->
  annotateKeywords (pre ++ (60%N :: (open ++ g ++ close) ++ [62%N]) ++ post)
  = annotateKeywords pre ++ (60%N :: (open ++ g ++ close) ++ [62%N])
      ++ annotateKeywords post.
Proof.
  intros Ho1 Hc1 Ho2 Hc2 Hg.
  unfold annotateKeywords, annotateProntoSoccorso, annotateCup.
  rewrite (replace_global_span prontoSoccorsoRegex _ eq_refl eq_refl eq_refl
             eq_refl pre (open ++ g ++ close) post).
  - rewrite (replace_global_span cupRegex _ eq_refl eq_refl eq_refl eq_refl
               _ (open ++ g ++ close) _).
    + reflexivity.
    + apply (matches_somewhere_requires cupRegex (N.eqb 67) cup_requires_C).
      apply keyword_free_span; auto.
      intros c Hc. apply (group_char_plain c Hc).
  - apply (matches_somewhere_requires prontoSoccorsoRegex
             (fun c => (canonicalize c =? 82)%N) prontoSoccorso_requires_r).
    apply keyword_free_span; auto.
    intros c Hc. apply (group_char_plain c Hc).
Qed.

(** C3, counterexample: digits shaped as a telephone number, a time and a
    keyword, each inside a URL.  The later steps match them inside the
    link target that [linkify] has written, and the span or the glyph
    ends up inside the [href]. *)
Lemma later_steps_rewrite_link_targets :
  linkify (js "http://ulss.it/0458071111")
  = anchor (js "http://ulss.it/0458071111")
  /\ formatResponse (js "http://ulss.it/0458071111")
     = anchor (js "http://ulss.it/" ++ phoneSpan (js "0458071111"))
  /\ formatResponse (js "http://ulss.it/orari/8:30")
     = anchor (js "http://ulss.it/orari/" ++ timeSpan (js "8:30"))
  /\ formatResponse (js "http://ulss.it/CUP")
     = anchor (js "http://ulss.it/" ++ cupText).
Proof. repeat split; vm_compute; reflexivity. Qed.

End Order.

(* ================================================================= *)
(** ** The session over time *)

Section SessionInvariants.

Arguments formatResponse : simpl never.

(** Runs [chiedi_resume] through the cases of the reply. *)
Ltac resume_cases o st :=
  let status := fresh "status" in
  let body := fresh "body" in
  let ok := fresh "Hok" in
  destruct o as [|status body];
  [| destruct (response_ok status) eqn:ok;
     [ destruct body as [|[[r|] i [|[|s0 l]|] [| |] c]] | ] ];
  destruct st as [h ve fs li sid inp nodes sq sb vf ns fz rq ut rc];
  unfold chiedi_resume, try_catch, chiedi_try, chiedi_catch, bind, modify,
    get, when, throw, ret, createAIMessage, showSuggestions, showMetrics,
    succeeds, salvaNellaStoria, leggiVoce, cap10;
  simpl; rewrite ?ok; simpl;
  repeat match goal with
         | |- context [if ?b then _ else _] => destruct b eqn:?; simpl
         end.

(** What a reply leaves as it is, and the status bar, which it hides. *)
Lemma resume_frame p o now st :
  let st' := chiedi_resume p o now st in
  voiceEnabled st' = voiceEnabled st
  /\ chatFontSize st' = chatFontSize st
  /\ isListening st' = isListening st
  /\ sessionId st' = sessionId st
  /\ voiceFeedbackShown st' = voiceFeedbackShown st
  /\ notifications st' = notifications st
  /\ requests st' = requests st
  /\ recognitions st' = recognitions st
  /\ statusBar st' = None.
Proof. resume_cases o st; repeat split; reflexivity. Qed.

Lemma start_frame st :
  let st' := fst (chiedi_start st) in
  voiceEnabled st' = voiceEnabled st
  /\ chatFontSize st' = chatFontSize st
  /\ isListening st' = isListening st
  /\ sessionId st' = sessionId st
  /\ voiceFeedbackShown st' = voiceFeedbackShown st
  /\ storicoDomande st' = storicoDomande st
  /\ utterances st' = utterances st
  /\ recognitions st' = recognitions st
  /\ domanda st' = domanda st.
Proof.
  unfold chiedi_start. destruct (trim (domanda st)); repeat split; reflexivity.
Qed.

(** Case analysis on an event, with the frames of [chiedi] at hand. *)
Ltac step_cases ev st :=
  destruct ev as [text| |q|p o now| |t f|e| | | |]; simpl;
  [ | pose proof (start_frame st) as Hf
    | pose proof (start_frame (set_domanda (field_value q) st)) as Hf
    | pose proof (resume_frame p o now st) as Hf
    | | | | | | | ].

Lemma chatFontSize_step supported st ev :
  chatFontSize (step supported st ev)
  = match ev with
    | EvAumentaFont =>
        if (chatFontSize st <? 20)%Z then (chatFontSize st + 2)%Z
        else chatFontSize st
    | EvDiminuisciFont =>
        if (chatFontSize st >? 10)%Z then (chatFontSize st - 2)%Z
        else chatFontSize st
    | _ => chatFontSize st
    end.
Proof.
  step_cases ev st; try reflexivity; try (simpl in Hf; apply Hf).
  - unfold attivaVoce. destruct supported; simpl;
      [destruct (isListening st)|]; reflexivity.
  - unfold onresult. destruct f; reflexivity.
  - unfold toggleVoiceOutput. simpl.
    destruct (negb (voiceEnabled st)); reflexivity.
  - unfold aumentaFontChat. destruct (chatFontSize st <? 20)%Z; reflexivity.
  - unfold diminuisciFontChat. destruct (chatFontSize st >? 10)%Z; reflexivity.
Qed.

(** X1.  Whatever happens to the widget, the font size of the chat is one of
    10, 12, 14, 16, 18 and 20: it starts at 14 and the two buttons move it
    by two, within the bounds. *)
Theorem font_size_stays_in_range :
  forall (supported : bool) (sid : jsstring) (evs : list Event),
    let size := chatFontSize (run supported evs (initial sid)) in
    (10 <= size <= 20)%Z /\ Z.even size = true.
Proof.
  intros supported sid evs.
  assert (Hgen : forall st,
             ((10 <= chatFontSize st <= 20)%Z /\ Z.even (chatFontSize st) = true) ->
             (10 <= chatFontSize (run supported evs st) <= 20)%Z
             /\ Z.even (chatFontSize (run supported evs st)) = true).
  { induction evs as [|ev evs IH]; intros st Hst; [exact Hst|].
    simpl. apply IH. rewrite chatFontSize_step.
    destruct Hst as [Hr He].
    destruct ev; try (split; assumption).
    - destruct (chatFontSize st <? 20)%Z eqn:Hlt; [|split; assumption].
      apply Z.ltb_lt in Hlt.
      assert (Hne : chatFontSize st <> 19%Z)
        by (intros H19; rewrite H19 in He; discriminate).
      split; [lia|]. rewrite Z.even_add. rewrite He. reflexivity.
    - destruct (chatFontSize st >? 10)%Z eqn:Hgt; [|split; assumption].
      apply Z.gtb_lt in Hgt.
      assert (Hne : chatFontSize st <> 11%Z)
        by (intros H11; rewrite H11 in He; discriminate).
      split; [lia|]. rewrite Z.even_sub. rewrite He. reflexivity. }
  apply Hgen. simpl. split; [lia|reflexivity].
Qed.

(** X2.  The two font buttons undo each other away from the bounds: after
    [aumentaFontChat], [diminuisciFontChat] gives the size back when it was
    above 8 and below 20, and the other way round when it was above 10 and
    below 22; the style of [#storico] and of [#domanda] then holds that
    size, whatever it held before, and nothing else has changed.  At 20 and
    above [aumentaFontChat] changes nothing, at 10 and below
    [diminuisciFontChat] changes nothing. *)
Theorem font_buttons_undo_each_other :
  forall st : State,
    ((8 < chatFontSize st < 20)%Z ->
     diminuisciFontChat (aumentaFontChat st)
     = set_fontSizeStyle (Some (chatFontSize st)) st)
    /\ ((10 < chatFontSize st < 22)%Z ->
        aumentaFontChat (diminuisciFontChat st)
        = set_fontSizeStyle (Some (chatFontSize st)) st)
    /\ ((20 <= chatFontSize st)%Z -> aumentaFontChat st = st)
    /\ ((chatFontSize st <= 10)%Z -> diminuisciFontChat st = st).
Proof.
  intros st.
  destruct st as [h ve fs li sid inp nodes sq sb vf ns fz rq ut rc].
  unfold aumentaFontChat, diminuisciFontChat. simpl.
  split; [|split; [|split]]; intros H.
  - replace (fs <? 20)%Z with true by (symmetry; apply Z.ltb_lt; lia).
    simpl.
    replace (fs + 2 >? 10)%Z with true by (symmetry; apply Z.gtb_lt; lia).
    unfold set_fontSizeStyle, set_chatFontSize. simpl.
    replace (fs + 2 - 2)%Z with fs by lia. reflexivity.
  - replace (fs >? 10)%Z with true by (symmetry; apply Z.gtb_lt; lia).
    simpl.
    replace (fs - 2 <? 20)%Z with true by (symmetry; apply Z.ltb_lt; lia).
    unfold set_fontSizeStyle, set_chatFontSize. simpl.
    replace (fs - 2 + 2)%Z with fs by lia. reflexivity.
  - replace (fs <? 20)%Z with false by (symmetry; apply Z.ltb_ge; lia).
    reflexivity.
  - replace (fs >? 10)%Z with false
      by (symmetry; rewrite Z.gtb_ltb; apply Z.ltb_ge; lia).
    reflexivity.
Qed.

(** X2, witness: from the size of the start, up and down again, and the
    style holds 14px; at the top the button does nothing. *)
Lemma font_buttons_undo_each_other_witness :
  diminuisciFontChat (aumentaFontChat sample_session)
  = set_fontSizeStyle (Some 14%Z) sample_session
  /\ fontSizeStyle (aumentaFontChat sample_session) = Some 16%Z
  /\ aumentaFontChat (run true [EvAumentaFont; EvAumentaFont; EvAumentaFont]
                        sample_session)
     = run true [EvAumentaFont; EvAumentaFont; EvAumentaFont] sample_session.
Proof.
  split; [|split].
  - apply (proj1 (font_buttons_undo_each_other sample_session)).
    simpl. lia.
  - reflexivity.
  - apply (proj1 (proj2 (proj2 (font_buttons_undo_each_other
             (run true [EvAumentaFont; EvAumentaFont; EvAumentaFont]
                sample_session))))).
    simpl. lia.
Defined.

Lemma listening_step_banner supported st ev :
  voiceFeedbackShown st = isListening st ->
  voiceFeedbackShown (step supported st ev)
  = isListening (step supported st ev).
Proof.
  intros Hst.
  step_cases ev st; try exact Hst;
    try (simpl in Hf; destruct Hf as (_ & _ & H3 & _ & H5 & _);
         rewrite H3, H5; exact Hst).
  - unfold attivaVoce. destruct supported; simpl; [|exact Hst].
    destruct (isListening st) eqn:Hl; [rewrite Hl; exact Hst|reflexivity].
  - unfold onresult. destruct f; [reflexivity|exact Hst].
  - reflexivity.
  - reflexivity.
  - unfold toggleVoiceOutput. simpl.
    destruct (negb (voiceEnabled st)); exact Hst.
  - unfold aumentaFontChat. destruct (chatFontSize st <? 20)%Z; exact Hst.
  - unfold diminuisciFontChat. destruct (chatFontSize st >? 10)%Z; exact Hst.
Qed.

(** X3.  The banner that tells the user that the widget is listening,
    hidden when the page is loaded, is shown exactly while the listening
    flag is set: [attivaVoce] raises both and each of the three handlers of
    the recognition lowers both. *)
Theorem listening_banner_follows_flag :
  forall (supported : bool) (sid : jsstring) (evs : list Event),
    voiceFeedbackShown (run supported evs (initial sid))
    = isListening (run supported evs (initial sid)).
Proof.
  intros supported sid evs.
  assert (Hgen : forall st,
             voiceFeedbackShown st = isListening st ->
             voiceFeedbackShown (run supported evs st)
             = isListening (run supported evs st)).
  { induction evs as [|ev evs IH]; intros st Hst; [exact Hst|].
    simpl. apply IH. apply listening_step_banner. exact Hst. }
  apply Hgen. reflexivity.
Qed.

Lemma recognitions_step supported st ev k :
  recognitions st <= k + listening_bit st ->
  recognitions (step supported st ev)
  <= k + (if is_terminal ev then 1 else 0)
     + listening_bit (step supported st ev).
Proof.
  unfold listening_bit. intros Hst.
  step_cases ev st;
    try (simpl in Hf; destruct Hf as (_ & _ & H3 & _ & _ & _ & _ & H8 & _);
         rewrite H3, H8; lia);
    try (destruct (isListening st); lia).
  - unfold attivaVoce. destruct supported; simpl;
      [|destruct (isListening st); lia].
    destruct (isListening st) eqn:Hl; simpl; [rewrite Hl|]; lia.
  - unfold onresult. destruct f; simpl; destruct (isListening st); lia.
  - unfold toggleVoiceOutput. simpl.
    destruct (negb (voiceEnabled st)); simpl; destruct (isListening st); lia.
  - unfold aumentaFontChat.
    destruct (chatFontSize st <? 20)%Z; simpl; destruct (isListening st); lia.
  - unfold diminuisciFontChat.
    destruct (chatFontSize st >? 10)%Z; simpl; destruct (isListening st); lia.
Qed.

(** X4.  A capture session is started only when the one before it has
    reported a final result, an error or its end: the sessions started never
    outnumber those events by more than the one that is listening. *)
Theorem captures_bounded_by_endings :
  forall (supported : bool) (sid : jsstring) (evs : list Event),
    let st := run supported evs (initial sid) in
    recognitions st
    <= terminal_events evs + (if isListening st then 1 else 0).
Proof.
  intros supported sid evs.
  assert (Hgen : forall st k,
             recognitions st <= k + listening_bit st ->
             recognitions (run supported evs st)
             <= k + terminal_events evs
                + listening_bit (run supported evs st)).
  { induction evs as [|ev evs IH]; intros st k Hst.
    - simpl. unfold terminal_events. simpl. lia.
    - simpl. pose proof (recognitions_step supported st ev k Hst) as Hs.
      pose proof (IH _ _ Hs) as Hr.
      unfold terminal_events in *. simpl.
      destruct (is_terminal ev); simpl in *; lia. }
  simpl. apply (Hgen (initial sid) 0). simpl. lia.
Qed.

Lemma dropWhile_hd p s :
  match dropWhile p s with
  | [] => True
  | c :: _ => p c = false
  end.
Proof.
  induction s as [|c s IH]; simpl; [exact I|].
  destruct (p c) eqn:Hc; [exact IH|exact Hc].
Qed.

Lemma dropWhile_suffix p s : exists pre, s = pre ++ dropWhile p s.
Proof.
  induction s as [|c s [pre IH]]; simpl.
  - exists []. reflexivity.
  - destruct (p c).
    + exists (c :: pre). simpl. f_equal. exact IH.
    + exists []. reflexivity.
Qed.

(** What [trim] gives neither starts nor ends with white space. *)
Lemma trim_is_trimmed s : is_trimmed (trim s) = true.
Proof.
  unfold trim.
  pose proof (dropWhile_hd is_white_space s) as Hhd.
  destruct (dropWhile_suffix is_white_space
              (rev (dropWhile is_white_space s))) as [pre Hpre].
  pose proof (dropWhile_hd is_white_space
                (rev (dropWhile is_white_space s))) as Hlast.
  set (a := dropWhile is_white_space s) in *.
  set (b := dropWhile is_white_space (rev a)) in *.
  destruct b as [|c b']; [reflexivity|].
  apply (f_equal (@rev N)) in Hpre.
  rewrite rev_involutive, rev_app_distr in Hpre.
  simpl in Hpre. simpl.
  destruct (rev b' ++ [c]) as [|x t] eqn:Hx.
  - destruct (rev b'); discriminate Hx.
  - rewrite Hpre in Hhd. simpl in Hhd.
    unfold is_trimmed. rewrite Hhd. cbn [negb andb].
    rewrite <- Hx. rewrite last_last. rewrite Hlast. reflexivity.
Qed.

(** A string that neither starts nor ends with white space is left as it is
    by [trim]. *)
Lemma trim_trimmed s : is_trimmed s = true -> trim s = s.
Proof.
  destruct s as [|c s]; [reflexivity|].
  unfold is_trimmed. intros H. apply andb_true_iff in H as [Hc Hl].
  apply negb_true_iff in Hc. apply negb_true_iff in Hl.
  unfold trim. cbn [dropWhile]. rewrite Hc.
  destruct (exists_last (l := c :: s)) as (t & x & Htx); [discriminate|].
  rewrite Htx in Hl |- *. rewrite last_last in Hl.
  rewrite rev_app_distr. cbn [rev app dropWhile]. rewrite Hl.
  simpl. rewrite rev_involutive. reflexivity.
Qed.

Lemma length_cap10 l t : length l <= 10 -> length (cap10 (l ++ [t])) <= 10.
Proof.
  intros H. unfold cap10.
  destruct (10 <? length (l ++ [t])) eqn:Hlt.
  - destruct l as [|x l]; simpl in *; [lia|].
    rewrite length_app. simpl. lia.
  - apply Nat.ltb_ge in Hlt. exact Hlt.
Qed.

Lemma requests_chiedi_start st :
  requests (fst (chiedi_start st))
  = match trim (domanda st) with
    | [] => requests st
    | d => requests st ++ [mkRequest d (storicoDomande st) (sessionId st)]
    end.
Proof.
  unfold chiedi_start. destruct (trim (domanda st)); reflexivity.
Qed.

Lemma session_ok_start sid st :
  session_ok sid st -> session_ok sid (fst (chiedi_start st)).
Proof.
  intros (Hs & Hh & Hr). unfold session_ok.
  pose proof (start_frame st) as Hf. simpl in Hf.
  destruct Hf as (_ & _ & _ & H4 & _ & H6 & _).
  rewrite H4, H6, requests_chiedi_start.
  split; [exact Hs|]. split; [exact Hh|].
  destruct (trim (domanda st)) as [|c d] eqn:Ht; [exact Hr|].
  apply Forall_app. split; [exact Hr|].
  constructor; [|constructor].
  unfold request_ok. cbn [question history session_id].
  split; [discriminate|]. split; [|split; [exact Hs|exact Hh]].
  rewrite <- Ht. apply trim_is_trimmed.
Qed.

Lemma session_ok_step supported sid st ev :
  session_ok sid st -> session_ok sid (step supported st ev).
Proof.
  intros Hst.
  destruct ev as [text| |q|p o now| |t f|e| | | |]; simpl.
  - exact Hst.
  - apply session_ok_start. exact Hst.
  - apply session_ok_start. exact Hst.
  - destruct Hst as (Hs & Hh & Hr). unfold session_ok.
    pose proof (resume_frame p o now st) as Hf. simpl in Hf.
    destruct Hf as (_ & _ & _ & H4 & _ & _ & H7 & _).
    rewrite H4, H7, storicoDomande_resume.
    split; [exact Hs|]. split; [|exact Hr].
    destruct (turn_of (EvFetchDone p o now)); [|exact Hh].
    apply length_cap10. exact Hh.
  - unfold attivaVoce. destruct supported; simpl; [|exact Hst].
    destruct (isListening st); exact Hst.
  - unfold onresult. destruct f; exact Hst.
  - exact Hst.
  - exact Hst.
  - unfold toggleVoiceOutput. simpl.
    destruct (negb (voiceEnabled st)); exact Hst.
  - unfold aumentaFontChat. destruct (chatFontSize st <? 20)%Z; exact Hst.
  - unfold diminuisciFontChat. destruct (chatFontSize st >? 10)%Z; exact Hst.
Qed.

(** X5.  Every request that the widget sends to [/api/ask] carries a
    question that is not empty and has no white space at either end, the
    session id drawn when the script was loaded, and a history of at most
    ten turns. *)
Theorem every_request_is_well_formed :
  forall (supported : bool) (sid : jsstring) (evs : list Event),
    Forall (request_ok sid) (requests (run supported evs (initial sid))).
Proof.
  intros supported sid evs.
  assert (Hgen : forall st,
             session_ok sid st -> session_ok sid (run supported evs st)).
  { induction evs as [|ev evs IH]; intros st Hst; [exact Hst|].
    simpl. apply IH. apply session_ok_step. exact Hst. }
  apply (Hgen (initial sid)).
  unfold session_ok. simpl. repeat split; [lia|constructor].
Qed.

Lemma typing_ids_app a b : typing_ids (a ++ b) = typing_ids a ++ typing_ids b.
Proof.
  induction a as [|n a IH]; [reflexivity|].
  destruct n; simpl; rewrite IH; reflexivity.
Qed.

Lemma typing_ids_removed id l :
  typing_ids (filter (fun n => negb (is_typing id n)) l)
  = filter (fun j => negb (Nat.eqb id j)) (typing_ids l).
Proof.
  induction l as [|n l IH]; [reflexivity|].
  destruct n as [x|j|b x|x| |x]; simpl; try exact IH.
  destruct (Nat.eqb id j); simpl; [exact IH|]. rewrite IH. reflexivity.
Qed.

Lemma typing_ids_none l :
  forallb (fun n => negb (is_typing_node n)) l = true -> typing_ids l = [].
Proof.
  induction l as [|n l IH]; [reflexivity|].
  destruct n; simpl; try exact IH. discriminate.
Qed.

Lemma removeTyping_twice id l :
  filter (fun n => negb (is_typing id n))
         (filter (fun n => negb (is_typing id n)) l)
  = filter (fun n => negb (is_typing id n)) l.
Proof.
  induction l as [|n l IH]; [reflexivity|].
  simpl. destruct (negb (is_typing id n)) eqn:Hn; [|exact IH].
  simpl. rewrite Hn, IH. reflexivity.
Qed.

(** What a reply does to the chat: the typing indicator of its turn is
    removed, and messages that are no typing indicators are added. *)
Lemma storico_resume p o now st :
  exists added,
    storico (chiedi_resume p o now st)
    = filter (fun n => negb (is_typing (pendingTyping p) n)) (storico st)
        ++ added
    /\ forallb (fun n => negb (is_typing_node n)) added = true
    /\ added <> [].
Proof.
  resume_cases o st;
    repeat rewrite filter_app; rewrite ?removeTyping_twice; simpl;
    repeat rewrite <- app_assoc;
    eexists; (split; [reflexivity|split; [reflexivity|discriminate]]).
Qed.

Lemma storico_chiedi_start st :
  storico (fst (chiedi_start st))
  = match trim (domanda st) with
    | [] => storico st
    | d => storico st ++ [UserMsg d; TypingIndicator (length (requests st))]
    end.
Proof.
  unfold chiedi_start. destruct (trim (domanda st)); [reflexivity|].
  simpl. rewrite <- app_assoc. reflexivity.
Qed.

Lemma Forall_filter_nat (P : nat -> Prop) (f : nat -> bool) l :
  Forall P l -> Forall P (filter f l).
Proof.
  induction 1 as [|x l Hx Hl IH]; simpl; [constructor|].
  destruct (f x); [constructor; assumption|exact IH].
Qed.

Lemma typing_ok_start st : typing_ok st -> typing_ok (fst (chiedi_start st)).
Proof.
  intros (Hn & Hb). unfold typing_ok.
  rewrite storico_chiedi_start, requests_chiedi_start.
  destruct (trim (domanda st)) as [|c d]; [split; assumption|].
  rewrite typing_ids_app, length_app. simpl.
  split.
  - apply NoDup_app; [exact Hn|repeat constructor; intros []|].
    intros j Hj [Hjl|[]]. subst j.
    rewrite Forall_forall in Hb. apply Hb in Hj. lia.
  - apply Forall_app. split.
    + eapply Forall_impl; [|exact Hb]. simpl. intros; lia.
    + repeat constructor. lia.
Qed.

Lemma typing_ok_step supported st ev :
  typing_ok st -> typing_ok (step supported st ev).
Proof.
  intros Hst.
  destruct ev as [text| |q|p o now| |t f|e| | | |]; simpl.
  - exact Hst.
  - apply typing_ok_start. exact Hst.
  - apply (typing_ok_start (set_domanda (field_value q) st)). exact Hst.
  - destruct Hst as (Hn & Hb). unfold typing_ok.
    pose proof (resume_frame p o now st) as Hf. simpl in Hf.
    destruct Hf as (_ & _ & _ & _ & _ & _ & H7 & _).
    destruct (storico_resume p o now st) as (added & Hs & Ha & _).
    rewrite H7, Hs, typing_ids_app, typing_ids_removed,
      (typing_ids_none _ Ha), app_nil_r.
    split; [apply NoDup_filter|apply Forall_filter_nat]; assumption.
  - unfold attivaVoce. destruct supported; simpl; [|exact Hst].
    destruct (isListening st); exact Hst.
  - unfold onresult. destruct f; exact Hst.
  - exact Hst.
  - exact Hst.
  - unfold toggleVoiceOutput. simpl.
    destruct (negb (voiceEnabled st)); exact Hst.
  - unfold aumentaFontChat. destruct (chatFontSize st <? 20)%Z; exact Hst.
  - unfold diminuisciFontChat. destruct (chatFontSize st >? 10)%Z; exact Hst.
Qed.

(** X6.  The typing indicators of the chat belong to different requests:
    no two of them carry the same number, each number is that of a request
    already sent, so that there are never more indicators than requests. *)
Theorem typing_indicators_are_distinct :
  forall (supported : bool) (sid : jsstring) (evs : list Event),
    let st := run supported evs (initial sid) in
    NoDup (typing_ids (storico st))
    /\ Forall (fun j => j < length (requests st)) (typing_ids (storico st))
    /\ length (typing_ids (storico st)) <= length (requests st).
Proof.
  intros supported sid evs.
  assert (Hgen : forall st, typing_ok st -> typing_ok (run supported evs st)).
  { induction evs as [|ev evs IH]; intros st Hst; [exact Hst|].
    simpl. apply IH. apply typing_ok_step. exact Hst. }
  destruct (Hgen (initial sid)) as (Hn & Hb).
  { split; constructor. }
  cbv zeta. split; [exact Hn|]. split; [exact Hb|].
  set (st := run supported evs (initial sid)) in *.
  apply Nat.le_trans with (length (seq 0 (length (requests st))));
    [|rewrite length_seq; apply Nat.le_refl].
  apply NoDup_incl_length; [exact Hn|].
  intros j Hj. apply in_seq. rewrite Forall_forall in Hb.
  apply Hb in Hj. lia.
Qed.

Lemma plain_nodes_removeTyping k l :
  filter (fun n => negb (is_typing_node n))
         (filter (fun n => negb (is_typing k n)) l)
  = filter (fun n => negb (is_typing_node n)) l.
Proof.
  induction l as [|n l IH]; [reflexivity|].
  destruct n as [x|j|b x|x| |x]; simpl; rewrite ?IH; try reflexivity.
  destruct (Nat.eqb k j); simpl; exact IH.
Qed.

Lemma plain_nodes_all l :
  forallb (fun n => negb (is_typing_node n)) l = true ->
  filter (fun n => negb (is_typing_node n)) l = l.
Proof.
  induction l as [|n l IH]; [reflexivity|].
  simpl. intros H. apply andb_true_iff in H as [Hn Hl].
  rewrite Hn, (IH Hl). reflexivity.
Qed.

(** X7.  When the reply of a turn has arrived, whatever it is, the status
    bar is hidden and the typing indicator of the turn is gone; the other
    typing indicators are still there and every other message of the chat is
    kept, with at least one message added after them. *)
Theorem reply_clears_its_indicator :
  forall (p : Pending) (o : FetchOutcome) (now : jsstring) (st : State),
    let st' := chiedi_resume p o now st in
    statusBar st' = None
    /\ ~ In (TypingIndicator (pendingTyping p)) (storico st')
    /\ typing_ids (storico st')
       = filter (fun j => negb (Nat.eqb (pendingTyping p) j))
                (typing_ids (storico st))
    /\ (forall n, In n (storico st) ->
                  n <> TypingIndicator (pendingTyping p) ->
                  In n (storico st'))
    /\ length (filter (fun n => negb (is_typing_node n)) (storico st))
       < length (filter (fun n => negb (is_typing_node n)) (storico st')).
Proof.
  intros p o now st. simpl.
  destruct (storico_resume p o now st) as (added & Hs & Ha & Hne).
  split; [apply (resume_frame p o now st)|].
  rewrite Hs. split; [|split; [|split]].
  - intros Hin. apply in_app_or in Hin as [Hin|Hin].
    + apply filter_In in Hin as [_ Hf]. simpl in Hf.
      rewrite Nat.eqb_refl in Hf. discriminate.
    + rewrite forallb_forall in Ha. apply Ha in Hin. discriminate.
  - rewrite typing_ids_app, typing_ids_removed, (typing_ids_none _ Ha).
    apply app_nil_r.
  - intros n Hn Hneq. apply in_or_app. left. apply filter_In.
    split; [exact Hn|].
    destruct n as [x|j|b x|x| |x]; try reflexivity. simpl.
    destruct (Nat.eqb (pendingTyping p) j) eqn:He; [|reflexivity].
    apply Nat.eqb_eq in He. subst j. contradiction.
  - rewrite filter_app, length_app.
    rewrite plain_nodes_removeTyping, (plain_nodes_all _ Ha).
    destruct added; [contradiction|]. simpl. lia.
Qed.

Lemma utterances_resume p o now st :
  utterances (chiedi_resume p o now st)
  = match turn_of (EvFetchDone p o now) with
    | Some t => if voiceEnabled st then utterances st ++ [ai t]
                else utterances st
    | None => utterances st
    end.
Proof. resume_cases o st; try reflexivity; simpl in *; congruence. Qed.

Lemma voice_step supported st ev :
  is_toggle ev = false ->
  voiceEnabled (step supported st ev) = voiceEnabled st.
Proof.
  intros Hev.
  step_cases ev st; try reflexivity; try (simpl in Hf; apply Hf);
    try discriminate Hev.
  - unfold attivaVoce. destruct supported; simpl;
      [destruct (isListening st)|]; reflexivity.
  - unfold onresult. destruct f; reflexivity.
  - unfold aumentaFontChat. destruct (chatFontSize st <? 20)%Z; reflexivity.
  - unfold diminuisciFontChat. destruct (chatFontSize st >? 10)%Z; reflexivity.
Qed.

Lemma utterances_step supported st ev :
  utterances (step supported st ev)
  = match turn_of ev with
    | Some t => if voiceEnabled st then utterances st ++ [ai t]
                else utterances st
    | None => utterances st
    end.
Proof.
  step_cases ev st; try reflexivity; try (simpl in Hf; apply Hf).
  - apply utterances_resume.
  - unfold attivaVoce. destruct supported; simpl;
      [destruct (isListening st)|]; reflexivity.
  - unfold onresult. destruct f; reflexivity.
  - unfold toggleVoiceOutput. simpl.
    destruct (negb (voiceEnabled st)); reflexivity.
  - unfold aumentaFontChat. destruct (chatFontSize st <? 20)%Z; reflexivity.
  - unfold diminuisciFontChat. destruct (chatFontSize st >? 10)%Z; reflexivity.
Qed.

(** X8.  Only a reply that completes its turn is read aloud, and only while
    voice output is switched on; what is read is the reply as the server
    sent it.  Voice output is off at the start, so that a session in which
    the switch is never used reads nothing aloud. *)
Theorem replies_read_aloud_only_when_enabled :
  (forall (supported : bool) (st : State) (ev : Event),
      utterances (step supported st ev)
      = match turn_of ev with
        | Some t => if voiceEnabled st then utterances st ++ [ai t]
                    else utterances st
        | None => utterances st
        end)
  /\ (forall (supported : bool) (sid : jsstring) (evs : list Event),
         forallb (fun ev => negb (is_toggle ev)) evs = true ->
         utterances (run supported evs (initial sid)) = []).
Proof.
  split; [exact utterances_step|].
  intros supported sid evs.
  assert (Hgen : forall st,
             voiceEnabled st = false ->
             forallb (fun ev => negb (is_toggle ev)) evs = true ->
             utterances (run supported evs st) = utterances st).
  { induction evs as [|ev evs IH]; intros st Hv Hevs; [reflexivity|].
    simpl in Hevs. apply andb_true_iff in Hevs as [Hev Hevs].
    apply negb_true_iff in Hev.
    simpl. rewrite IH.
    - rewrite utterances_step, Hv. destruct (turn_of ev); reflexivity.
    - rewrite voice_step; assumption.
    - exact Hevs. }
  intros Hevs. apply (Hgen (initial sid)); [reflexivity|exact Hevs].
Qed.

(** X8, witness: a question and its reply, with the switch left alone. *)
Lemma replies_read_aloud_only_when_enabled_witness :
  utterances
    (run true [EvQuickAsk (js "orari");
               EvFetchDone sample_pending sample_reply (js "t")]
         (initial (js "s")))
  = [].
Proof.
  apply (proj2 replies_read_aloud_only_when_enabled true (js "s")
           [EvQuickAsk (js "orari");
            EvFetchDone sample_pending sample_reply (js "t")]).
  reflexivity.
Defined.

Lemma badge_createAIMessage data r st :
  risposta data = Some r ->
  createAIMessage data st
  = (Normal (AiMsg (badge_of data) (formatResponse r)), st).
Proof.
  unfold createAIMessage, badge_of. intros Hr. rewrite Hr. reflexivity.
Qed.

Lemma storico_salvaNellaStoria t st :
  storico (salvaNellaStoria t st) = storico st.
Proof.
  unfold salvaNellaStoria. cbv zeta.
  destruct (10 <? _); reflexivity.
Qed.

Lemma storico_leggiVoce r st : storico (leggiVoce r st) = storico st.
Proof. unfold leggiVoce. destruct (negb (voiceEnabled st)); reflexivity. Qed.

Lemma storico_set_domanda v st : storico (set_domanda v st) = storico st.
Proof. reflexivity. Qed.

Lemma storico_appendChild n st :
  storico (appendChild n st) = storico st ++ [n].
Proof. reflexivity. Qed.

Lemma storico_hideStatus st : storico (hideStatus st) = storico st.
Proof. reflexivity. Qed.

Lemma storico_removeTyping id st :
  storico (removeTyping id st)
  = filter (fun n => negb (is_typing id n)) (storico st).
Proof. reflexivity. Qed.

Ltac run_js :=
  cbn [has_suggerimenti has_tempo_risposta length Nat.eqb negb];
  cbv beta iota delta [chiedi_resume try_catch chiedi_try chiedi_catch bind
                       modify when get ret throw showSuggestions showMetrics
                       snd fst].

Ltac storico_norm :=
  repeat first
    [ rewrite storico_set_domanda | rewrite storico_leggiVoce
    | rewrite storico_salvaNellaStoria | rewrite storico_appendChild
    | rewrite storico_hideStatus | rewrite storico_removeTyping ].

(** X9.  A reply that completes its turn puts into the chat, in the place
    of the typing indicator of the turn, the formatted reply with its badge,
    then the suggestions and the metrics that it carries; the history gets
    the question with the reply as the server sent it, not the formatted
    one, and so does the voice output when it is on. *)
Theorem completed_turn_is_rendered :
  forall (p : Pending) (status : N) (data : ReplyPayload) (r now : jsstring)
         (st : State),
    succeeds (FetchResponse status (BodyJson data)) = true ->
    risposta data = Some r ->
    let st' := chiedi_resume p (FetchResponse status (BodyJson data)) now st in
    storico st'
    = filter (fun n => negb (is_typing (pendingTyping p) n)) (storico st)
        ++ AiMsg (badge_of data) (formatResponse r) :: reply_boxes data
    /\ storicoDomande st'
       = cap10 (storicoDomande st ++ [mkTurn (pendingDomanda p) r now])
    /\ utterances st'
       = (if voiceEnabled st then utterances st ++ [r] else utterances st)
    /\ statusBar st' = None.
Proof.
  intros p status data r now st Hs Hr. cbv zeta.
  assert (Hok : response_ok status = true).
  { simpl in Hs. apply andb_true_iff in Hs. apply Hs. }
  assert (Ht : turn_of (EvFetchDone p (FetchResponse status (BodyJson data))
                          now)
               = Some (mkTurn (pendingDomanda p) r now)).
  { unfold turn_of. rewrite Hs, Hr. reflexivity. }
  split; [|split; [|split]].
  - unfold succeeds in Hs. rewrite Hok, Hr in Hs. cbn [andb] in Hs.
    unfold reply_boxes.
    unfold chiedi_resume, try_catch, chiedi_try. rewrite Hok. cbn [negb].
    unfold bind at 1. unfold modify at 1.
    unfold bind at 1. unfold modify at 1.
    unfold bind at 1. rewrite (badge_createAIMessage data r _ Hr).
    set (msg := AiMsg (badge_of data) (formatResponse r)). clearbody msg.
    rewrite Hr.
    destruct (suggerimenti data) as [|[|s0 l]|];
      destruct (tempo_risposta data); try discriminate Hs; run_js;
      destruct (voiceEnabled _); cbv beta iota;
      storico_norm; repeat rewrite <- app_assoc; reflexivity.
  - rewrite storicoDomande_resume, Ht. reflexivity.
  - rewrite utterances_resume, Ht. reflexivity.
  - apply (resume_frame p (FetchResponse status (BodyJson data)) now st).
Qed.

(** X9, witness: the sample reply, into the state in which its question
    has been asked. *)
Lemma completed_turn_is_rendered_witness :
  storico (chiedi_resume sample_pending sample_reply (js "t")
             (fst (chiedi_start sample_typed)))
  = [UserMsg (js "orari"); AiMsg None (formatResponse (js "8:00"))].
Proof.
  apply (proj1 (completed_turn_is_rendered sample_pending 200
                  (mkReply (Some (js "8:00")) None SuggAbsent TempoAbsent
                           false)
                  (js "8:00") (js "t") (fst (chiedi_start sample_typed))
                  eq_refl eq_refl)).
Defined.

(** X10.  A reply whose text is fine but whose suggestions are no array, or
    whose response time is no number, is shown and then followed by the
    error message of the connection: the formatted reply stays in the chat
    (with the suggestions, when it is the response time that is broken), but
    the turn is not stored, nothing is read aloud and the input field keeps
    the question. *)
Theorem reply_with_broken_extras_is_half_shown :
  forall (p : Pending) (status : N) (data : ReplyPayload) (r now : jsstring)
         (st : State),
    response_ok status = true ->
    risposta data = Some r ->
    succeeds (FetchResponse status (BodyJson data)) = false ->
    let st' := chiedi_resume p (FetchResponse status (BodyJson data)) now st in
    storico st'
    = filter (fun n => negb (is_typing (pendingTyping p) n)) (storico st)
        ++ AiMsg (badge_of data) (formatResponse r)
        :: match suggerimenti data with
           | SuggArray ((_ :: _) as l) => [SuggestionBox l]
           | _ => []
           end
        ++ [ErrorMsg errorHtml]
    /\ storicoDomande st' = storicoDomande st
    /\ utterances st' = utterances st
    /\ domanda st' = domanda st.
Proof.
  intros p status data r now st Hok Hr Hs. cbv zeta.
  assert (Ht : turn_of (EvFetchDone p (FetchResponse status (BodyJson data))
                          now) = None).
  { unfold turn_of. rewrite Hs. reflexivity. }
  split; [|split; [|split]].
  - unfold succeeds in Hs. rewrite Hok, Hr in Hs. cbn [andb] in Hs.
    unfold chiedi_resume, try_catch, chiedi_try. rewrite Hok. cbn [negb].
    unfold bind at 1. unfold modify at 1.
    unfold bind at 1. unfold modify at 1.
    unfold bind at 1. rewrite (badge_createAIMessage data r _ Hr).
    set (msg := AiMsg (badge_of data) (formatResponse r)).
    assert (Hmsg : is_typing (pendingTyping p) msg = false) by reflexivity.
    clearbody msg.
    destruct (suggerimenti data) as [|[|s0 l]|];
      destruct (tempo_risposta data); try discriminate Hs; run_js;
      storico_norm; repeat rewrite filter_app; rewrite removeTyping_twice;
      cbn [filter is_typing negb]; rewrite Hmsg; cbn [negb];
      repeat rewrite <- app_assoc; reflexivity.
  - rewrite storicoDomande_resume, Ht. reflexivity.
  - rewrite utterances_resume, Ht. reflexivity.
  - apply (resume_failure p (FetchResponse status (BodyJson data)) now st Hs).
Qed.

(** X10, witness: a reply whose suggestions are a string. *)
Lemma reply_with_broken_extras_is_half_shown_witness :
  storico (chiedi_resume sample_pending
             (FetchResponse 200
                (BodyJson (mkReply (Some (js "8:00")) None SuggNotArray
                                   TempoAbsent false)))
             (js "t") (fst (chiedi_start sample_typed)))
  = [UserMsg (js "orari"); AiMsg None (formatResponse (js "8:00"));
     ErrorMsg errorHtml].
Proof.
  apply (proj1 (reply_with_broken_extras_is_half_shown sample_pending 200
                  (mkReply (Some (js "8:00")) None SuggNotArray TempoAbsent
                           false)
                  (js "8:00") (js "t") (fst (chiedi_start sample_typed))
                  eq_refl eq_refl eq_refl)).
Defined.

Lemma chiedi_start_typing st st2 p2 :
  chiedi_start st = (st2, Some p2) ->
  pendingTyping p2 = length (requests st)
  /\ sessionId st2 = sessionId st
  /\ storico st2
     = storico st ++ [UserMsg (pendingDomanda p2);
                      TypingIndicator (pendingTyping p2)].
Proof.
  unfold chiedi_start. destruct (trim (domanda st)) as [|c d] eqn:Ht.
  - discriminate.
  - intros H. injection H as H1 H2. subst st2 p2. simpl.
    rewrite <- app_assoc. repeat split; reflexivity.
Qed.

(** X11.  Nothing keeps a second question from being sent while the first is
    waiting for its reply.  The two requests then carry the same history,
    the one of before the first question; each turn has a typing indicator
    of its own; and when the replies come in the other order, the history
    stores the second turn before the first. *)
Theorem overlapping_turns_share_the_history :
  forall (st st1 st2 : State) (q1 q2 : jsstring) (p1 p2 : Pending),
    chiedi_start (set_domanda q1 st) = (st1, Some p1) ->
    chiedi_start (set_domanda q2 st1) = (st2, Some p2) ->
    requests st2
    = requests st
        ++ [mkRequest (trim q1) (storicoDomande st) (sessionId st);
            mkRequest (trim q2) (storicoDomande st) (sessionId st)]
    /\ pendingTyping p1 <> pendingTyping p2
    /\ typing_ids (storico st2)
       = typing_ids (storico st) ++ [pendingTyping p1; pendingTyping p2]
    /\ forall (o1 o2 : FetchOutcome) (now1 now2 : jsstring) (t1 t2 : Turn),
         turn_of (EvFetchDone p1 o1 now1) = Some t1 ->
         turn_of (EvFetchDone p2 o2 now2) = Some t2 ->
         storicoDomande
           (chiedi_resume p1 o1 now1 (chiedi_resume p2 o2 now2 st2))
         = cap10 (cap10 (storicoDomande st ++ [t2]) ++ [t1]).
Proof.
  intros st st1 st2 q1 q2 p1 p2 H1 H2.
  destruct (chiedi_start_nonblank _ _ _ H1) as (Hd1 & Hh1 & Hr1).
  destruct (chiedi_start_nonblank _ _ _ H2) as (Hd2 & Hh2 & Hr2).
  destruct (chiedi_start_typing _ _ _ H1) as (Ht1 & Hs1 & Hn1).
  destruct (chiedi_start_typing _ _ _ H2) as (Ht2 & Hs2 & Hn2).
  simpl in Hd1, Hh1, Hr1, Hd2, Hh2, Hr2, Ht1, Hs1, Hn1, Ht2, Hs2, Hn2.
  split; [|split; [|split]].
  - rewrite Hr2, Hr1, Hh1, Hs1. rewrite <- app_assoc. reflexivity.
  - rewrite Ht1, Ht2, Hr1, length_app. simpl. lia.
  - rewrite Hn2, Hn1. rewrite !typing_ids_app. simpl.
    rewrite <- app_assoc. reflexivity.
  - intros o1 o2 now1 now2 t1 t2 Htn1 Htn2.
    rewrite storicoDomande_resume, Htn1.
    rewrite storicoDomande_resume, Htn2.
    rewrite Hh2, Hh1. reflexivity.
Qed.

(** X11, witness: two questions in a row from the start of the session. *)
Lemma overlapping_turns_share_the_history_witness :
  requests (fst (chiedi_start
                   (set_domanda (js "cup")
                      (fst (chiedi_start
                              (set_domanda (js "orari") sample_session))))))
  = requests sample_session
      ++ [mkRequest (trim (js "orari")) (storicoDomande sample_session)
                    (sessionId sample_session);
          mkRequest (trim (js "cup")) (storicoDomande sample_session)
                    (sessionId sample_session)].
Proof.
  assert (H1 : chiedi_start (set_domanda (js "orari") sample_session)
               = (fst (chiedi_start (set_domanda (js "orari") sample_session)),
                  Some (mkPending (js "orari") 0)))
    by (vm_compute; reflexivity).
  assert (H2 : chiedi_start
                 (set_domanda (js "cup")
                    (fst (chiedi_start
                            (set_domanda (js "orari") sample_session))))
               = (fst (chiedi_start
                         (set_domanda (js "cup")
                            (fst (chiedi_start
                                    (set_domanda (js "orari")
                                       sample_session))))),
                  Some (mkPending (js "cup") 1)))
    by (vm_compute; reflexivity).
  exact (proj1 (overlapping_turns_share_the_history _ _ _ _ _ _ _ H1 H2)).
Defined.

Lemma requests_resume p o now st :
  requests (chiedi_resume p o now st) = requests st.
Proof. apply (resume_frame p o now st). Qed.

Lemma Forall_tl {A} (P : A -> Prop) l : Forall P l -> Forall P (tl l).
Proof. intros H. destruct H; [constructor|assumption]. Qed.

Lemma stored_ok_submitTurn st s :
  Forall (stored_ok st) (storicoDomande st) ->
  Forall (stored_ok (submitTurn st s)) (storicoDomande (submitTurn st s)).
Proof.
  intros Hst. unfold submitTurn.
  destruct (chiedi_start (set_domanda (rawInput s) st)) as [st1 [p|]] eqn:Hc.
  - destruct (chiedi_start_nonblank _ _ _ Hc) as (Hd & Hh & Hr).
    simpl in Hd, Hh, Hr.
    assert (Hne : trim (rawInput s) <> []).
    { revert Hc. unfold chiedi_start. simpl.
      destruct (trim (rawInput s)); [discriminate|]. intros _. discriminate. }
    assert (Hmono : forall t, stored_ok st t ->
                              stored_ok (chiedi_resume p (outcome s) (clock s) st1) t).
    { intros t (Ha & Hb & Hin). split; [exact Ha|]. split; [exact Hb|].
      rewrite requests_resume.
      rewrite Hr, map_app. apply in_or_app. left. exact Hin. }
    rewrite storicoDomande_resume.
    destruct (turn_of (EvFetchDone p (outcome s) (clock s))) as [t|] eqn:Ht.
    + assert (Hall : Forall (stored_ok (chiedi_resume p (outcome s) (clock s) st1))
                            (storicoDomande st1 ++ [t])).
      { apply Forall_app. split.
        - rewrite Hh. eapply Forall_impl; [exact Hmono|exact Hst].
        - constructor; [|constructor].
          assert (Hu : utente t = trim (rawInput s)).
          { revert Ht. simpl.
            destruct (outcome s) as [|status [|data]]; try discriminate.
            destruct (succeeds _); [|discriminate].
            destruct (risposta data); [|discriminate].
            simpl. intros H. injection H as H. subst t. simpl. exact Hd. }
          unfold stored_ok. rewrite Hu.
          split; [exact Hne|]. split; [apply trim_is_trimmed|].
          rewrite requests_resume.
          rewrite Hr, map_app. apply in_or_app. right. left. reflexivity. }
      unfold cap10. destruct (10 <? _); [apply Forall_tl|]; exact Hall.
    + rewrite Hh. eapply Forall_impl; [exact Hmono|exact Hst].
  - assert (Hf := start_frame (set_domanda (rawInput s) st)).
    rewrite Hc in Hf. simpl in Hf.
    destruct Hf as (_ & _ & _ & _ & _ & H6 & _). rewrite H6.
    assert (Hrq := requests_chiedi_start (set_domanda (rawInput s) st)).
    rewrite Hc in Hrq. simpl in Hrq.
    eapply Forall_impl; [|exact Hst].
    intros t (Ha & Hb & Hin). split; [exact Ha|]. split; [exact Hb|].
    rewrite Hrq. destruct (trim (rawInput s)); [exact Hin|].
    rewrite map_app. apply in_or_app. left. exact Hin.
Qed.

(** X12.  When every question is answered before the next is asked, each
    turn of the history holds a question that is not empty, has no white
    space at either end, and is the question of a request that was sent. *)
Theorem stored_questions_were_sent :
  forall (sid : jsstring) (subs : list Submission),
    let st := fold_left submitTurn subs (initial sid) in
    Forall (fun t => utente t <> []
                     /\ is_trimmed (utente t) = true
                     /\ In (utente t) (List.map question (requests st)))
           (storicoDomande st).
Proof.
  intros sid subs.
  assert (Hgen : forall st,
             Forall (stored_ok st) (storicoDomande st) ->
             Forall (stored_ok (fold_left submitTurn subs st))
                    (storicoDomande (fold_left submitTurn subs st))).
  { induction subs as [|s subs IH]; intros st Hst; [exact Hst|].
    simpl. apply IH. apply stored_ok_submitTurn. exact Hst. }
  apply (Hgen (initial sid)). constructor.
Qed.

Lemma voiceEnabled_step supported st ev :
  voiceEnabled (step supported st ev)
  = if is_toggle ev then negb (voiceEnabled st) else voiceEnabled st.
Proof.
  destruct (is_toggle ev) eqn:Hev.
  - destruct ev; try discriminate Hev. simpl. unfold toggleVoiceOutput.
    simpl. destruct (negb (voiceEnabled st)); reflexivity.
  - apply voice_step. exact Hev.
Qed.

(** X13.  Voice output is on exactly when its switch has been used an odd
    number of times, and each use of the switch is answered by the
    notification of the state that it leads to. *)
Theorem voice_switch_alternates :
  (forall (supported : bool) (sid : jsstring) (evs : list Event),
      voiceEnabled (run supported evs (initial sid))
      = Nat.odd (length (filter is_toggle evs)))
  /\ (forall st : State,
         notifications (toggleVoiceOutput st)
         = notifications st
             ++ [if voiceEnabled st
                 then (js "Lettura vocale disattivata", info)
                 else (js "Lettura vocale attivata", success)]).
Proof.
  split.
  - intros supported sid evs.
    assert (Hgen : forall st,
               voiceEnabled (run supported evs st)
               = xorb (voiceEnabled st)
                      (Nat.odd (length (filter is_toggle evs)))).
    { induction evs as [|ev evs IH]; intros st.
      - simpl. rewrite xorb_false_r. reflexivity.
      - simpl. rewrite IH, voiceEnabled_step.
        destruct (is_toggle ev); [|reflexivity].
        cbn [length]. rewrite Nat.odd_succ, <- Nat.negb_odd.
        destruct (voiceEnabled st), (Nat.odd _); reflexivity. }
    rewrite Hgen. reflexivity.
  - intros st. unfold toggleVoiceOutput. simpl.
    destruct (voiceEnabled st); reflexivity.
Qed.

Lemma suggested_step supported st ev :
  suggestedQuestionsShown st = no_request_yet st ->
  suggestedQuestionsShown (step supported st ev)
  = no_request_yet (step supported st ev).
Proof.
  unfold no_request_yet. intros Hst.
  assert (Hstart : forall st0,
             suggestedQuestionsShown st0
             = match requests st0 with [] => true | _ :: _ => false end ->
             suggestedQuestionsShown (fst (chiedi_start st0))
             = match requests (fst (chiedi_start st0)) with
               | [] => true
               | _ :: _ => false
               end).
  { intros st0 H0. unfold chiedi_start.
    destruct (trim (domanda st0)); simpl; [exact H0|].
    destruct (requests st0); reflexivity. }
  destruct ev as [text| |q|p o now| |t f|e| | | |]; simpl.
  - exact Hst.
  - apply Hstart. exact Hst.
  - apply (Hstart (set_domanda (field_value q) st)). exact Hst.
  - rewrite requests_resume. rewrite <- Hst.
    clear Hst. resume_cases o st; reflexivity.
  - unfold attivaVoce. destruct supported; simpl; [|exact Hst].
    destruct (isListening st); exact Hst.
  - unfold onresult. destruct f; exact Hst.
  - exact Hst.
  - exact Hst.
  - unfold toggleVoiceOutput. simpl.
    destruct (negb (voiceEnabled st)); exact Hst.
  - unfold aumentaFontChat. destruct (chatFontSize st <? 20)%Z; exact Hst.
  - unfold diminuisciFontChat. destruct (chatFontSize st >? 10)%Z; exact Hst.
Qed.

(** X14.  The suggested questions of the start are on the page exactly
    until the first request is sent: a question that is not blank hides
    them, and nothing brings them back. *)
Theorem suggested_questions_until_first_request :
  forall (supported : bool) (sid : jsstring) (evs : list Event),
    suggestedQuestionsShown (run supported evs (initial sid))
    = match requests (run supported evs (initial sid)) with
      | [] => true
      | _ :: _ => false
      end.
Proof.
  intros supported sid evs.
  assert (Hgen : forall st,
             suggestedQuestionsShown st = no_request_yet st ->
             suggestedQuestionsShown (run supported evs st)
             = no_request_yet (run supported evs st)).
  { induction evs as [|ev evs IH]; intros st Hst; [exact Hst|].
    simpl. apply IH. apply suggested_step. exact Hst. }
  apply (Hgen (initial sid)). reflexivity.
Qed.

(** X15.  The status bar does not wait for every turn: when two questions
    have been sent, the reply of the first hides the bar while the typing
    indicator of the second is still in the chat. *)
Theorem status_bar_hidden_while_a_turn_waits :
  forall (st st1 st2 : State) (q1 q2 : jsstring) (p1 p2 : Pending)
         (o : FetchOutcome) (now : jsstring),
    chiedi_start (set_domanda q1 st) = (st1, Some p1) ->
    chiedi_start (set_domanda q2 st1) = (st2, Some p2) ->
    statusBar st2 = Some (js "Sto elaborando la tua richiesta...")
    /\ statusBar (chiedi_resume p1 o now st2) = None
    /\ In (TypingIndicator (pendingTyping p2))
          (storico (chiedi_resume p1 o now st2)).
Proof.
  intros st st1 st2 q1 q2 p1 p2 o now H1 H2.
  destruct (chiedi_start_nonblank _ _ _ H1) as (_ & _ & Hr1).
  destruct (chiedi_start_typing _ _ _ H1) as (Ht1 & _ & _).
  destruct (chiedi_start_typing _ _ _ H2) as (Ht2 & _ & Hn2).
  simpl in Hr1, Ht1, Ht2.
  split; [|split].
  - revert H2. unfold chiedi_start.
    destruct (trim (domanda (set_domanda q2 st1))); [discriminate|].
    intros H. injection H as H _. subst st2. reflexivity.
  - apply (resume_frame p1 o now st2).
  - destruct (storico_resume p1 o now st2) as (added & Hs & _).
    rewrite Hs. apply in_or_app. left. apply filter_In. split.
    + rewrite Hn2. apply in_or_app. right. right. left. reflexivity.
    + simpl. rewrite Ht1, Ht2, Hr1, length_app. simpl.
      replace (length (requests st) =? length (requests st) + 1) with false
        by (symmetry; apply Nat.eqb_neq; lia).
      reflexivity.
Qed.

(** X15, witness: two questions from the start, and the first request
    rejected. *)
Lemma status_bar_hidden_while_a_turn_waits_witness :
  statusBar (fst (chiedi_start
                    (set_domanda (js "cup")
                       (fst (chiedi_start
                               (set_domanda (js "orari") sample_session))))))
  = Some (js "Sto elaborando la tua richiesta...")
  /\ statusBar
       (chiedi_resume (mkPending (js "orari") 0) FetchRejected (js "t")
          (fst (chiedi_start
                  (set_domanda (js "cup")
                     (fst (chiedi_start
                             (set_domanda (js "orari") sample_session)))))))
     = None
  /\ In (TypingIndicator (pendingTyping (mkPending (js "cup") 1)))
        (storico
           (chiedi_resume (mkPending (js "orari") 0) FetchRejected (js "t")
              (fst (chiedi_start
                      (set_domanda (js "cup")
                         (fst (chiedi_start
                                 (set_domanda (js "orari")
                                    sample_session)))))))).
Proof.
  assert (H1 : chiedi_start (set_domanda (js "orari") sample_session)
               = (fst (chiedi_start (set_domanda (js "orari") sample_session)),
                  Some (mkPending (js "orari") 0)))
    by (vm_compute; reflexivity).
  assert (H2 : chiedi_start
                 (set_domanda (js "cup")
                    (fst (chiedi_start
                            (set_domanda (js "orari") sample_session))))
               = (fst (chiedi_start
                         (set_domanda (js "cup")
                            (fst (chiedi_start
                                    (set_domanda (js "orari")
                                       sample_session))))),
                  Some (mkPending (js "cup") 1)))
    by (vm_compute; reflexivity).
  exact (status_bar_hidden_while_a_turn_waits _ _ _ _ _ _ _ FetchRejected
           (js "t") H1 H2).
Defined.

(** A string without line breaks is held by the input field as it is. *)
Lemma field_value_plain q :
  existsb is_line_break q = false -> field_value q = q.
Proof.
  unfold field_value. induction q as [|c q IH]; [reflexivity|].
  cbn [existsb filter]. intros H. apply orb_false_iff in H as [Hc Hq].
  rewrite Hc. cbn [negb]. rewrite (IH Hq). reflexivity.
Qed.

(** X16.  [quickAsk] writes the question to the input field, over what the
    user has typed there, and sends what the field then holds: the question
    without its line breaks, which a single-line field drops, and, in the
    request and in the user's message, without the white space at its ends.
    When nothing is left, nothing is sent and the user is asked to write a
    question.  A question that is not empty,
    has no line break and no white space at either end, as the suggestion
    buttons give it, is sent and shown as it is. *)
Theorem quickAsk_sends_the_question :
  (forall (supported : bool) (st : State) (q : jsstring),
      trim (field_value q) <> [] ->
      let st' := step supported st (EvQuickAsk q) in
      requests st'
      = requests st
          ++ [mkRequest (trim (field_value q)) (storicoDomande st)
                        (sessionId st)]
      /\ storico st'
         = storico st
             ++ [UserMsg (trim (field_value q));
                 TypingIndicator (length (requests st))]
      /\ domanda st' = field_value q
      /\ notifications st' = notifications st)
  /\ (forall (supported : bool) (st : State) (q : jsstring),
        trim (field_value q) = [] ->
        step supported st (EvQuickAsk q)
        = set_notifications
            (notifications st
               ++ [(js "Per favore, scrivi una domanda", warning)])
            (set_domanda (field_value q) st))
  /\ (forall q : jsstring,
        q <> [] -> is_trimmed q = true -> existsb is_line_break q = false ->
        field_value q = q /\ trim (field_value q) = q).
Proof.
  split; [|split].
  - intros supported st q Hne. cbv zeta. cbn [step].
    rewrite requests_chiedi_start, storico_chiedi_start.
    cbn [domanda set_domanda requests storico storicoDomande sessionId].
    unfold chiedi_start. cbn [domanda set_domanda].
    destruct (trim (field_value q)) as [|c d]; [contradiction|].
    repeat split; reflexivity.
  - intros supported st q Hnil. cbn [step]. unfold chiedi_start.
    cbn [domanda set_domanda]. rewrite Hnil. reflexivity.
  - intros q _ Htrim Hlb. rewrite (field_value_plain q Hlb).
    split; [reflexivity|]. apply trim_trimmed. exact Htrim.
Qed.

(** X16, witness: a question of two lines is sent as one line, and a
    suggestion as it is. *)
Lemma quickAsk_sends_the_question_witness :
  requests (step true sample_session
              (EvQuickAsk (js "orari" ++ [13%N; 10%N] ++ js "cup")))
  = requests sample_session
      ++ [mkRequest (js "oraricup") (storicoDomande sample_session)
                    (sessionId sample_session)]
  /\ step true sample_session (EvQuickAsk [13%N; 10%N])
     = set_notifications [(js "Per favore, scrivi una domanda", warning)]
         (set_domanda [] sample_session)
  /\ trim (field_value (js "orari cup")) = js "orari cup".
Proof.
  split; [|split].
  - assert (H : trim (field_value (js "orari" ++ [13%N; 10%N] ++ js "cup"))
                <> []) by (vm_compute; discriminate).
    exact (proj1 (proj1 quickAsk_sends_the_question true sample_session
                    (js "orari" ++ [13%N; 10%N] ++ js "cup") H)).
  - assert (H : trim (field_value [13%N; 10%N]) = [])
      by (vm_compute; reflexivity).
    exact (proj1 (proj2 quickAsk_sends_the_question) true sample_session
             [13%N; 10%N] H).
  - assert (H1 : js "orari cup" <> []) by (vm_compute; discriminate).
    assert (H2 : is_trimmed (js "orari cup") = true)
      by (vm_compute; reflexivity).
    assert (H3 : existsb is_line_break (js "orari cup") = false)
      by (vm_compute; reflexivity).
    exact (proj2 (proj2 (proj2 quickAsk_sends_the_question)
                    (js "orari cup") H1 H2 H3)).
Defined.

End SessionInvariants.

(* ================================================================= *)
(** ** The formatter, piece by piece *)

Section FormatterPieces.

Arguments formatResponse : simpl never.

(** A scan is cut in two by a code unit that the pattern rejects. *)
Lemma replace_global_split r f x (a b : jsstring) :
  rejects r x = true -> end_free r = true -> nullable r = false ->
  replace_global r f (a ++ x :: b)
  = replace_global r f a ++ x :: replace_global r f b.
Proof.
  intros Hr He Hn.
  rewrite (replace_global_stop r f x a b Hr Hn).
  rewrite (replace_global_stop_nil r f x a Hr He Hn).
  rewrite <- app_assoc. reflexivity.
Qed.

(** X17.  [linkify] works on each stretch between white space and angle
    brackets on its own: such a code unit is copied, and what stands before
    it and after it is linked as if the other were not there. *)
Theorem linkify_works_between_separators :
  forall (a b : jsstring) (x : char16),
    is_url_char x = false ->
    linkify (a ++ x :: b) = linkify a ++ x :: linkify b.
Proof.
  intros a b x Hx. unfold linkify.
  apply replace_global_split; [apply rejects_url; exact Hx| |]; reflexivity.
Qed.

(** X17, witness: two words and the space between them. *)
Lemma linkify_works_between_separators_witness :
  linkify (js "vedi" ++ 32%N :: js "http://a.it")
  = linkify (js "vedi") ++ 32%N :: linkify (js "http://a.it").
Proof.
  apply (linkify_works_between_separators (js "vedi") (js "http://a.it")
           32%N).
  reflexivity.
Defined.

(** X18.  No step of the formatter reads across an angle bracket: the
    bracket is copied, and the text before it and the text after it are
    formatted on their own. *)
Theorem formatter_works_between_angle_brackets :
  forall (a b : jsstring) (x : char16),
    is_angle x = true ->
    formatResponse (a ++ x :: b) = formatResponse a ++ x :: formatResponse b.
Proof.
  intros a b x Hx.
  assert (Hc : x = 60%N \/ x = 62%N).
  { unfold is_angle in Hx. apply orb_true_iff in Hx.
    destruct Hx as [H|H]; apply N.eqb_eq in H; auto. }
  unfold formatResponse, linkify, highlightPhones, highlightTimes,
    annotateProntoSoccorso, annotateCup.
  destruct Hc as [-> | ->];
    repeat (rewrite replace_global_split; [|reflexivity..]);
    reflexivity.
Qed.

(** X18, witness: a tag between two words. *)
Lemma formatter_works_between_angle_brackets_witness :
  formatResponse (js "CUP" ++ 60%N :: js "br>CUP")
  = formatResponse (js "CUP") ++ 60%N :: formatResponse (js "br>CUP").
Proof.
  apply (formatter_works_between_angle_brackets (js "CUP") (js "br>CUP")
           60%N).
  reflexivity.
Defined.

Lemma url_requires_colon w rest :
  matches urlRegex w rest -> existsb (N.eqb 58) w = true.
Proof.
  unfold urlRegex.
  intros (w1 & w2 & -> & _ & (w3 & w4 & -> & _ & (w5 & w6 & -> & H5 & _))).
  apply (matches_lit (js "://")) in H5. subst w5.
  rewrite !existsb_app. cbn. rewrite !orb_true_r. reflexivity.
Qed.

(** X19.  The formatter escapes nothing.  A text without a colon, without
    the letters [r] and [R] and the letter [C], and with fewer than nine
    digits comes out as it went in, markup included, and [createAIMessage]
    makes it the content of the message as it is. *)
Theorem markup_passes_unchanged :
  forall text : jsstring,
    existsb (N.eqb 58) text = false ->
    existsb (fun c => (canonicalize c =? 82)%N) text = false ->
    existsb (N.eqb 67) text = false ->
    count_digits text < 9 ->
    formatResponse text = text
    /\ forall i sg t c st,
         createAIMessage (mkReply (Some text) i sg t c) st
         = (Normal (AiMsg (badge_of (mkReply (Some text) i sg t c)) text), st).
Proof.
  intros text Hcolon Hr HC Hdigits.
  assert (Hf : formatResponse text = text).
  { unfold formatResponse, linkify, highlightPhones, highlightTimes,
      annotateProntoSoccorso, annotateCup.
    rewrite (replace_global_id urlRegex _ text)
      by (apply (matches_somewhere_requires urlRegex (N.eqb 58)
                   url_requires_colon); exact Hcolon).
    rewrite (replace_global_id phoneRegex _ text)
      by (apply few_digits_no_phone; exact Hdigits).
    rewrite (replace_global_id timeRegex _ text)
      by (apply (matches_somewhere_requires timeRegex (N.eqb 58)
                   time_requires_colon); exact Hcolon).
    rewrite (replace_global_id prontoSoccorsoRegex _ text)
      by (apply (matches_somewhere_requires prontoSoccorsoRegex
                   (fun c => (canonicalize c =? 82)%N)
                   prontoSoccorso_requires_r); exact Hr).
    apply replace_global_id.
    apply (matches_somewhere_requires cupRegex (N.eqb 67) cup_requires_C).
    exact HC. }
  split; [exact Hf|].
  intros i sg t c st.
  rewrite (badge_createAIMessage (mkReply (Some text) i sg t c) text st
             eq_refl).
  rewrite Hf. reflexivity.
Qed.

(** X19, witness: a tag with a handler goes through. *)
Lemma markup_passes_unchanged_witness :
  formatResponse (js "<b onclick=go()>ciao</b>")
  = js "<b onclick=go()>ciao</b>".
Proof.
  apply (markup_passes_unchanged (js "<b onclick=go()>ciao</b>"));
    [reflexivity|reflexivity|reflexivity|].
  unfold lt. vm_compute. repeat constructor.
Defined.

(** Every match of the time pattern has the shape. *)
Lemma time_match_shape w rest : matches timeRegex w rest -> time_shape w.
Proof.
  unfold timeRegex. cbn [matches within].
  intros (h & w1 & -> & (Hh & Hlo & Hhi)
          & (w2 & mm & -> & (c & -> & Hc) & (Hmm & Hlo2 & Hhi2))).
  apply N.eqb_eq in Hc. subst c.
  exists h, mm. repeat split; try assumption. lia.
Qed.

(** On a text of the shape, the pattern matches the whole text. *)
Lemma exec_time_shape (h mm : jsstring) :
  forallb is_digit h = true -> 1 <= length h <= 2 ->
  forallb is_digit mm = true -> length mm = 2 ->
  exec timeRegex (h ++ [58%N] ++ mm) = Some (h ++ [58%N] ++ mm, []).
Proof.
  intros Hh Hlh Hmm Hlmm.
  destruct mm as [|c [|d [|e mm]]]; try discriminate Hlmm.
  simpl in Hmm. rewrite !andb_true_iff in Hmm. destruct Hmm as (Hc & Hd & _).
  destruct h as [|a [|b [|x h]]]; simpl in Hlh; try lia;
    simpl in Hh; rewrite !andb_true_iff in Hh.
  - destruct Hh as (Ha & _).
    unfold exec, timeRegex. simpl. rewrite Ha, Hc, Hd. reflexivity.
  - destruct Hh as (Ha & Hb & _).
    unfold exec, timeRegex. simpl. rewrite Ha, Hb, Hc, Hd. reflexivity.
Qed.

Lemma time_shape_chars w :
  time_shape w -> forallb is_group_char w = true.
Proof.
  intros (h & mm & -> & Hh & _ & Hmm & _).
  assert (Hd : forall g, forallb is_digit g = true ->
                         forallb is_group_char g = true).
  { intros g Hg. rewrite forallb_forall in *. intros c Hc.
    unfold is_group_char. rewrite (Hg c Hc). reflexivity. }
  rewrite !forallb_app, (Hd _ Hh), (Hd _ Hmm). reflexivity.
Qed.

Lemma time_shape_digits w : time_shape w -> count_digits w <= 4.
Proof.
  intros (h & mm & -> & Hh & Hlh & Hmm & Hlmm).
  rewrite !count_digits_app, (count_digits_all h Hh),
    (count_digits_all mm Hmm).
  change (count_digits [58%N]) with 0. lia.
Qed.

Lemma group_char_no_h c : is_group_char c = true -> (104 =? c)%N = false.
Proof.
  unfold is_group_char. intros H.
  apply orb_true_iff in H. destruct H as [H|H].
  - apply (digit_or_space_plain c H).
  - apply N.eqb_eq in H. subst c. reflexivity.
Qed.

(** X20.  What the time step highlights is one or two digits, a colon and
    two digits, and nothing else; a text of that shape, on its own, comes
    out of the formatter wrapped in the span of the times. *)
Theorem times_of_day_are_highlighted :
  (forall s w rest : jsstring,
      exec timeRegex s = Some (w, rest) -> time_shape w)
  /\ (forall w : jsstring,
         time_shape w -> formatResponse w = timeSpan w).
Proof.
  split.
  - intros s w rest Hex.
    destruct (exec_sound _ _ _ _ Hex) as [_ Hm].
    exact (time_match_shape w rest Hm).
  - intros w Hshape.
    pose proof (time_shape_chars w Hshape) as Hchars.
    pose proof (time_shape_digits w Hshape) as Hdigits.
    assert (Hplain : forall q,
               (forall c, is_group_char c = true -> q c = false) ->
               existsb q w = false).
    { intros q Hq. exact (existsb_none q _ w Hq Hchars). }
    assert (Hex : exec timeRegex w = Some (w, [])).
    { destruct Hshape as (h & mm & -> & Hh & Hlh & Hmm & Hlmm).
      apply exec_time_shape; assumption. }
    unfold formatResponse.
    assert (Hlink : linkify w = w).
    { apply replace_global_id.
      apply (matches_somewhere_requires urlRegex (N.eqb 104) url_requires_h).
      apply Hplain. exact group_char_no_h. }
    rewrite Hlink.
    assert (Hphone : highlightPhones w = w).
    { apply replace_global_id. apply few_digits_no_phone. lia. }
    rewrite Hphone.
    assert (Htime : highlightTimes w = timeSpan w).
    { unfold highlightTimes.
      destruct w as [|c w'] eqn:Hw.
      - vm_compute in Hex. discriminate.
      - rewrite (replace_global_match timeRegex timeSpan _ c w' [] Hex).
        rewrite replace_global_nil by reflexivity. apply app_nil_r. }
    rewrite Htime.
    assert (Hspan : forall q,
               (forall c, is_group_char c = true -> q c = false) ->
               existsb q (js "<span class=" ++ [dq]
                            ++ js "font-semibold" ++ [dq] ++ js ">") = false ->
               existsb q (js "</span>") = false ->
               existsb q (timeSpan w) = false).
    { intros q Hq Hopen Hclose. unfold timeSpan.
      rewrite !app_assoc. rewrite existsb_app, existsb_app.
      rewrite Hclose, (Hplain q Hq).
      rewrite <- !app_assoc, Hopen. reflexivity. }
    assert (Hps : annotateProntoSoccorso (timeSpan w) = timeSpan w).
    { apply replace_global_id.
      apply (matches_somewhere_requires prontoSoccorsoRegex
               (fun c => (canonicalize c =? 82)%N)
               prontoSoccorso_requires_r).
      apply Hspan; [|reflexivity|reflexivity].
      intros c Hc. apply (group_char_plain c Hc). }
    rewrite Hps.
    apply replace_global_id.
    apply (matches_somewhere_requires cupRegex (N.eqb 67) cup_requires_C).
    apply Hspan; [|reflexivity|reflexivity].
    intros c Hc. apply (group_char_plain c Hc).
Qed.

(** X20, witness: half past nine. *)
Lemma times_of_day_are_highlighted_witness :
  formatResponse (js "9:30") = timeSpan (js "9:30").
Proof.
  apply (proj2 times_of_day_are_highlighted (js "9:30")).
  exists (js "9"), (js "30").
  split; [reflexivity|]. split; [reflexivity|].
  split; [simpl; lia|]. split; reflexivity.
Defined.

Lemma not_all_punct : forall a b : jsstring,
  a <> [] -> is_trailing_punct (last a 0%N) = false ->
  forallb is_trailing_punct (a ++ b) = false.
Proof.
  induction a as [|c a IH]; intros b Hne Hlast; [contradiction|].
  destruct a as [|c' a].
  - simpl in *. rewrite Hlast. reflexivity.
  - change (last (c :: c' :: a) 0%N) with (last (c' :: a) 0%N) in Hlast.
    change ((c :: c' :: a) ++ b) with (c :: ((c' :: a) ++ b)).
    cbn [forallb]. rewrite (IH b); [apply andb_false_r|discriminate|exact Hlast].
Qed.

(** [cleanUrl] keeps a head that does not end with punctuation. *)
Lemma cleanUrl_prefix : forall a b : jsstring,
  a <> [] -> is_trailing_punct (last a 0%N) = false ->
  cleanUrl (a ++ b) = a ++ cleanUrl b.
Proof.
  induction a as [|c a IH]; intros b Hne Hlast; [contradiction|].
  rewrite cleanUrl_eq, (not_all_punct (c :: a) b Hne Hlast).
  simpl. f_equal.
  destruct a as [|c' a]; [reflexivity|].
  apply IH; [discriminate|exact Hlast].
Qed.

Lemma cleanUrl_idempotent (u : jsstring) : cleanUrl (cleanUrl u) = cleanUrl u.
Proof.
  destruct (cleanUrl u) as [|c l] eqn:Hu; [reflexivity|].
  destruct (exists_last (l := c :: l)) as (l' & x & Hl); [discriminate|].
  rewrite Hl. rewrite <- (app_nil_r (l' ++ [x])) at 1.
  apply cleanUrl_app; [|reflexivity].
  rewrite last_last. apply (cleanUrl_ends_clean u l' x).
  rewrite Hu. exact Hl.
Qed.

(** Every match of the pattern of URLs is a scheme followed by code units
    that are neither white space nor angle brackets. *)
Lemma url_match_shape w rest :
  matches urlRegex w rest ->
  exists scheme body,
    (scheme = js "http://" \/ scheme = js "https://")
    /\ w = scheme ++ body
    /\ forallb is_url_char body = true
    /\ body <> [].
Proof.
  unfold urlRegex. cbn [matches within].
  intros (w1 & w2 & -> & H1
          & (s & w3 & -> & (Hs & _ & Hls)
             & (w4 & body & -> & H4 & (Hbody & Hlo & _)))).
  apply (matches_lit (js "http")) in H1. subst w1.
  apply (matches_lit (js "://")) in H4. subst w4.
  assert (Hne : body <> []) by (intros ->; simpl in Hlo; lia).
  destruct s as [|c [|c' s]]; [| |simpl in Hls; lia].
  - exists (js "http://"), body. repeat split; auto.
  - cbn [forallb] in Hs. rewrite andb_true_r in Hs.
    apply N.eqb_eq in Hs. subst c.
    exists (js "https://"), body. repeat split; auto.
Qed.

(** X21.  The target of every link that [linkify] writes is [http://] or
    [https://] followed by code units of the match that are neither white
    space nor angle brackets, and it does not end with one of the
    punctuation marks that [cleanUrl] strips; cleaning it again changes
    nothing.  (What follows the scheme can be empty, when the match has
    nothing but punctuation there.) *)
Theorem link_targets_are_http_urls :
  forall s u rest : jsstring,
    exec urlRegex s = Some (u, rest) ->
    exists scheme body : jsstring,
      (scheme = js "http://" \/ scheme = js "https://")
      /\ cleanUrl u = scheme ++ body
      /\ forallb is_url_char body = true
      /\ is_trailing_punct (last (cleanUrl u) 0%N) = false
      /\ (exists p, u = cleanUrl u ++ p
                    /\ forallb is_trailing_punct p = true)
      /\ cleanUrl (cleanUrl u) = cleanUrl u.
Proof.
  intros s u rest Hex.
  destruct (exec_sound _ _ _ _ Hex) as [_ Hm].
  destruct (url_match_shape u rest Hm) as (scheme & body & Hsch & -> & Hb & _).
  assert (Hclean : cleanUrl (scheme ++ body) = scheme ++ cleanUrl body).
  { destruct Hsch as [-> | ->]; apply cleanUrl_prefix;
      try discriminate; reflexivity. }
  exists scheme, (cleanUrl body).
  split; [exact Hsch|]. split; [exact Hclean|].
  split; [|split; [|split]].
  - destruct (cleanUrl_removes_punct body) as (p & Hp & _).
    rewrite Hp, forallb_app in Hb. apply andb_true_iff in Hb. apply Hb.
  - destruct (exists_last (l := cleanUrl (scheme ++ body)))
      as (l & c & Hl).
    + rewrite Hclean. destruct Hsch as [-> | ->]; discriminate.
    + rewrite Hl, last_last. exact (cleanUrl_ends_clean _ l c Hl).
  - apply cleanUrl_removes_punct.
  - apply cleanUrl_idempotent.
Qed.

(** X21, witness: a URL at the end of a sentence. *)
Lemma link_targets_are_http_urls_witness :
  exists scheme body : jsstring,
    (scheme = js "http://" \/ scheme = js "https://")
    /\ cleanUrl (js "https://a.it/x).") = scheme ++ body
    /\ forallb is_url_char body = true
    /\ is_trailing_punct (last (cleanUrl (js "https://a.it/x).")) 0%N) = false
    /\ (exists p, js "https://a.it/x)." = cleanUrl (js "https://a.it/x).") ++ p
                  /\ forallb is_trailing_punct p = true)
    /\ cleanUrl (cleanUrl (js "https://a.it/x)."))
       = cleanUrl (js "https://a.it/x).").
Proof.
  apply (link_targets_are_http_urls (js "https://a.it/x). Grazie")
           (js "https://a.it/x).") (js " Grazie")).
  vm_compute. reflexivity.
Defined.

End FormatterPieces.

(* ================================================================= *)
(** ** The steps of the formatter, one after the other *)

Section FormatterSteps.

Arguments formatResponse : simpl never.

(** *** How far the matcher reads

    A pattern whose matches hold [n] code units at most is matched without
    a look at what comes after the first [n] code units of the input. *)
Lemma m_rep_window p (b : jsstring) k1 k2 n :
  (forall t, n <= length t -> k2 (t ++ b) = extend b (k1 t)) ->
  forall h (a : jsstring) lo,
    h + n <= length a ->
    m_rep p lo (Some h) (a ++ b) k2 = extend b (m_rep p lo (Some h) a k1).
Proof.
  intros Hk.
  induction h as [|h IH]; intros a lo Hlen.
  - destruct a as [|c a].
    + cbn [app]. assert (H0 : k2 b = extend b (k1 [])) by (apply (Hk []); exact Hlen).
      destruct b as [|c b]; cbn [m_rep];
        [|rewrite andb_false_r]; destruct lo; try reflexivity; exact H0.
    + cbn [app m_rep]. cbn [exhausted negb]. rewrite andb_false_r.
      destruct lo; [|reflexivity].
      apply (Hk (c :: a)). simpl in Hlen |- *. lia.
  - destruct a as [|c a]; [simpl in Hlen; lia|].
    cbn [app m_rep exhausted option_map pred negb].
    rewrite (IH a (pred lo)) by (simpl in Hlen; lia).
    assert (Hstop : match lo with
                    | 0 => k2 (c :: a ++ b)
                    | S _ => None
                    end
                    = extend b match lo with
                               | 0 => k1 (c :: a)
                               | S _ => None
                               end).
    { destruct lo; [|reflexivity].
      apply (Hk (c :: a)). simpl in Hlen |- *. lia. }
    rewrite andb_true_r.
    destruct (p c); [|exact Hstop].
    destruct (m_rep p (pred lo) (Some h) a k1); [reflexivity|exact Hstop].
Qed.

Lemma m_window (b : jsstring) : forall r ml,
  max_length r = Some ml ->
  forall k1 k2 n,
    (forall t, n <= length t -> k2 (t ++ b) = extend b (k1 t)) ->
    forall a : jsstring,
      ml + n <= length a ->
      m r (a ++ b) k2 = extend b (m r a k1).
Proof.
  induction r as [|p|r1 IH1 r2 IH2|p lo hi|]; intros ml Hml k1 k2 n Hk a Hlen;
    cbn [max_length] in Hml.
  - cbn [m]. apply Hk. injection Hml as <-. exact Hlen.
  - injection Hml as <-.
    destruct a as [|c a]; [simpl in Hlen; lia|].
    cbn [app m]. destruct (p c); [|reflexivity].
    apply Hk. simpl in Hlen. lia.
  - destruct (max_length r1) as [m1|]; [|discriminate].
    destruct (max_length r2) as [m2|]; [|discriminate].
    injection Hml as <-.
    cbn [m].
    apply (IH1 m1 eq_refl (fun s1 => m r2 s1 k1) (fun s1 => m r2 s1 k2)
             (m2 + n)); [|lia].
    intros t Ht. apply (IH2 m2 eq_refl k1 k2 n Hk). exact Ht.
  - subst hi. cbn [m]. apply (m_rep_window p b k1 k2 n Hk). exact Hlen.
  - discriminate.
Qed.

(** The match at the head of a text is the match at the head of its first
    code units, as many as a match can hold. *)
Lemma m_firstn r ml (s : jsstring) :
  max_length r = Some ml ->
  m r s Some = extend (skipn ml s) (m r (firstn ml s) Some).
Proof.
  intros Hml.
  destruct (Nat.le_gt_cases ml (length s)) as [Hle|Hgt].
  - rewrite <- (firstn_skipn ml s) at 1.
    apply (m_window (skipn ml s) r ml Hml Some Some 0).
    + intros t _. reflexivity.
    + rewrite length_firstn. lia.
  - rewrite skipn_all2 by lia. rewrite firstn_all2 by lia.
    destruct (m r s Some); simpl; [rewrite app_nil_r|]; reflexivity.
Qed.

(** *** Telephone numbers in their context *)

Lemma all_texts_spec : forall n P,
  all_texts n P = true ->
  forall t : jsstring, length t <= n -> Forall is_repr t -> P t = true.
Proof.
  induction n as [|n IH]; intros P H t Hlen Ht;
    cbn [all_texts] in H; apply andb_true_iff in H; destruct H as [H0 H].
  - destruct t; [exact H0|simpl in Hlen; lia].
  - destruct t as [|c t]; [exact H0|].
    inversion Ht as [|c0 t0 Hc Ht']; subst.
    cbn [forallb] in H. rewrite !andb_true_iff in H.
    destruct H as (H48 & H32 & H120 & _).
    simpl in Hlen.
    destruct Hc as [->|[->| ->]];
      [apply (IH _ H48)|apply (IH _ H32)|apply (IH _ H120)];
      (lia || exact Ht').
Qed.

Lemma all_followers_spec n P :
  all_followers n P = true ->
  forall t : jsstring,
    length t <= n -> Forall is_repr t -> hd 120%N t <> 48%N -> P t = true.
Proof.
  unfold all_followers. intros H t Hlen Ht Hhd.
  apply andb_true_iff in H. destruct H as [H0 H].
  destruct t as [|c t]; [exact H0|].
  destruct n as [|n]; [simpl in Hlen; lia|].
  inversion Ht as [|c0 t0 Hc Ht']; subst.
  cbn [forallb] in H. rewrite !andb_true_iff in H.
  destruct H as (H32 & H120 & _).
  simpl in Hlen, Hhd.
  destruct Hc as [->|[->| ->]]; [contradiction| |];
    [apply (all_texts_spec _ _ H32)|apply (all_texts_spec _ _ H120)];
    (lia || exact Ht').
Qed.

Lemma phone_check_holds : phone_check = true.
Proof. vm_compute. reflexivity. Qed.

Lemma classify_repr (s : jsstring) : Forall is_repr (List.map classify s).
Proof.
  induction s as [|c s IH]; constructor; [|exact IH].
  unfold classify, is_repr.
  destruct (is_digit c); [auto|]. destruct (is_white_space c); auto.
Qed.

Lemma classify_digits (g : jsstring) :
  forallb is_digit g = true ->
  List.map classify g = repeat 48%N (length g).
Proof.
  induction g as [|c g IH]; [reflexivity|].
  simpl. intros H. apply andb_true_iff in H. destruct H as [Hc Hg].
  rewrite (classify_digit c Hc), (IH Hg). reflexivity.
Qed.

Lemma classify_separator (s : jsstring) :
  separator s = true ->
  List.map classify s
  = separator_repr (match s with [] => false | _ :: _ => true end).
Proof.
  destruct s as [|x [|y s]]; simpl; intros H;
    [reflexivity| |discriminate].
  rewrite (classify_space x H). reflexivity.
Qed.

Lemma digit_group_length (g : jsstring) :
  digit_group g = true ->
  forallb is_digit g = true /\ In (length g) [3; 4].
Proof.
  unfold digit_group. rewrite !andb_true_iff, !Nat.leb_le.
  intros [[Hg Hlo] Hhi]. split; [exact Hg|]. simpl. lia.
Qed.

Lemma separator_length (s : jsstring) : separator s = true -> length s <= 1.
Proof. destruct s as [|x [|y s]]; simpl; intros H; (lia || discriminate). Qed.

Lemma bool_in (b : bool) : In b [false; true].
Proof. destruct b; simpl; auto. Qed.

(** A text of the phone shape is matched as a whole where it stands, when
    what follows it does not start with a digit. *)
Lemma exec_phone_in_context (w post : jsstring) :
  phone_shape w ->
  is_digit (hd 120%N post) = false ->
  exec phoneRegex (w ++ post) = Some (w, post).
Proof.
  intros (g1 & s1 & g2 & s2 & g3 & -> & H1 & Hs1 & H2 & Hs2 & H3) Hpost.
  set (w := g1 ++ s1 ++ g2 ++ s2 ++ g3).
  destruct (digit_group_length g1 H1) as [Hd1 Hl1].
  destruct (digit_group_length g2 H2) as [Hd2 Hl2].
  destruct (digit_group_length g3 H3) as [Hd3 Hl3].
  assert (Hlen : 9 <= length w <= 14).
  { unfold w. rewrite !length_app.
    pose proof (separator_length s1 Hs1). pose proof (separator_length s2 Hs2).
    simpl in Hl1, Hl2, Hl3. lia. }
  assert (Hcls : List.map classify w
                 = phone_repr (length g1)
                     (match s1 with [] => false | _ :: _ => true end)
                     (length g2)
                     (match s2 with [] => false | _ :: _ => true end)
                     (length g3)).
  { unfold w, phone_repr. rewrite !map_app.
    rewrite (classify_digits g1 Hd1), (classify_digits g2 Hd2),
      (classify_digits g3 Hd3), (classify_separator s1 Hs1),
      (classify_separator s2 Hs2).
    reflexivity. }
  set (p := firstn (14 - length w) post).
  assert (Hfirst : firstn 14 (w ++ post) = w ++ p).
  { rewrite firstn_app. rewrite firstn_all2 by lia. reflexivity. }
  assert (Hskip : skipn 14 (w ++ post) = skipn (14 - length w) post).
  { rewrite skipn_app. rewrite skipn_all2 by lia. reflexivity. }
  (* the representatives *)
  assert (Hstop : phone_stops_at (List.map classify w) (List.map classify p)
                  = true).
  { rewrite Hcls.
    set (b1 := match s1 with [] => false | _ :: _ => true end).
    set (b2 := match s2 with [] => false | _ :: _ => true end).
    pose proof phone_check_holds as Hall. unfold phone_check in Hall.
    rewrite forallb_forall in Hall. specialize (Hall _ Hl1).
    rewrite forallb_forall in Hall. specialize (Hall b1 (bool_in b1)).
    rewrite forallb_forall in Hall. specialize (Hall _ Hl2).
    rewrite forallb_forall in Hall. specialize (Hall b2 (bool_in b2)).
    rewrite forallb_forall in Hall. specialize (Hall _ Hl3).
    apply (all_followers_spec _ _ Hall).
    - rewrite length_map. unfold p. rewrite length_firstn. lia.
    - apply classify_repr.
    - unfold p. destruct post as [|x post]; [rewrite firstn_nil; discriminate|].
      destruct (14 - length w); [discriminate|].
      simpl in Hpost |- *. unfold classify. rewrite Hpost.
      destruct (is_white_space x); discriminate. }
  (* from the representatives to the text *)
  assert (Hm : m phoneRegex (w ++ p) Some = Some p).
  { pose proof (m_respects same_phone_class phoneRegex phoneRegex_respects
                  (w ++ p) (List.map classify (w ++ p)) (classify_all _)
                  Some Some) as Hsame.
    assert (Hk : forall t t' : jsstring,
               Forall2 same_phone_class t t' ->
               same_length (Some t) (Some t')).
    { intros t t' Ht. simpl. eapply Forall2_length. exact Ht. }
    specialize (Hsame Hk).
    unfold phone_stops_at in Hstop. rewrite map_app in Hsame.
    destruct (m phoneRegex (List.map classify w ++ List.map classify p) Some)
      as [rest'|]; [|discriminate].
    apply Nat.eqb_eq in Hstop. rewrite length_map in Hstop.
    destruct (m phoneRegex (w ++ p) Some) as [rest|] eqn:Hrun;
      [|contradiction].
    simpl in Hsame.
    destruct (m_sound _ _ _ _ Hrun) as (w0 & rest0 & Heq & _ & Hk0).
    injection Hk0 as ->.
    assert (Hl : length w = length w0).
    { apply (f_equal (@length N)) in Heq. rewrite !length_app in Heq. lia. }
    destruct (app_eq_same_length _ _ _ _ Heq Hl) as [_ ->]. reflexivity. }
  unfold exec.
  rewrite (m_firstn phoneRegex 14 (w ++ post) eq_refl).
  rewrite Hfirst, Hm, Hskip. cbn [extend option_map].
  unfold p. rewrite firstn_skipn.
  rewrite firstn_length_app. reflexivity.
Qed.

(** Every text that the scan takes as a match is a match of the pattern. *)
Lemma scan_pieces_matched r w : forall (s : jsstring) skip,
  In (Matched w) (scan_pieces r skip s) ->
  exists s' rest, exec r s' = Some (w, rest).
Proof.
  induction s as [|c s IH]; intros skip H; cbn [scan_pieces] in H.
  - destruct skip; [|contradiction].
    destruct (exec r []) as [[w0 rest0]|] eqn:Hex; [|contradiction].
    destruct H as [H|[]]. injection H as <-. eauto.
  - destruct skip as [|n]; [|exact (IH _ H)].
    destruct (exec r (c :: s)) as [[[|c0 w0] rest0]|] eqn:Hex.
    + destruct H as [H|[H|H]]; [|discriminate H|exact (IH _ H)].
      injection H as <-. eauto.
    + destruct H as [H|H]; [|exact (IH _ H)].
      injection H as <-. eauto.
    + destruct H as [H|H]; [discriminate H|exact (IH _ H)].
Qed.

(** A code unit that is in no piece of the input is in the output only if
    a replacement brings it. *)
Lemma existsb_pieces (q : char16 -> bool) (f : jsstring -> jsstring) :
  (forall w, existsb q w = false -> existsb q (f w) = false) ->
  forall ps : list piece,
    existsb q (flat_map piece_source ps) = false ->
    existsb q (flat_map (piece_output f) ps) = false.
Proof.
  intros Hf. induction ps as [|[c|w] ps IH]; intros H; [exact H| |];
    cbn [flat_map piece_source piece_output] in H |- *;
    rewrite existsb_app in H |- *; apply orb_false_iff in H;
    destruct H as [H1 H2]; rewrite (IH H2), orb_false_r;
    [exact H1|exact (Hf w H1)].
Qed.

Lemma existsb_replace_global (q : char16 -> bool) r f (text : jsstring) :
  (forall w, existsb q w = false -> existsb q (f w) = false) ->
  existsb q text = false ->
  existsb q (replace_global r f text) = false.
Proof.
  intros Hf Htext. unfold replace_global. rewrite replace_scan_pieces.
  apply (existsb_pieces q f Hf).
  rewrite (scan_pieces_source r text 0). exact Htext.
Qed.

Lemma phone_rejects x :
  is_digit x = false -> is_white_space x = false ->
  rejects phoneRegex x = true.
Proof. intros Hd Hw. unfold phoneRegex. simpl. rewrite Hd, Hw. reflexivity. Qed.

Lemma phone_starts_with_digit c (s : jsstring) :
  is_digit c = false -> exec phoneRegex (c :: s) = None.
Proof. intros Hc. unfold exec, phoneRegex. simpl. rewrite Hc. reflexivity. Qed.

(** The phone step copies a text without digits. *)
Lemma highlightPhones_no_digit (pre s : jsstring) :
  existsb is_digit pre = false ->
  highlightPhones (pre ++ s) = pre ++ highlightPhones s.
Proof.
  unfold highlightPhones. induction pre as [|c pre IH]; intros H;
    [reflexivity|].
  simpl in H. apply orb_false_iff in H. destruct H as [Hc Hpre].
  cbn [app].
  rewrite (replace_global_step phoneRegex phoneSpan c (pre ++ s)
             (phone_starts_with_digit c _ Hc)).
  rewrite (IH Hpre). reflexivity.
Qed.

(** Every text of the phone shape is highlighted where it stands, when no
    digit stands before it and no digit follows it at once. *)
Lemma highlightPhones_occurrence (pre w post : jsstring) :
  existsb is_digit pre = false ->
  phone_shape w ->
  is_digit (hd 120%N post) = false ->
  highlightPhones (pre ++ w ++ post)
  = pre ++ phoneSpan w ++ highlightPhones post.
Proof.
  intros Hpre Hw Hpost.
  rewrite (highlightPhones_no_digit pre (w ++ post) Hpre).
  pose proof (exec_phone_in_context w post Hw Hpost) as Hex.
  destruct w as [|c w'].
  - exfalso. destruct Hw as (g1 & s1 & g2 & s2 & g3 & Heq & H1 & _).
    destruct g1; [discriminate H1|discriminate Heq].
  - unfold highlightPhones.
    rewrite (replace_global_match phoneRegex phoneSpan _ c w' post Hex).
    reflexivity.
Qed.

Lemma phoneSpan_keeps_out (q : char16 -> bool) (w : jsstring) :
  existsb q (js "<span class=" ++ [dq] ++ js "font-semibold text-blue-600"
               ++ [dq] ++ js ">") = false ->
  existsb q (js "</span>") = false ->
  existsb q w = false -> existsb q (phoneSpan w) = false.
Proof.
  intros Hopen Hclose Hw. unfold phoneSpan.
  rewrite !app_assoc. rewrite existsb_app, existsb_app.
  rewrite Hclose, Hw.
  rewrite <- !app_assoc, Hopen. reflexivity.
Qed.

(** On a text without colon, without [r] or [R] and without [C], the
    formatter is the phone step. *)
Lemma format_is_highlightPhones (text : jsstring) :
  existsb (N.eqb 58) text = false ->
  existsb (fun c => (canonicalize c =? 82)%N) text = false ->
  existsb (N.eqb 67) text = false ->
  formatResponse text = highlightPhones text.
Proof.
  intros Hcolon Hr HC.
  unfold formatResponse, linkify.
  rewrite (replace_global_id urlRegex _ text)
    by (apply (matches_somewhere_requires urlRegex (N.eqb 58)
                 url_requires_colon); exact Hcolon).
  unfold highlightTimes, annotateProntoSoccorso, annotateCup.
  assert (Hout : forall q,
             existsb q (js "<span class=" ++ [dq]
                          ++ js "font-semibold text-blue-600"
                          ++ [dq] ++ js ">") = false ->
             existsb q (js "</span>") = false ->
             existsb q text = false ->
             existsb q (highlightPhones text) = false).
  { intros q Hopen Hclose Hq. unfold highlightPhones.
    apply existsb_replace_global; [|exact Hq].
    intros w Hw. apply phoneSpan_keeps_out; assumption. }
  rewrite (replace_global_id timeRegex _ (highlightPhones text))
    by (apply (matches_somewhere_requires timeRegex (N.eqb 58)
                 time_requires_colon); apply Hout; [reflexivity|reflexivity|exact Hcolon]).
  rewrite (replace_global_id prontoSoccorsoRegex _ (highlightPhones text))
    by (apply (matches_somewhere_requires prontoSoccorsoRegex
                 (fun c => (canonicalize c =? 82)%N)
                 prontoSoccorso_requires_r);
        apply Hout; [reflexivity|reflexivity|exact Hr]).
  apply replace_global_id.
  apply (matches_somewhere_requires cupRegex (N.eqb 67) cup_requires_C).
  apply Hout; [reflexivity|reflexivity|exact HC].
Qed.



(** *** The keywords *)

Lemma starts_with_app (a rest : jsstring) : starts_with a (a ++ rest) = true.
Proof.
  induction a as [|x a IH]; [reflexivity|].
  simpl. rewrite N.eqb_refl. exact IH.
Qed.

Lemma starts_with_inv : forall a s : jsstring,
  starts_with a s = true -> exists rest, s = a ++ rest.
Proof.
  induction a as [|x a IH]; intros s H.
  - exists s. reflexivity.
  - destruct s as [|y s]; [discriminate|].
    simpl in H. apply andb_true_iff in H. destruct H as [Hx Ha].
    apply N.eqb_eq in Hx. subst y.
    destruct (IH s Ha) as [rest ->]. exists rest. reflexivity.
Qed.

(** The scan for a literal finds what [includes] finds. *)
Lemma matches_somewhere_lit (kw : jsstring) : forall s : jsstring,
  matches_somewhere (lit kw) s = includes s kw.
Proof.
  assert (Hex : forall s,
             match exec (lit kw) s with Some _ => true | None => false end
             = starts_with kw s).
  { intros s.
    pose proof (exec_iff_matches (lit kw) (fun w0 => w0 = kw)
                  (fun w0 rest0 => matches_lit kw w0 rest0)) as Hiff.
    assert (Hlen : forall w1 w2 : jsstring,
               w1 = kw -> w2 = kw -> length w1 = length w2)
      by (intros w1 w2 -> ->; reflexivity).
    specialize (Hiff Hlen).
    destruct (exec (lit kw) s) as [[w rest]|] eqn:He.
    - apply Hiff in He. destruct He as [-> ->].
      symmetry. apply starts_with_app.
    - destruct (starts_with kw s) eqn:Hs; [|reflexivity].
      apply starts_with_inv in Hs. destruct Hs as [rest Hs].
      assert (Hsome : exec (lit kw) s = Some (kw, rest))
        by (apply Hiff; auto).
      congruence. }
  induction s as [|c s IH].
  - cbn [matches_somewhere includes]. rewrite <- Hex.
    destruct (exec (lit kw) []); reflexivity.
  - cbn [matches_somewhere includes]. rewrite <- Hex, <- IH.
    destruct (exec (lit kw) (c :: s)); reflexivity.
Qed.

Lemma map_app_inv (f : char16 -> char16) : forall (a : jsstring) s rest,
  List.map f s = List.map f a ++ rest ->
  exists w t, s = w ++ t /\ List.map f w = List.map f a.
Proof.
  induction a as [|x a IH]; intros s rest H.
  - exists [], s. auto.
  - destruct s as [|y s]; [discriminate|].
    simpl in H. injection H as Hy Hs.
    destruct (IH s rest Hs) as (w & t & -> & Hw).
    exists (y :: w), t. simpl. rewrite Hy, Hw. auto.
Qed.

(** The scan for a literal under the [i] flag finds what [includes] finds
    once both texts are in one case. *)
Lemma matches_somewhere_lit_ci (kw : jsstring) : forall s : jsstring,
  matches_somewhere (lit_ci kw) s
  = includes (List.map canonicalize s) (List.map canonicalize kw).
Proof.
  assert (Hex : forall s,
             match exec (lit_ci kw) s with Some _ => true | None => false end
             = starts_with (List.map canonicalize kw)
                 (List.map canonicalize s)).
  { intros s.
    pose proof (exec_iff_matches (lit_ci kw) (fun w0 => same_casing w0 kw)
                  (fun w0 rest0 => matches_lit_ci kw w0 rest0)) as Hiff.
    assert (Hlen : forall w1 w2 : jsstring,
               same_casing w1 kw -> same_casing w2 kw ->
               length w1 = length w2).
    { intros w1 w2 H1 H2.
      rewrite (same_casing_length _ _ H1), (same_casing_length _ _ H2).
      reflexivity. }
    specialize (Hiff Hlen).
    destruct (exec (lit_ci kw) s) as [[w rest]|] eqn:He.
    - apply Hiff in He. destruct He as [-> Hw].
      rewrite map_app. unfold same_casing in Hw. rewrite Hw.
      symmetry. apply starts_with_app.
    - destruct (starts_with (List.map canonicalize kw)
                  (List.map canonicalize s)) eqn:Hs; [|reflexivity].
      apply starts_with_inv in Hs. destruct Hs as [rest Hs].
      destruct (map_app_inv canonicalize kw s rest Hs) as (w & t & -> & Hw).
      assert (Hsome : exec (lit_ci kw) (w ++ t) = Some (w, t))
        by (apply Hiff; auto).
      congruence. }
  induction s as [|c s IH].
  - pose proof (Hex []) as H0. cbn [List.map] in H0.
    cbn [matches_somewhere includes List.map]. rewrite <- H0.
    destruct (exec (lit_ci kw) []); reflexivity.
  - pose proof (Hex (c :: s)) as H0. cbn [List.map] in H0.
    cbn [matches_somewhere includes List.map]. rewrite <- H0, <- IH.
    destruct (exec (lit_ci kw) (c :: s)); reflexivity.
Qed.

(** A text without colon and with fewer than nine digits reaches the
    keyword steps as it is. *)
Lemma plain_text_reaches_keywords (text : jsstring) :
  existsb (N.eqb 58) text = false ->
  count_digits text < 9 ->
  formatResponse text = annotateCup (annotateProntoSoccorso text).
Proof.
  intros Hcolon Hdigits.
  unfold formatResponse, linkify, highlightPhones, highlightTimes.
  rewrite (replace_global_id urlRegex _ text)
    by (apply (matches_somewhere_requires urlRegex (N.eqb 58)
                 url_requires_colon); exact Hcolon).
  rewrite (replace_global_id phoneRegex _ text)
    by (apply few_digits_no_phone; exact Hdigits).
  rewrite (replace_global_id timeRegex _ text)
    by (apply (matches_somewhere_requires timeRegex (N.eqb 58)
                 time_requires_colon); exact Hcolon).
  reflexivity.
Qed.



(** *** The formatter, seen through the pieces of its scans *)

Section Render.

Variable inner wrap : jsstring -> jsstring.
Variable P : jsstring -> Prop.

Hypothesis inner_keeps :
  forall w, P w ->
  forall a b : jsstring,
    inner (a ++ wrap w ++ b) = inner a ++ wrap w ++ inner b.

Lemma render_pieces : forall (ps : list piece) (run : jsstring),
  (forall w, In (Matched w) ps -> P w) ->
  inner (run ++ flat_map (piece_output wrap) ps) = render inner wrap run ps.
Proof.
  induction ps as [|[c|w] ps IH]; intros run HP.
  - cbn [flat_map render]. rewrite app_nil_r. reflexivity.
  - cbn [flat_map piece_output render app].
    replace (run ++ c :: flat_map (piece_output wrap) ps)
      with ((run ++ [c]) ++ flat_map (piece_output wrap) ps)
      by (rewrite <- app_assoc; reflexivity).
    apply IH. intros w Hw. apply HP. right. exact Hw.
  - cbn [flat_map piece_output render].
    rewrite (inner_keeps w (HP w (or_introl eq_refl))).
    rewrite <- (IH []); [reflexivity|].
    intros w' Hw'. apply HP. right. exact Hw'.
Qed.

Lemma render_replace_global r (text : jsstring) :
  (forall w, In (Matched w) (scan_pieces r 0 text) -> P w) ->
  inner (replace_global r wrap text)
  = render inner wrap [] (scan_pieces r 0 text).
Proof.
  intros HP. unfold replace_global. rewrite replace_scan_pieces.
  exact (render_pieces _ [] HP).
Qed.

End Render.

Lemma render_ext (inner wrap wrap' : jsstring -> jsstring) :
  (forall w, wrap w = wrap' w) ->
  forall ps run, render inner wrap run ps = render inner wrap' run ps.
Proof.
  intros H. induction ps as [|[c|w] ps IH]; intros run; cbn [render];
    [reflexivity|apply IH|rewrite H, IH; reflexivity].
Qed.

(** The anchor, from after its first angle bracket to before its last. *)
Lemma anchor_tag (c : jsstring) :
  exists body, anchor c = 60%N :: body ++ [62%N]
               /\ forall r,
                    rejects r 60%N = true -> rejects r 62%N = true ->
                    rejects r dq = true -> end_free r = true ->
                    matches_somewhere r (anchorOpen ++ [dq]) = false ->
                    matches_somewhere r (anchorMid ++ [62%N]) = false ->
                    matches_somewhere r (anchorClose ++ [62%N]) = false ->
                    matches_somewhere r c = false ->
                    matches_somewhere r (body ++ [62%N]) = false.
Proof.
  exists (js "a href=" ++ dq :: c ++ dq :: anchorMid ++ 62%N
            :: c ++ 60%N :: js "/a").
  split.
  - unfold anchor, anchorMid.
    cbn [js List.map list_ascii_of_string app].
    repeat (rewrite <- app_assoc; cbn [app]). reflexivity.
  - intros r Hlt Hgt Hdq He Ho Hm Hc Hno.
    assert (Hnil : matches_somewhere r (c ++ []) = false)
      by (rewrite app_nil_r; exact Hno).
    pose proof (matches_somewhere_anchor r Hlt Hgt Hdq Ho Hm Hc c []
                  (no_match_before r He dq c [] Hdq Hnil)
                  (no_match_before r He 60%N c [] Hlt Hnil)) as H.
    assert (H0 : matches_somewhere r [] = false).
    { apply (matches_somewhere_suffix r c). exact Hnil. }
    specialize (H H0).
    apply (matches_somewhere_suffix r [60%N]).
    rewrite app_nil_r in H.
    replace ([60%N] ++ (js "a href=" ++ dq :: c ++ dq :: anchorMid ++ 62%N
                          :: c ++ 60%N :: js "/a") ++ [62%N])
      with (anchor c); [exact H|].
    unfold anchor, anchorMid.
    cbn [js List.map list_ascii_of_string app].
    repeat (rewrite <- app_assoc; cbn [app]). reflexivity.
Qed.

(** A later step copies the anchor of a URL in which its pattern matches
    nowhere. *)
Lemma later_step_keeps_anchor r f (c a b : jsstring) :
  rejects r 60%N = true -> rejects r 62%N = true ->
  rejects r dq = true -> end_free r = true -> nullable r = false ->
  matches_somewhere r (anchorOpen ++ [dq]) = false ->
  matches_somewhere r (anchorMid ++ [62%N]) = false ->
  matches_somewhere r (anchorClose ++ [62%N]) = false ->
  matches_somewhere r c = false ->
  replace_global r f (a ++ anchor c ++ b)
  = replace_global r f a ++ anchor c ++ replace_global r f b.
Proof.
  intros Hlt Hgt Hdq He Hn Ho Hm Hc Hno.
  destruct (anchor_tag c) as (body & Heq & Hbody).
  rewrite Heq.
  apply (replace_global_span r f Hlt Hgt He Hn a body b).
  apply Hbody; assumption.
Qed.

Lemma laterSteps_keeps_anchor (c a b : jsstring) :
  link_safe c = true ->
  laterSteps (a ++ anchor c ++ b)
  = laterSteps a ++ anchor c ++ laterSteps b.
Proof.
  unfold link_safe. rewrite !andb_true_iff, !negb_true_iff.
  intros [[[Hphone Htime] Hps] Hcup].
  unfold laterSteps, highlightPhones, highlightTimes, annotateProntoSoccorso,
    annotateCup.
  rewrite (later_step_keeps_anchor phoneRegex _ c a b)
    by (reflexivity || exact Hphone).
  rewrite (later_step_keeps_anchor timeRegex _ c)
    by (reflexivity || exact Htime).
  rewrite (later_step_keeps_anchor prontoSoccorsoRegex _ c)
    by (reflexivity || exact Hps).
  rewrite (later_step_keeps_anchor cupRegex _ c)
    by (reflexivity || exact Hcup).
  reflexivity.
Qed.

Lemma phoneSpan_tag (g : jsstring) :
  phoneSpan g
  = 60%N :: ((js "span class=" ++ [dq] ++ js "font-semibold text-blue-600"
                ++ [dq] ++ js ">") ++ g ++ js "</span") ++ [62%N].
Proof.
  unfold phoneSpan. cbn [js List.map list_ascii_of_string app].
  repeat rewrite <- app_assoc. reflexivity.
Qed.

Lemma timeSpan_tag (g : jsstring) :
  timeSpan g
  = 60%N :: ((js "span class=" ++ [dq] ++ js "font-semibold"
                ++ [dq] ++ js ">") ++ g ++ js "</span") ++ [62%N].
Proof.
  unfold timeSpan. cbn [js List.map list_ascii_of_string app].
  repeat rewrite <- app_assoc. reflexivity.
Qed.

Lemma phone_shape_group_chars w :
  phone_shape w -> forallb is_group_char w = true.
Proof.
  intros Hw. pose proof (phone_shape_chars w Hw) as H.
  rewrite forallb_forall in *. intros c Hc.
  unfold is_group_char. rewrite (H c Hc). reflexivity.
Qed.

Lemma phone_shape_no_colon w :
  phone_shape w -> existsb (N.eqb 58) w = false.
Proof.
  intros Hw.
  apply (existsb_none (N.eqb 58) _ w (fun c Hc =>
           proj1 (proj2 (digit_or_space_plain c Hc)))).
  exact (phone_shape_chars w Hw).
Qed.

(** The steps after the phone step copy a highlighted telephone number. *)
Lemma timesAndKeywords_keeps_phoneSpan (w : jsstring) :
  phone_shape w ->
  forall a b : jsstring,
    timesAndKeywords (a ++ phoneSpan w ++ b)
    = timesAndKeywords a ++ phoneSpan w ++ timesAndKeywords b.
Proof.
  intros Hw a b. unfold timesAndKeywords, highlightTimes.
  fold (annotateKeywords
          (replace_global timeRegex timeSpan (a ++ phoneSpan w ++ b))).
  fold (annotateKeywords (replace_global timeRegex timeSpan a)).
  fold (annotateKeywords (replace_global timeRegex timeSpan b)).
  rewrite phoneSpan_tag.
  rewrite (replace_global_span timeRegex timeSpan eq_refl eq_refl eq_refl
             eq_refl a _ b).
  - apply annotateKeywords_span; try reflexivity.
    apply phone_shape_group_chars. exact Hw.
  - apply (matches_somewhere_requires timeRegex (N.eqb 58)
             time_requires_colon).
    rewrite !existsb_app, (phone_shape_no_colon w Hw). reflexivity.
Qed.

(** The keyword steps copy a highlighted time. *)
Lemma annotateKeywords_keeps_timeSpan (w : jsstring) :
  time_shape w ->
  forall a b : jsstring,
    annotateKeywords (a ++ timeSpan w ++ b)
    = annotateKeywords a ++ timeSpan w ++ annotateKeywords b.
Proof.
  intros Hw a b. rewrite timeSpan_tag.
  apply annotateKeywords_span; try reflexivity.
  apply time_shape_chars. exact Hw.
Qed.

(** C3 (as amended).  The steps run in the fixed order, and each step works
    on the text that the steps before it have left between their markup.
    When no URL of the text, once cleaned, holds a match of a later pattern,
    the output is made of the pieces of the scan of [linkify]: each URL gives
    way to its anchor element, which the later steps copy as it is, and each
    stretch of text between two URLs goes through the later steps on its
    own.  In the same way the phone step hands on its spans, which the time
    step and the keyword steps copy as they are, and the stretches between
    them, and the time step hands on its spans and the stretches between
    them to the keyword steps; both without a condition.  The order shows
    in [Sede https://ulss.it/045 807 1111, fax 1234 5678 9012:30]: the link
    takes [045], so that the digits after it are no telephone number, and
    the number takes the digits before the colon, so that no time of day is
    left.  (A URL in which one of the later patterns matches is rewritten
    inside its link target.) *)
Theorem later_steps_follow_the_input :
  (forall text : jsstring,
     (forall url, In (Matched url) (scan_pieces urlRegex 0 text) ->
                  link_safe (cleanUrl url) = true) ->
     formatResponse text
     = render laterSteps
         (fun url => anchor_element (cleanUrl url) (cleanUrl url))
         [] (scan_pieces urlRegex 0 text))
  /\ (forall text : jsstring,
        laterSteps text
        = render timesAndKeywords phoneSpan [] (scan_pieces phoneRegex 0 text))
  /\ (forall text : jsstring,
        timesAndKeywords text
        = render annotateKeywords timeSpan [] (scan_pieces timeRegex 0 text))
  /\ (forall text : jsstring,
        matches_somewhere urlRegex text = false ->
        formatResponse text
        = render timesAndKeywords phoneSpan []
            (scan_pieces phoneRegex 0 text))
  /\ formatResponse
       (js "CUP 045 807 1111, https://ulss.it/sedi. Pronto soccorso 8:30")
     = [55357; 56542]%N ++ js " CUP <span class=" ++ [dq]
         ++ js "font-semibold text-blue-600" ++ [dq]
         ++ js ">045 807 1111</span>, <a href=" ++ [dq]
         ++ js "https://ulss.it/sedi" ++ [dq]
         ++ js " target=" ++ [dq] ++ js "_blank" ++ [dq]
         ++ js " class=" ++ [dq]
         ++ js "text-blue-600 underline hover:text-blue-700" ++ [dq]
         ++ js ">https://ulss.it/sedi</a> " ++ [55357; 57000]%N
         ++ js " Pronto Soccorso <span class=" ++ [dq]
         ++ js "font-semibold" ++ [dq] ++ js ">8:30</span>"
  /\ formatResponse
       (js "Sede https://ulss.it/045 807 1111, fax 1234 5678 9012:30")
     = js "Sede <a href=" ++ [dq] ++ js "https://ulss.it/045" ++ [dq]
         ++ js " target=" ++ [dq] ++ js "_blank" ++ [dq]
         ++ js " class=" ++ [dq]
         ++ js "text-blue-600 underline hover:text-blue-700" ++ [dq]
         ++ js ">https://ulss.it/045</a> 807 1111, fax <span class=" ++ [dq]
         ++ js "font-semibold text-blue-600" ++ [dq]
         ++ js ">1234 5678 9012</span>:30".
Proof.
  assert (Hphones : forall text : jsstring,
             laterSteps text
             = render timesAndKeywords phoneSpan []
                 (scan_pieces phoneRegex 0 text)).
  { intros text.
    change (laterSteps text)
      with (timesAndKeywords (replace_global phoneRegex phoneSpan text)).
    apply (render_replace_global timesAndKeywords phoneSpan phone_shape
             timesAndKeywords_keeps_phoneSpan).
    intros w Hin.
    destruct (scan_pieces_matched _ _ _ _ Hin) as (s' & rest & Hex).
    destruct (exec_sound _ _ _ _ Hex) as [_ Hm].
    exact (phone_match_shape w rest Hm). }
  split; [|split; [exact Hphones|split; [|split; [|split]]]];
    [| | |vm_compute; reflexivity|vm_compute; reflexivity].
  - intros text Hsafe.
    change (formatResponse text)
      with (laterSteps
              (replace_global urlRegex (fun u => anchor (cleanUrl u)) text)).
    rewrite (render_replace_global laterSteps
               (fun u => anchor (cleanUrl u))
               (fun u => link_safe (cleanUrl u) = true)
               (fun u Hu a b => laterSteps_keeps_anchor (cleanUrl u) a b Hu)
               urlRegex text Hsafe).
    apply render_ext. intros u. reflexivity.
  - intros text.
    change (timesAndKeywords text)
      with (annotateKeywords (replace_global timeRegex timeSpan text)).
    apply (render_replace_global annotateKeywords timeSpan time_shape
             annotateKeywords_keeps_timeSpan).
    intros w Hin.
    destruct (scan_pieces_matched _ _ _ _ Hin) as (s' & rest & Hex).
    destruct (exec_sound _ _ _ _ Hex) as [_ Hm].
    exact (time_match_shape w rest Hm).
  - intros text Hno.
    change (formatResponse text) with (laterSteps (linkify text)).
    unfold linkify. rewrite (replace_global_id urlRegex _ text Hno).
    apply Hphones.
Qed.

(** C3, witness: a keyword, a number, a link at the end of a sentence,
    the other keyword and a time. *)
Lemma later_steps_follow_the_input_witness :
  formatResponse
    (js "CUP 045 807 1111, https://ulss.it/sedi. Pronto soccorso 8:30")
  = glyph_phone ++ js " CUP " ++ phoneSpan (js "045 807 1111") ++ js ", "
      ++ anchor_element (js "https://ulss.it/sedi") (js "https://ulss.it/sedi")
      ++ js " " ++ glyph_siren ++ js " Pronto Soccorso "
      ++ timeSpan (js "8:30").
Proof.
  rewrite (proj1 later_steps_follow_the_input).
  - vm_compute. reflexivity.
  - intros url Hin. vm_compute in Hin.
    repeat (destruct Hin as [Hin|Hin]; try discriminate Hin).
    + injection Hin as <-. reflexivity.
    + contradiction.
Defined.

End FormatterSteps.
